(** * pauliopt: Pauli gadgets, Pauli polynomials and Steiner-Gray synthesis

    A shallow embedding of
      - [pauliopt/pauli/pauli_gadget.py]      (CX ladders, gadgets),
      - [pauliopt/pauli/pauli_polynomial.py]  (polynomials, simplification),
      - [pauliopt/pauli/synth/steiner_gray_nc.py] (recursive synthesis),
    together with the properties of these modules.

    Python objects that are mutated through references (gadgets, whose
    [angle] attribute is rebound; polynomials, whose gadget list grows) live
    in an explicit store; exceptions are values of [exn]; loops whose
    termination is not structural take fuel. *)

From Stdlib Require Import ZArith QArith Qround Lqa List Lia Bool Permutation.
From stdpp Require Import base tactics option list gmap.

Set Default Proof Using "Type".
#[local] Set Warnings "-clear-no-such-hyp".
Local Open Scope nat_scope.

(** ** Exceptions and results *)

(** The exceptions the three modules can raise.  The first three are the
    [Exception(...)] instances built in the source, told apart by their text;
    the others are Python's built-in error classes. *)
Inductive exn : Type :=
| ExpectedBinaryArray     (* "Expected binary array as column, got: ..." *)
| PaulisLengthMismatch    (* "Paulis must be of equal length to commute..." *)
| PolynomialSizeMismatch  (* "Pauli Polynomial has ..., but Pauli gadget has: ..." *)
| TypeError
| ValueError
| IndexError
| KeyError
| AssertionError.

(** Outcome of running a piece of code: a value, a raised exception, or the
    fuel of a loop ran out (the run was cut before the loop finished). *)
Inductive result (A : Type) : Type :=
| Ok (a : A)
| Raise (e : exn)
| OutOfFuel.
Arguments Ok {A} a.
Arguments Raise {A} e.
Arguments OutOfFuel {A}.

Definition result_bind {A B} (r : result A) (k : A -> result B) : result B :=
  match r with
  | Ok a => k a
  | Raise e => Raise e
  | OutOfFuel => OutOfFuel
  end.

(** State and exception monad: a raised exception keeps the state reached. *)
Definition M (S A : Type) : Type := S -> result A * S.

Definition ret {S A} (a : A) : M S A := fun s => (Ok a, s).
Definition raise {S A} (e : exn) : M S A := fun s => (Raise e, s).
Definition out_of_fuel {S A} : M S A := fun s => (OutOfFuel, s).
Definition bind {S A B} (c : M S A) (k : A -> M S B) : M S B :=
  fun s =>
    match c s with
    | (Ok a, s') => k a s'
    | (Raise e, s') => (Raise e, s')
    | (OutOfFuel, s') => (OutOfFuel, s')
    end.
Definition lift {S A} (r : result A) : M S A := fun s => (r, s).
Definition get {S} : M S S := fun s => (Ok s, s).
Definition modify {S} (f : S -> S) : M S unit := fun s => (Ok tt, f s).

Declare Scope py_scope.
Delimit Scope py_scope with py.
Notation "'let*' x ':=' c 'in' k" := (bind c (fun x => k))
  (at level 10, x pattern, c at level 100, k at level 200) : py_scope.
Notation "c ;; k" := (bind c (fun _ => k))
  (at level 100, k at level 200, right associativity) : py_scope.
Local Open Scope py_scope.

(** [for x in xs: body x] *)
Fixpoint for_each {S A} (xs : list A) (body : A -> M S unit) : M S unit :=
  match xs with
  | [] => ret tt
  | x :: xs' => body x ;; for_each xs' body
  end.

(** ** Pauli values (pauliopt.pauli.utils.Pauli) *)

Module Pauli.
Inductive t : Type := I | X | Y | Z.

(** [p == q] *)
Definition eqb (p q : t) : bool :=
  match p, q with
  | I, I | X, X | Y, Y | Z, Z => true
  | _, _ => false
  end.
End Pauli.

(** ** Angles (pauliopt.utils.AngleExpr, or a Python float)

    The angle arithmetic is an external collaborator.  The code of
    [pauli_polynomial.py] uses exactly these operations on it; no algebraic
    law is assumed, so that every statement below holds for floats as well as
    for symbolic angles. *)
Class AngleOps (A : Type) : Type := {
  angle_add : A -> A -> A;          (* [a + b] *)
  angle_zero : A;                   (* the literal [0.0] *)
  angle_neq_two_pi : A -> bool;     (* [a != 2 * np.pi] *)
  angle_neq_zero : A -> bool;       (* [a != 0] *)
}.

(** Angles as integer multiples of pi, for concrete runs: [2] is one full
    rotation period.  An idealisation (sums are exact, and [2] is the period
    itself): the general statements are parametric in [AngleOps] and none
    is restricted to this instance. *)
#[global] Instance ZPi_AngleOps : AngleOps Z := {|
  angle_add := Z.add;
  angle_zero := 0%Z;
  angle_neq_two_pi a := negb (a =? 2)%Z;
  angle_neq_zero a := negb (a =? 0)%Z;
|}.

(** ** Pauli gadgets and polynomials as Python objects

    A [PauliGadget] object has the attributes [angle] and [paulis]; a
    [PauliPolynomial] object has [num_qubits] and the list [pauli_gadgets] of
    references to gadget objects.  References are positions in the store. *)

Record PauliGadget (A : Type) : Type := mkGadget {
  angle : A;
  paulis : list Pauli.t;
}.
Arguments mkGadget {A} _ _.
Arguments angle {A} _.
Arguments paulis {A} _.

Record PauliPolynomial : Type := mkPoly {
  num_qubits : nat;
  pauli_gadgets : list nat;
}.

Record store (A : Type) : Type := mkStore {
  gadget_heap : list (PauliGadget A);
  poly_heap : list PauliPolynomial;
}.
Arguments mkStore {A} _ _.
Arguments gadget_heap {A} _.
Arguments poly_heap {A} _.

(** [l[i]] for a list and [i >= 0]: IndexError out of range. *)
Definition getitem {S A} (l : list A) (i : nat) : M S A :=
  match l !! i with
  | Some x => ret x
  | None => raise IndexError
  end.

(** [PauliGadget.commutes] on the attribute values of two gadgets. *)
Fixpoint mismatchcount (p q : list Pauli.t) : nat :=
  match p, q with
  | p_1 :: p', p_2 :: q' =>
      (if negb (Pauli.eqb p_1 p_2) && negb (Pauli.eqb p_1 Pauli.I)
          && negb (Pauli.eqb p_2 Pauli.I)
       then 1 else 0) + mismatchcount p' q'
  | _, _ => 0
  end.

Definition commutes {A} (self other : PauliGadget A) : result bool :=
  if negb (length (paulis self) =? length (paulis other))
  then Raise PaulisLengthMismatch
  else Ok (Nat.even (mismatchcount (paulis self) (paulis other))).

(** [PauliGadget.mutual_legs] *)
Fixpoint match_count (p q : list Pauli.t) : Z :=
  match p, q with
  | p_1 :: p', p_2 :: q' =>
      ((if negb (Pauli.eqb p_1 Pauli.I) && negb (Pauli.eqb p_2 Pauli.I)
        then 1 else -1) + match_count p' q')%Z
  | _, _ => 0%Z
  end.

Definition mutual_legs {A} (self other : PauliGadget A) : result Z :=
  if negb (length (paulis self) =? length (paulis other))
  then Raise PaulisLengthMismatch
  else Ok (match_count (paulis self) (paulis other)).

(** [PauliGadget.num_legs] *)
Definition num_legs {A} (self : PauliGadget A) : nat :=
  length (List.filter (fun pauli => negb (Pauli.eqb pauli Pauli.I)) (paulis self)).

(** [all([p_1 == p_2 for p_1, p_2 in zip(ps, qs)])]: [zip] stops at the
    shorter list. *)
Fixpoint zip_all_eq (ps qs : list Pauli.t) : bool :=
  match ps, qs with
  | p_1 :: ps', p_2 :: qs' => Pauli.eqb p_1 p_2 && zip_all_eq ps' qs'
  | _, _ => true
  end.

Section Objects.
Context {A : Type} `{AngleOps A}.

(** Reading an object through a reference.  A Python reference always points
    to an object; a position outside the store is reported as a KeyError of
    the store and does not occur in a store built by the operations below. *)
Definition read_gadget (r : nat) : M (store A) (PauliGadget A) :=
  fun s => match gadget_heap s !! r with
           | Some g => (Ok g, s)
           | None => (Raise KeyError, s)
           end.

Definition read_poly (p : nat) : M (store A) PauliPolynomial :=
  fun s => match poly_heap s !! p with
           | Some pp => (Ok pp, s)
           | None => (Raise KeyError, s)
           end.

(** [PauliGadget(angle, paulis)]: a new object. *)
Definition new_gadget (a : A) (ps : list Pauli.t) : M (store A) nat :=
  fun s => (Ok (length (gadget_heap s)),
            mkStore (gadget_heap s ++ [mkGadget a ps]) (poly_heap s)).

(** [r.angle = a]: the attribute of the object is rebound. *)
Definition set_angle (r : nat) (a : A) : M (store A) unit :=
  fun s => match gadget_heap s !! r with
           | Some g => (Ok tt, mkStore (<[r := mkGadget a (paulis g)]> (gadget_heap s))
                                       (poly_heap s))
           | None => (Raise KeyError, s)
           end.

(** [PauliGadget.copy]: a new object with the same angle and a copy of the
    Pauli list. *)
Definition gadget_copy (r : nat) : M (store A) nat :=
  let* g := read_gadget r in
  new_gadget (angle g) (paulis g).

(** [PauliPolynomial(num_qubits)] *)
Definition new_poly (n : nat) : M (store A) nat :=
  fun s => (Ok (length (poly_heap s)),
            mkStore (gadget_heap s) (poly_heap s ++ [mkPoly n []])).

(** [pp >>= gadget] ([__irshift__]): the length check, then an append to the
    polynomial's own list. *)
Definition irshift (pp : nat) (gadget : nat) : M (store A) unit :=
  let* p := read_poly pp in
  let* g := read_gadget gadget in
  if negb (length (paulis g) =? num_qubits p) then raise PolynomialSizeMismatch
  else modify (fun s =>
         mkStore (gadget_heap s)
                 (<[pp := mkPoly (num_qubits p) (pauli_gadgets p ++ [gadget])]> (poly_heap s))).

(** [[gadet.copy() for gadet in gadgets]] *)
Fixpoint copy_all (gadgets : list nat) : M (store A) (list nat) :=
  match gadgets with
  | [] => ret []
  | gadet :: rest =>
      let* c := gadget_copy gadet in
      let* cs := copy_all rest in
      ret (c :: cs)
  end.

(** [PauliPolynomial.copy] *)
Definition poly_copy (pp : nat) : M (store A) nat :=
  let* p := read_poly pp in
  let* pp_ := new_poly (num_qubits p) in
  for_each (pauli_gadgets p)
    (fun gadget => let* c := gadget_copy gadget in irshift pp_ c) ;;
  ret pp_.

(** ** Simplification (pauli_polynomial.py, lines 306-358) *)

(** The test of [remove_collapsed_pauli_gadegts]:
    [x.angle != 2 * np.pi and x.angle != 0]. *)
Definition not_collapsed (a : A) : bool :=
  angle_neq_two_pi a && angle_neq_zero a.

Fixpoint remove_collapsed_pauli_gadegts (remaining_poly : list nat)
  : M (store A) (list nat) :=
  match remaining_poly with
  | [] => ret []
  | x :: rest =>
      let* g := read_gadget x in
      let* kept := remove_collapsed_pauli_gadegts rest in
      ret (if not_collapsed (angle g) then x :: kept else kept)
  end.

(** The loop of [find_machting_parity_right] over
    [enumerate(remaining_poly[idx + 1:])]; [idx_right] counts from 0. *)
Fixpoint find_right_loop (gadget : PauliGadget A) (idx idx_right : nat)
    (tail : list nat) : M (store A) (option nat) :=
  match tail with
  | [] => ret None
  | r :: tail' =>
      let* gadget_right := read_gadget r in
      if zip_all_eq (paulis gadget) (paulis gadget_right)
      then ret (Some (idx + idx_right + 1))
      else find_right_loop gadget idx (S idx_right) tail'
  end.

Definition find_machting_parity_right (idx : nat) (remaining_poly : list nat)
  : M (store A) (option nat) :=
  let* r := getitem remaining_poly idx in
  let* gadget := read_gadget r in
  find_right_loop gadget idx 0 (drop (S idx) remaining_poly).

(** [is_commuting_region]: [ks] is what is left of [range(idx, idx_right)]. *)
Fixpoint commuting_loop (idx : nat) (ks : list nat) (remaining_poly : list nat)
  : M (store A) bool :=
  match ks with
  | [] => ret true
  | k :: ks' =>
      let* r := getitem remaining_poly idx in
      let* g := read_gadget r in
      let* rk := getitem remaining_poly k in
      let* gk := read_gadget rk in
      let* c := lift (commutes g gk) in
      if negb c then ret false else commuting_loop idx ks' remaining_poly
  end.

Definition is_commuting_region (idx idx_right : nat) (remaining_poly : list nat)
  : M (store A) bool :=
  commuting_loop idx (seq idx (idx_right - idx)) remaining_poly.

(** The body of the loop of [propagate_phase_gadegts] for one [idx]; it
    returns whether a merge was made. *)
Definition propagate_step (idx : nat) (remaining_poly : list nat)
  : M (store A) bool :=
  let* gadget := getitem remaining_poly idx in
  let* idx_right := find_machting_parity_right idx remaining_poly in
  match idx_right with
  | None => ret false
  | Some idx_right =>
      let* c := is_commuting_region idx idx_right remaining_poly in
      if negb c then ret false
      else
        let* r := getitem remaining_poly idx_right in
        let* g_right := read_gadget r in
        let* g_left := read_gadget gadget in
        set_angle r (angle_add (angle g_right) (angle g_left)) ;;
        let* l := getitem remaining_poly idx in
        set_angle l angle_zero ;;
        ret true
  end.

Fixpoint propagate_loop (idxs : list nat) (remaining_poly : list nat)
    (converged : bool) : M (store A) bool :=
  match idxs with
  | [] => ret converged
  | idx :: idxs' =>
      let* merged := propagate_step idx remaining_poly in
      propagate_loop idxs' remaining_poly (if merged then false else converged)
  end.

Definition propagate_phase_gadegts (remaining_poly : list nat) : M (store A) bool :=
  propagate_loop (seq 0 (length remaining_poly)) remaining_poly true.

(** The [while not converged] loop of [simplify_pauli_polynomial]. *)
Fixpoint simplify_loop (fuel : nat) (remaining_poly : list nat)
  : M (store A) (list nat) :=
  match fuel with
  | 0 => out_of_fuel
  | S fuel' =>
      let* remaining_poly := remove_collapsed_pauli_gadegts remaining_poly in
      let* converged := propagate_phase_gadegts remaining_poly in
      if converged then ret remaining_poly
      else simplify_loop fuel' remaining_poly
  end.

Definition simplify_pauli_polynomial (fuel : nat) (pp : nat) : M (store A) nat :=
  let* p := read_poly pp in
  let* remaining_poly := copy_all (pauli_gadgets p) in
  let* remaining_poly := simplify_loop fuel remaining_poly in
  let* pp_ := new_poly (num_qubits p) in
  for_each remaining_poly (fun gadget => irshift pp_ gadget) ;;
  ret pp_.

(** What a polynomial reference denotes in a store: its qubit count and the
    attribute values of its gadgets, in order. *)
Definition gadget_values (s : store A) (refs : list nat) : option (list (PauliGadget A)) :=
  mapM (fun r => gadget_heap s !! r) refs.

Definition poly_value (s : store A) (pp : nat) : option (nat * list (PauliGadget A)) :=
  match poly_heap s !! pp with
  | Some p =>
      match gadget_values s (pauli_gadgets p) with
      | Some gs => Some (num_qubits p, gs)
      | None => None
      end
  | None => None
  end.

End Objects.

(** ** The simplification on attribute values

    The same passes, on the list of the attribute values of the gadgets that
    [remaining_poly] refers to; positions in the list stand for the
    references.  [simplify_sim] below shows that the store program computes
    exactly this. *)
Section Values.
Context {A : Type} `{AngleOps A}.

Definition remove_collapsed_v (vs : list (PauliGadget A)) : list (PauliGadget A) :=
  List.filter (fun x => not_collapsed (angle x)) vs.

Fixpoint find_right_v (gadget : PauliGadget A) (idx idx_right : nat)
    (tail : list (PauliGadget A)) : option nat :=
  match tail with
  | [] => None
  | gadget_right :: tail' =>
      if zip_all_eq (paulis gadget) (paulis gadget_right)
      then Some (idx + idx_right + 1)
      else find_right_v gadget idx (S idx_right) tail'
  end.

Definition find_machting_parity_right_v (idx : nat) (vs : list (PauliGadget A))
  : result (option nat) :=
  match vs !! idx with
  | Some gadget => Ok (find_right_v gadget idx 0 (drop (S idx) vs))
  | None => Raise IndexError
  end.

Fixpoint commuting_loop_v (idx : nat) (ks : list nat) (vs : list (PauliGadget A))
  : result bool :=
  match ks with
  | [] => Ok true
  | k :: ks' =>
      match vs !! idx, vs !! k with
      | Some g, Some gk =>
          match commutes g gk with
          | Ok c => if negb c then Ok false else commuting_loop_v idx ks' vs
          | Raise e => Raise e
          | OutOfFuel => OutOfFuel
          end
      | _, _ => Raise IndexError
      end
  end.

Definition is_commuting_region_v (idx idx_right : nat) (vs : list (PauliGadget A))
  : result bool :=
  commuting_loop_v idx (seq idx (idx_right - idx)) vs.

(** The merge: the right angle becomes [right + left], the left one [0.0]. *)
Definition merge_v (idx idx_right : nat) (vs : list (PauliGadget A))
  : list (PauliGadget A) :=
  match vs !! idx, vs !! idx_right with
  | Some g_left, Some g_right =>
      let vs1 := <[idx_right := mkGadget (angle_add (angle g_right) (angle g_left))
                                         (paulis g_right)]> vs in
      match vs1 !! idx with
      | Some l => <[idx := mkGadget angle_zero (paulis l)]> vs1
      | None => vs1
      end
  | _, _ => vs
  end.

Definition propagate_step_v (idx : nat) (vs : list (PauliGadget A))
  : result (bool * list (PauliGadget A)) :=
  match find_machting_parity_right_v idx vs with
  | Ok None => Ok (false, vs)
  | Ok (Some idx_right) =>
      match is_commuting_region_v idx idx_right vs with
      | Ok c =>
          if negb c then Ok (false, vs)
          else match vs !! idx_right with
               | Some _ => Ok (true, merge_v idx idx_right vs)
               | None => Raise IndexError
               end
      | Raise e => Raise e
      | OutOfFuel => OutOfFuel
      end
  | Raise e => Raise e
  | OutOfFuel => OutOfFuel
  end.

Fixpoint propagate_loop_v (idxs : list nat) (vs : list (PauliGadget A))
    (converged : bool) : result (bool * list (PauliGadget A)) :=
  match idxs with
  | [] => Ok (converged, vs)
  | idx :: idxs' =>
      match propagate_step_v idx vs with
      | Ok (merged, vs') =>
          propagate_loop_v idxs' vs' (if merged then false else converged)
      | Raise e => Raise e
      | OutOfFuel => OutOfFuel
      end
  end.

Definition propagate_phase_gadegts_v (vs : list (PauliGadget A))
  : result (bool * list (PauliGadget A)) :=
  propagate_loop_v (seq 0 (length vs)) vs true.

Fixpoint simplify_loop_v (fuel : nat) (vs : list (PauliGadget A))
  : result (list (PauliGadget A)) :=
  match fuel with
  | 0 => OutOfFuel
  | S fuel' =>
      match propagate_phase_gadegts_v (remove_collapsed_v vs) with
      | Ok (converged, vs') =>
          if converged then Ok vs' else simplify_loop_v fuel' vs'
      | Raise e => Raise e
      | OutOfFuel => OutOfFuel
      end
  end.

(** The appends [pp_ >>= gadget] at the end: the first gadget of the wrong
    length raises. *)
Definition all_of_size (n : nat) (vs : list (PauliGadget A)) : bool :=
  forallb (fun g => length (paulis g) =? n) vs.

Definition simplify_v (fuel : nat) (n : nat) (vs : list (PauliGadget A))
  : result (list (PauliGadget A)) :=
  match simplify_loop_v fuel vs with
  | Ok vs' => if all_of_size n vs' then Ok vs' else Raise PolynomialSizeMismatch
  | Raise e => Raise e
  | OutOfFuel => OutOfFuel
  end.

(** [refs] denote the values [vs] in [s], and are pairwise distinct objects. *)
Definition denotes (s : store A) (refs : list nat) (vs : list (PauliGadget A)) : Prop :=
  Forall2 (fun r g => gadget_heap s !! r = Some g) refs vs /\ NoDup refs.

(** [s'] differs from [s] at most in the gadgets [refs]. *)
Definition changed_only (refs : list nat) (s s' : store A) : Prop :=
  poly_heap s' = poly_heap s /\
  length (gadget_heap s') = length (gadget_heap s) /\
  forall r, r ∉ refs -> gadget_heap s' !! r = gadget_heap s !! r.

(** Every object of [s] is still there, unchanged, in [s']. *)
Definition preserved (s s' : store A) : Prop :=
  (forall r g, gadget_heap s !! r = Some g -> gadget_heap s' !! r = Some g) /\
  (forall p pp, poly_heap s !! p = Some pp -> poly_heap s' !! p = Some pp).

End Values.

(** ** Concrete polynomials, with angles in multiples of pi *)

(** [Z Z] by pi, [Z I] by 3 pi, [Z Z] by 5 pi: the first merges into the third. *)
Definition merge_store : store Z :=
  mkStore [mkGadget 1%Z [Pauli.Z; Pauli.Z]; mkGadget 3%Z [Pauli.Z; Pauli.I];
           mkGadget 5%Z [Pauli.Z; Pauli.Z]]
          [mkPoly 2 [0; 1; 2]].

(** A single gadget [Z] by 4 pi, two full rotation periods. *)
Definition four_pi_store : store Z :=
  mkStore [mkGadget 4%Z [Pauli.Z]] [mkPoly 1 [0]].

(** [Z Z] by pi, then [Z Z] by -pi. *)
Definition cancel_store : store Z :=
  mkStore [mkGadget 1%Z [Pauli.Z; Pauli.Z]; mkGadget (-1)%Z [Pauli.Z; Pauli.Z]]
          [mkPoly 2 [0; 1]].

(** [X I] by pi, [Z Z] by 2 pi, [Y Y] by 3 pi, [I X] by 0: no two strings alike. *)
Definition distinct_store : store Z :=
  mkStore [mkGadget 1%Z [Pauli.X; Pauli.I]; mkGadget 2%Z [Pauli.Z; Pauli.Z];
           mkGadget 3%Z [Pauli.Y; Pauli.Y]; mkGadget 0%Z [Pauli.I; Pauli.X]]
          [mkPoly 2 [0; 1; 2; 3]].

(** No gadget has a later gadget with the same Pauli string (as
    [find_machting_parity_right] compares them). *)
Fixpoint distinct_strings {A} (vs : list (PauliGadget A)) : bool :=
  match vs with
  | [] => true
  | g :: vs' =>
      forallb (fun g' => negb (zip_all_eq (paulis g) (paulis g'))) vs'
      && distinct_strings vs'
  end.

(** ** Minimal CX assignment (pauli_gadget.py, lines 14-58) *)

Notation "'let?' x ':=' r 'in' k" := (result_bind r (fun x => k))
  (at level 10, x pattern, r at level 100, k at level 200) : py_scope.

(** The topology service: [arch.dist] and [arch.shortest_path].  The path
    runs from the first qubit to the second, both included. *)
Record Topology : Type := mkTopology {
  dist : nat -> nat -> Z;
  shortest_path : nat -> nat -> list nat;
}.

(** [Topology.complete(n)]: every two qubits are adjacent. *)
Definition complete_topology : Topology :=
  {| dist u v := if u =? v then 0%Z else 1%Z;
     shortest_path u v := if u =? v then [u] else [u; v] |}.

(** [Topology.line(n)]: qubit [i] is adjacent to [i + 1]. *)
Definition line_topology : Topology :=
  {| dist u v := Z.abs (Z.of_nat u - Z.of_nat v);
     shortest_path u v :=
       if u <=? v then seq u (v - u + 1) else rev (seq v (u - v + 1)) |}.

(** A [networkx.Graph] as it is built here: its nodes and the [add_edge]
    calls [(i, j, weight)] in the order they were made. *)
Record Graph : Type := mkGraph {
  nodes : list nat;
  edges : list (nat * nat * Z);
}.

(** [networkx.minimum_spanning_edges(G, data=False, algorithm="prim")], the
    library routine, is a parameter of the model. *)
Class NetworkX : Type := {
  minimum_spanning_edges : Graph -> list (nat * nat);
}.

(** [shortest_path[1:-1]] *)
Definition inner_path (path : list nat) : list nat := removelast (tail path).

(** [shortest_path[-2]]: IndexError on fewer than two elements. *)
Definition second_to_last (path : list nat) : result nat :=
  if length path <? 2 then Raise IndexError
  else match path !! (length path - 2) with
       | Some x => Ok x
       | None => Raise IndexError
       end.

(** The loop of [decompose_cnot_ladder_z] over [shortest_path[1:-1]]. *)
Fixpoint ladder_loop (prev : nat) (path : list nat) (cnot_ladder : list (nat * nat))
  : list (nat * nat) :=
  match path with
  | [] => cnot_ladder
  | current :: path' =>
      ladder_loop current path' (cnot_ladder ++ [(current, prev); (prev, current)])
  end.

Definition decompose_cnot_ladder_z (ctrl trg : nat) (arch : Topology)
  : result (list (nat * nat)) :=
  let path := shortest_path arch ctrl trg in
  let cnot_ladder := ladder_loop ctrl (inner_path path) [] in
  let? last := second_to_last path in
  Ok (rev (cnot_ladder ++ [(last, trg)])).

(** [np.all(np.isin(column, [0, 1]))] *)
Definition is_binary (column : list Z) : bool :=
  forallb (fun v => (v =? 0)%Z || (v =? 1)%Z) column.

(** [np.argmax(column)]: the first position of the largest entry; ValueError
    on an empty array. *)
Fixpoint argmax_from (best : nat) (best_val : Z) (i : nat) (column : list Z) : nat :=
  match column with
  | [] => best
  | v :: column' =>
      if (best_val <? v)%Z then argmax_from i v (S i) column'
      else argmax_from best best_val (S i) column'
  end.

Definition argmax (column : list Z) : result nat :=
  match column with
  | [] => Raise ValueError
  | v :: column' => Ok (argmax_from 0 v 1 column')
  end.

(** [column[i]] for [i] in [range(len(column))]. *)
Definition column_at (column : list Z) (i : nat) : Z := nth i column 0%Z.

(** The graph [G] of [find_minimal_cx_assignment]: all qubits as nodes, and
    an edge of weight [4 * arch.dist(i, j) - 2] for every two different
    active qubits. *)
Definition build_graph (column : list Z) (arch : Topology) : Graph :=
  let n := length column in
  mkGraph (seq 0 n)
    (flat_map (fun i =>
       flat_map (fun j =>
         if negb (column_at column i =? 0)%Z && negb (column_at column j =? 0)%Z
            && negb (i =? j)
         then [(i, j, (4 * dist arch i j - 2)%Z)] else [])
         (seq 0 n))
       (seq 0 n)).

(** [incident = {q: set() for q in range(len(column))}] *)
Definition empty_incident (n : nat) : gmap nat (gset (nat * nat)) :=
  list_to_map (map (fun q => (q, ∅)) (seq 0 n)).

(** [incident[fst].add((fst, snd)); incident[snd].add((snd, fst))] for every
    branch. *)
Fixpoint fill_incident (mst_branches : list (nat * nat))
    (incident : gmap nat (gset (nat * nat)))
  : result (gmap nat (gset (nat * nat))) :=
  match mst_branches with
  | [] => Ok incident
  | (fst, snd) :: rest =>
      match incident !! fst with
      | None => Raise KeyError
      | Some at_fst =>
          let incident := <[fst := at_fst ∪ {[(fst, snd)]}]> incident in
          match incident !! snd with
          | None => Raise KeyError
          | Some at_snd =>
              fill_incident rest (<[snd := at_snd ∪ {[(snd, fst)]}]> incident)
          end
      end
  end.

(** [for tail, head in incident[q]: ...].  A Python set is iterated in an
    order the language does not fix; here it is the order of [elements]. *)
Fixpoint visit_incident (arch : Topology) (es : list (nat * nat)) (visited : gset nat)
    (queue : list nat) (cnot_ladder : list (nat * nat))
  : result (list nat * list (nat * nat)) :=
  match es with
  | [] => Ok (queue, cnot_ladder)
  | (tail, head) :: es' =>
      if decide (head ∈ visited)
      then visit_incident arch es' visited queue cnot_ladder
      else
        let? segment := decompose_cnot_ladder_z head tail arch in
        visit_incident arch es' visited (queue ++ [head]) (cnot_ladder ++ segment)
  end.

(** [while queue: ...] *)
Fixpoint bfs (fuel : nat) (arch : Topology) (incident : gmap nat (gset (nat * nat)))
    (visited : gset nat) (queue : list nat) (cnot_ladder : list (nat * nat))
  : result (list (nat * nat)) :=
  match fuel with
  | 0 => OutOfFuel
  | S fuel' =>
      match queue with
      | [] => Ok cnot_ladder
      | q :: queue' =>
          let visited := visited ∪ {[q]} in
          match incident !! q with
          | None => Raise KeyError
          | Some at_q =>
              let? (queue'', cnot_ladder') :=
                visit_incident arch (elements at_q) visited queue' cnot_ladder in
              bfs fuel' arch incident visited queue'' cnot_ladder'
          end
      end
  end.

(** [if q0 is None: q0 = np.argmax(column)] *)
Definition chosen_root (column : list Z) (q0 : option nat) : result nat :=
  match q0 with
  | None => argmax column
  | Some q => Ok q
  end.

Definition find_minimal_cx_assignment `{NetworkX} (fuel : nat) (column : list Z)
    (arch : Topology) (q0 : option nat) : result (list (nat * nat) * nat) :=
  if negb (is_binary column) then Raise ExpectedBinaryArray
  else
    let G := build_graph column arch in
    let mst_branches := minimum_spanning_edges G in
    let? incident := fill_incident mst_branches (empty_incident (length column)) in
    let? q0 := chosen_root column q0 in
    let? cnot_ladder := bfs fuel arch incident ∅ [q0] [] in
    Ok (cnot_ladder, q0).

(** [PauliGadget.two_qubit_count] without the cache: twice the ladder. *)
Definition two_qubit_count `{NetworkX} {A} (fuel : nat) (self : PauliGadget A)
    (topology : Topology) : result nat :=
  let col_binary :=
    map (fun p => if negb (Pauli.eqb p Pauli.I) then 1%Z else 0%Z) (paulis self) in
  let? (cnot_ladder, _) := find_minimal_cx_assignment fuel col_binary topology None in
  Ok (2 * length cnot_ladder).

(** *** A model of the library's Prim routine, for concrete runs *)

(** The cheapest edge that leaves [tree], as [(inside, outside, weight)]. *)
Fixpoint cheapest_crossing (tree : list nat) (es : list (nat * nat * Z))
    (best : option (nat * nat * Z)) : option (nat * nat * Z) :=
  match es with
  | [] => best
  | (a, b, w) :: es' =>
      let candidate :=
        if bool_decide (a ∈ tree) && negb (bool_decide (b ∈ tree)) then Some (a, b, w)
        else if bool_decide (b ∈ tree) && negb (bool_decide (a ∈ tree)) then Some (b, a, w)
        else None in
      let best' :=
        match candidate, best with
        | Some (u, v, w'), Some (_, _, wb) => if (w' <? wb)%Z then candidate else best
        | Some _, None => candidate
        | None, _ => best
        end in
      cheapest_crossing tree es' best'
  end.

Fixpoint prim_grow (fuel : nat) (tree : list nat) (es : list (nat * nat * Z))
  : list (nat * nat) * list nat :=
  match fuel with
  | 0 => ([], tree)
  | S fuel' =>
      match cheapest_crossing tree es None with
      | None => ([], tree)
      | Some (u, v, _) =>
          let '(branches, tree') := prim_grow fuel' (v :: tree) es in
          ((u, v) :: branches, tree')
      end
  end.

Fixpoint prim_forest (starts : list nat) (seen : list nat) (G : Graph)
  : list (nat * nat) :=
  match starts with
  | [] => []
  | u :: starts' =>
      if bool_decide (u ∈ seen) then prim_forest starts' seen G
      else
        let '(branches, tree) := prim_grow (length (nodes G)) [u] (edges G) in
        branches ++ prim_forest starts' (tree ++ seen) G
  end.

Definition prim_networkx : NetworkX :=
  {| minimum_spanning_edges G := prim_forest (nodes G) [] G |}.

(** *** Spanning trees, as the BFS sees them *)

(** [grow tree branches]: the branches [(parent, child)] are attached one
    after the other, each parent being in the tree and each child new; the
    result is the list of nodes of the tree. *)
Fixpoint grow (tree : list nat) (branches : list (nat * nat)) : option (list nat) :=
  match branches with
  | [] => Some tree
  | (u, v) :: branches' =>
      if bool_decide (u ∈ tree) && negb (bool_decide (v ∈ tree))
      then grow (tree ++ [v]) branches'
      else None
  end.

(** The active qubits of a column. *)
Definition active_qubits (column : list Z) : list nat :=
  List.filter (fun i => negb (column_at column i =? 0)%Z) (seq 0 (length column)).

(** [mst] has the same branches, up to their order and direction, as
    [branches]. *)
Definition same_branches (mst branches : list (nat * nat)) : bool :=
  forallb (fun '(a, b) => bool_decide ((a, b) ∈ branches) || bool_decide ((b, a) ∈ branches)) mst
  && forallb (fun '(a, b) => bool_decide ((a, b) ∈ mst) || bool_decide ((b, a) ∈ mst)) branches.

(** [mst] is a spanning tree of the active qubits of [column]: its
    branches, directed away from [root] and suitably ordered ([branches]),
    grow from [root] alone into a tree whose nodes are the active qubits. *)
Definition spanning_tree_of (column : list Z) (root : nat)
    (mst branches : list (nat * nat)) : bool :=
  same_branches mst branches &&
  match grow [root] branches with
  | Some tree =>
      forallb (fun q => bool_decide (q ∈ tree)) (active_qubits column)
      && forallb (fun q => bool_decide (q ∈ active_qubits column)) tree
  | None => false
  end.

(** Every branch of [mst] joins two nodes that an [add_edge] call of [G]
    joined. *)
Definition within_graph (G : Graph) (mst : list (nat * nat)) : bool :=
  forallb (fun '(a, b) =>
    existsb (fun '(i, j, _) => (a =? i) && (b =? j) || (a =? j) && (b =? i)) (edges G))
    mst.

(** The topology has a path of at least two qubits (the two ends) between
    the ends of every branch. *)
Definition paths_connect (arch : Topology) (branches : list (nat * nat)) : bool :=
  forallb (fun '(u, v) => 2 <=? length (shortest_path arch v u)) branches.

(** The number of entries of the ladder between two qubits:
    two per inner node of the shortest path, and one. *)
Definition segment_length (arch : Topology) (head tail : nat) : nat :=
  2 * (length (shortest_path arch head tail) - 2) + 1.

(** The parent of a node in a tree given by its branches [(parent, child)]. *)
Definition parent_of (branches : list (nat * nat)) (v : nat) : nat :=
  match List.find (fun '(_, v') => v' =? v) branches with
  | Some (u, _) => u
  | None => 0
  end.

(** What reaching [x] from its parent adds to the ladder. *)
Definition reach_cost (arch : Topology) (root : nat) (branches : list (nat * nat))
    (x : nat) : nat :=
  if decide (x = root) then 0 else segment_length arch x (parent_of branches x).

(** The qubits [visit_incident] appends to the queue. *)
Definition unvisited_heads (es : list (nat * nat)) (visited : gset nat) : list nat :=
  (filter (fun e : nat * nat => e.2 ∉ visited) es).*2.

(** ** Steiner-Gray synthesis (steiner_gray_nc.py) *)

(** The Clifford gates of [pauliopt.pauli.clifford_gates] that the synthesis
    builds: [H(q)], [V(q)], [CX(control, target)]. *)
Module Clifford.
Inductive t : Type :=
| H (q : nat)
| V (q : nat)
| CX (control target : nat).
End Clifford.

(** The gates a [PauliCircuit] is asked to hold: [h], [v], [vdg], [cx], [rz]. *)
Inductive gate (A : Type) : Type :=
| gate_h (q : nat)
| gate_v (q : nat)
| gate_vdg (q : nat)
| gate_cx (control target : nat)
| gate_rz (a : A) (q : nat).
Arguments gate_h {A} q.
Arguments gate_v {A} q.
Arguments gate_vdg {A} q.
Arguments gate_cx {A} control target.
Arguments gate_rz {A} a q.

(** The graph [topo.to_nx]: its nodes and its edges, as [G.edges] lists them. *)
Record NxGraph : Type := mkNxGraph {
  g_nodes : list nat;
  g_edges : list (nat * nat);
}.

(** What the synthesis imports and calls, and does not define:
    [find_common_paulis] (uccds), [is_cutting] (clifford_tableau, on the
    subgraph of the given nodes), the negation of an angle (for
    [PauliCircuit.inverse]), and the two operations it asks of the polynomial
    object: [pp.propagate(gate, columns_to_use)] and [pp[l]]. *)
Class Collaborators (A : Type) : Type := {
  find_common_paulis : nat -> list (PauliGadget A) -> result (option Pauli.t);
  is_cutting : nat -> list nat -> NxGraph -> bool;
  angle_neg : A -> A;
  call_propagate : Clifford.t -> list nat -> list (PauliGadget A)
                   -> result (list (PauliGadget A));
  call_getitem : list (PauliGadget A) -> nat -> result (PauliGadget A);
}.

(** Instrumentation: every gate appended to a circuit and every call of
    [pp.propagate] is logged, in order.  A gate appended before the recursive
    call is [Forward]; one appended after it is [Undo]; the gates of
    [apply_rotation] are [Rotation]. *)
Inductive role : Type := Forward | Undo | Rotation.

Inductive event (A : Type) : Type :=
| Emitted (r : role) (g : gate A)
| Propagated (g : Clifford.t) (columns : list nat).
Arguments Emitted {A} r g.
Arguments Propagated {A} g columns.

(** The state the nested functions share: the working polynomial [pp] (the
    attribute values of [pp.pauli_gadgets]), the list [perm_gadgets], and the
    log. *)
Record synth_state (A : Type) : Type := mkSynth {
  pp_gadgets : list (PauliGadget A);
  perm_gadgets : list nat;
  trace : list (event A);
}.
Arguments mkSynth {A} _ _ _.
Arguments pp_gadgets {A} _.
Arguments perm_gadgets {A} _.
Arguments trace {A} _.

Section Synthesis.
Context {A : Type} `{Collaborators A}.

(** [PauliCircuit.inverse]: the inverse gates in reverse order. *)
Definition gate_inverse (g : gate A) : gate A :=
  match g with
  | gate_h q => gate_h q
  | gate_v q => gate_vdg q
  | gate_vdg q => gate_v q
  | gate_cx c t => gate_cx c t
  | gate_rz a q => gate_rz (angle_neg a) q
  end.

Definition inverse (qc : list (gate A)) : list (gate A) :=
  rev (map gate_inverse qc).

(** [qc.h(q)] and the like: the gate is appended, and logged. *)
Definition emit (r : role) (g : gate A) (qc : list (gate A))
  : M (synth_state A) (list (gate A)) :=
  fun s => (Ok (qc ++ [g]),
            mkSynth (pp_gadgets s) (perm_gadgets s) (trace s ++ [Emitted r g])).

(** [pp.propagate(gate, columns_to_use)]: logged, then left to the
    polynomial object. *)
Definition propagate (g : Clifford.t) (columns_to_use : list nat)
  : M (synth_state A) unit :=
  fun s =>
    let log := trace s ++ [Propagated g columns_to_use] in
    match call_propagate g columns_to_use (pp_gadgets s) with
    | Ok gadgets => (Ok tt, mkSynth gadgets (perm_gadgets s) log)
    | Raise e => (Raise e, mkSynth (pp_gadgets s) (perm_gadgets s) log)
    | OutOfFuel => (OutOfFuel, mkSynth (pp_gadgets s) (perm_gadgets s) log)
    end.

(** [pp.pauli_gadgets[col][q]] *)
Definition pauli_at (col q : nat) : M (synth_state A) Pauli.t :=
  let* s := get in
  let* gadget := getitem (pp_gadgets s) col in
  getitem (paulis gadget) q.

(** [pp[col][q]] *)
Definition pp_item_at (col q : nat) : M (synth_state A) Pauli.t :=
  let* s := get in
  let* gadget := lift (call_getitem (pp_gadgets s) col) in
  getitem (paulis gadget) q.

(** [pp.pauli_gadgets[col].angle] *)
Definition angle_at (col : nat) : M (synth_state A) A :=
  let* s := get in
  let* gadget := getitem (pp_gadgets s) col in
  ret (angle gadget).

(** [perm_gadgets.append(col)] *)
Definition perm_append (col : nat) : M (synth_state A) unit :=
  modify (fun s => mkSynth (pp_gadgets s) (perm_gadgets s ++ [col]) (trace s)).

(** [[col for col in columns if read(col) == p]] *)
Fixpoint columns_where (read : nat -> M (synth_state A) Pauli.t) (p : Pauli.t)
    (columns : list nat) : M (synth_state A) (list nat) :=
  match columns with
  | [] => ret []
  | col :: columns' =>
      let* v := read col in
      let* rest := columns_where read p columns' in
      ret (if Pauli.eqb v p then col :: rest else rest)
  end.

(** [max(xs, key=lambda x: x[1])[0]]: the first entry of largest score;
    ValueError on an empty list. *)
Fixpoint first_max (best : nat) (best_score : nat) (xs : list (nat * nat)) : nat :=
  match xs with
  | [] => best
  | (q, score) :: xs' =>
      if best_score <? score then first_max q score xs'
      else first_max best best_score xs'
  end.

Definition max_by_score {S} (xs : list (nat * nat)) : M S nat :=
  match xs with
  | [] => raise ValueError
  | (q, score) :: xs' => ret (first_max q score xs')
  end.

Definition max4 (a b c d : nat) : nat := Nat.max (Nat.max a b) (Nat.max c d).
Definition min4 (a b c d : nat) : nat := Nat.min (Nat.min a b) (Nat.min c d).

Fixpoint qubit_scores (columns_to_use : list nat) (qubits_to_use : list nat)
  : M (synth_state A) (list (nat * nat)) :=
  match qubits_to_use with
  | [] => ret []
  | q :: qubits' =>
      let* col_i := columns_where (fun col => pauli_at col q) Pauli.I columns_to_use in
      let* col_x := columns_where (fun col => pauli_at col q) Pauli.X columns_to_use in
      let* col_y := columns_where (fun col => pauli_at col q) Pauli.Y columns_to_use in
      let* col_z := columns_where (fun col => pauli_at col q) Pauli.Z columns_to_use in
      let score :=
        max4 (length col_i) (length col_x) (length col_y) (length col_z)
        - min4 (length col_i) (length col_x) (length col_y) (length col_z) in
      let* rest := qubit_scores columns_to_use qubits' in
      ret ((q, score) :: rest)
  end.

Definition pick_row (columns_to_use qubits_to_use : list nat) : M (synth_state A) nat :=
  let* scores := qubit_scores columns_to_use qubits_to_use in
  max_by_score scores.

Definition update_gadget_single_column (qc : list (gate A)) (q : nat) (p : Pauli.t)
    (columns_to_use : list nat) : M (synth_state A) (list (gate A)) :=
  match p with
  | Pauli.X => propagate (Clifford.H q) columns_to_use ;; emit Forward (gate_h q) qc
  | Pauli.Y => propagate (Clifford.V q) columns_to_use ;; emit Forward (gate_v q) qc
  | Pauli.Z => ret qc
  | Pauli.I => raise ValueError
  end.

Fixpoint update_single_qubits (c : list (gate A)) (qubits : list nat)
    (columns_to_use : list nat) : M (synth_state A) (list (gate A)) :=
  match qubits with
  | [] => ret c
  | q :: qubits' =>
      let* s := get in
      let* p := lift (find_common_paulis q (pp_gadgets s)) in
      let* c := match p with
                | Some p => update_gadget_single_column c q p columns_to_use
                | None => ret c
                end in
      update_single_qubits c qubits' columns_to_use
  end.

(** [p in [I, p1]] *)
Definition in_I_or (p p1 : Pauli.t) : bool := Pauli.eqb p Pauli.I || Pauli.eqb p p1.

(** The loop [for l in columns_to_use] of [find_compatible_pair]: whether
    [found_pair] is still true at its end. *)
Fixpoint compatible_on (q1 q2 : nat) (p1 p2 : Pauli.t) (columns_to_use : list nat)
  : M (synth_state A) bool :=
  match columns_to_use with
  | [] => ret true
  | l :: columns' =>
      let* p_gdt := pp_item_at l q1 in
      let* p_gdt2 := pp_item_at l q2 in
      if negb (Bool.eqb (in_I_or p_gdt p1) (in_I_or p_gdt2 p2)) then ret false
      else compatible_on q1 q2 p1 p2 columns'
  end.

Fixpoint first_compatible (q1 q2 : nat) (candidates : list (Pauli.t * Pauli.t))
    (columns_to_use : list nat) : M (synth_state A) (option (Pauli.t * Pauli.t)) :=
  match candidates with
  | [] => ret None
  | (p1, p2) :: candidates' =>
      let* found_pair := compatible_on q1 q2 p1 p2 columns_to_use in
      if found_pair then ret (Some (p1, p2))
      else first_compatible q1 q2 candidates' columns_to_use
  end.

Definition find_compatible_pair (q1 q2 : nat) (columns_to_use : list nat)
  : M (synth_state A) (option (Pauli.t * Pauli.t)) :=
  first_compatible q1 q2
    (p1 ← [Pauli.X; Pauli.Y; Pauli.Z]; p2 ← [Pauli.X; Pauli.Y; Pauli.Z]; [(p1, p2)])
    columns_to_use.

Fixpoint pick_best_pair (edges : list (nat * nat)) (columns_to_use qubits : list nat)
  : M (synth_state A) (option (Pauli.t * Pauli.t * (nat * nat))) :=
  match edges with
  | [] => ret None
  | (q_1, q_2) :: edges' =>
      if bool_decide (q_1 ∈ qubits) && bool_decide (q_2 ∈ qubits)
      then
        let* pairs := find_compatible_pair q_1 q_2 columns_to_use in
        match pairs with
        | Some pairs => ret (Some (pairs, (q_1, q_2)))
        | None => pick_best_pair edges' columns_to_use qubits
        end
      else pick_best_pair edges' columns_to_use qubits
  end.

(** [xs.remove(x)]: the first occurrence goes; ValueError when there is none. *)
Fixpoint list_remove {S} (x : nat) (xs : list nat) : M S (list nat) :=
  match xs with
  | [] => raise ValueError
  | y :: xs' =>
      if x =? y then ret xs'
      else let* rest := list_remove x xs' in ret (y :: rest)
  end.

(** The [while qubit_pairs and non_visited_qubits] loop of
    [update_pair_qubits]. *)
Fixpoint update_pair_loop (fuel : nat) (G : NxGraph) (c : list (gate A))
    (qubit_pairs : option (Pauli.t * Pauli.t * (nat * nat)))
    (non_visited_qubits columns_to_use : list nat)
  : M (synth_state A) (list (gate A)) :=
  match fuel with
  | 0 => out_of_fuel
  | S fuel' =>
      match qubit_pairs, non_visited_qubits with
      | Some ((p1, p2), (q_1, q_2)), _ :: _ =>
          let* non_visited_qubits := list_remove q_1 non_visited_qubits in
          let* non_visited_qubits := list_remove q_2 non_visited_qubits in
          let* c := update_gadget_single_column c q_1 p1 columns_to_use in
          let* c := update_gadget_single_column c q_2 p2 columns_to_use in
          propagate (Clifford.CX q_1 q_2) columns_to_use ;;
          let* c := emit Forward (gate_cx q_1 q_2) c in
          let* qubit_pairs :=
            pick_best_pair (g_edges G) columns_to_use non_visited_qubits in
          update_pair_loop fuel' G c qubit_pairs non_visited_qubits columns_to_use
      | _, _ => ret c
      end
  end.

Definition update_pair_qubits (G : NxGraph) (c : list (gate A))
    (qubits columns_to_use : list nat) : M (synth_state A) (list (gate A)) :=
  let* qubit_pairs := pick_best_pair (g_edges G) columns_to_use qubits in
  update_pair_loop (S (length qubits)) G c qubit_pairs qubits columns_to_use.

(** [partition_pauli_polynomial]: the columns by the Pauli value at [row]. *)
Fixpoint partition_pauli_polynomial (row : nat) (columns_to_use : list nat)
  : M (synth_state A) (list nat * list nat * list nat * list nat) :=
  match columns_to_use with
  | [] => ret ([], [], [], [])
  | col :: columns' =>
      let* p := pauli_at col row in
      let* (col_i, col_x, col_y, col_z) := partition_pauli_polynomial row columns' in
      ret (match p with
           | Pauli.I => (col :: col_i, col_x, col_y, col_z)
           | Pauli.X => (col_i, col :: col_x, col_y, col_z)
           | Pauli.Y => (col_i, col_x, col :: col_y, col_z)
           | Pauli.Z => (col_i, col_x, col_y, col :: col_z)
           end)
  end.

(** [partition_pauli_polynomial_]: the identity columns, the two types that
    together have most columns (the first such pair on ties) with their
    columns, and the remaining type with its columns. *)
Definition partition_pauli_polynomial_ (row : nat) (columns_to_use : list nat)
  : M (synth_state A)
      (list nat * Pauli.t * Pauli.t * list nat * Pauli.t * list nat) :=
  let* (col_i, col_x, col_y, col_z) := partition_pauli_polynomial row columns_to_use in
  let n_xy := length col_x + length col_y in
  let n_xz := length col_x + length col_z in
  let n_yz := length col_y + length col_z in
  ret (if (n_xz <=? n_xy) && (n_yz <=? n_xy)
       then (col_i, Pauli.X, Pauli.Y, col_x ++ col_y, Pauli.Z, col_z)
       else if n_yz <=? n_xz
       then (col_i, Pauli.X, Pauli.Z, col_x ++ col_z, Pauli.Y, col_y)
       else (col_i, Pauli.Y, Pauli.Z, col_y ++ col_z, Pauli.X, col_x)).

(** [G.subgraph(nodes).neighbors(row)], listed in the order of the edge list.
    networkx lists them in the order of the adjacency of [row], which can
    differ; the order matters to the tie-breaking of [pick_row] only. *)
Definition neighbors (G : NxGraph) (nodes : list nat) (row : nat) : list nat :=
  omap (fun '(a, b) =>
          if (a =? row) && bool_decide (b ∈ nodes) then Some b
          else if (b =? row) && bool_decide (a ∈ nodes) then Some a
          else None)
       (g_edges G).

(** The basis change of [row] into Z, before a recursion ([qc.h] or
    [qc.vdg], each with a propagation), and back after it. *)
Definition basis_change_forward (qc : list (gate A)) (row : nat) (rec_type : Pauli.t)
    (columns_to_use : list nat) : M (synth_state A) (list (gate A)) :=
  match rec_type with
  | Pauli.X =>
      let* qc := emit Forward (gate_h row) qc in
      propagate (Clifford.H row) columns_to_use ;; ret qc
  | Pauli.Y =>
      let* qc := emit Forward (gate_vdg row) qc in
      propagate (Clifford.V row) columns_to_use ;; ret qc
  | _ => ret qc
  end.

Definition basis_change_back (qc : list (gate A)) (row : nat) (rec_type : Pauli.t)
  : M (synth_state A) (list (gate A)) :=
  match rec_type with
  | Pauli.X => emit Undo (gate_h row) qc
  | Pauli.Y => emit Undo (gate_v row) qc
  | _ => ret qc
  end.

(** [apply_rotation] *)
Fixpoint rotations (qc : list (gate A)) (columns_to_use : list nat) (row : nat)
  : M (synth_state A) (list (gate A)) :=
  match columns_to_use with
  | [] => ret qc
  | col :: columns' =>
      let* a := angle_at col in
      let* qc := emit Rotation (gate_rz a row) qc in
      perm_append col ;;
      rotations qc columns' row
  end.

Definition apply_rotation (columns_to_use : list nat) (row : nat) (rec_type : Pauli.t)
  : M (synth_state A) (list (gate A)) :=
  let* qc := match rec_type with
             | Pauli.X => emit Rotation (gate_h row) []
             | Pauli.Y => emit Rotation (gate_v row) []
             | _ => ret []
             end in
  let* qc := rotations qc columns_to_use row in
  match rec_type with
  | Pauli.X => emit Rotation (gate_h row) qc
  | Pauli.Y => emit Rotation (gate_vdg row) qc
  | _ => ret qc
  end.

(** The three helpers of [p_recurse]; [p_recurse] itself is their first
    argument. *)
Definition check_identity
    (p_recurse : list nat -> list nat -> nat -> Pauli.t -> M (synth_state A) (list (gate A)))
    (columns_to_use remaining_qubits : list nat) (row row_next : nat) (rec_type : Pauli.t)
  : M (synth_state A) (list (gate A)) :=
  match columns_to_use with
  | [] => ret []
  | _ :: _ =>
      let* qc := basis_change_forward [] row rec_type columns_to_use in
      let* qc := emit Forward (gate_cx row_next row) qc in
      let* qc := emit Forward (gate_cx row row_next) qc in
      propagate (Clifford.CX row_next row) columns_to_use ;;
      propagate (Clifford.CX row row_next) columns_to_use ;;
      let* qc_i := p_recurse columns_to_use remaining_qubits row_next Pauli.Z in
      let qc := qc ++ qc_i in
      let* qc := emit Undo (gate_cx row row_next) qc in
      let* qc := emit Undo (gate_cx row_next row) qc in
      basis_change_back qc row rec_type
  end.

Definition simplify_twp_p
    (p_recurse : list nat -> list nat -> nat -> Pauli.t -> M (synth_state A) (list (gate A)))
    (columns_to_use remaining_qubits : list nat) (row : nat) (rec_type : Pauli.t)
    (row_next : nat) (rec_type_next_1 rec_type_next_2 : Pauli.t)
  : M (synth_state A) (list (gate A)) :=
  match columns_to_use with
  | [] => ret []
  | _ :: _ =>
      let* qc := basis_change_forward [] row rec_type columns_to_use in
      let* qc :=
        match rec_type_next_1, rec_type_next_2 with
        | Pauli.X, Pauli.Y =>
            let* qc := emit Forward (gate_h row_next) qc in
            propagate (Clifford.H row_next) columns_to_use ;; ret qc
        | Pauli.X, Pauli.Z =>
            let* qc := emit Forward (gate_vdg row_next) qc in
            propagate (Clifford.V row_next) columns_to_use ;; ret qc
        | _, _ => ret qc
        end in
      let* qc := emit Forward (gate_cx row row_next) qc in
      propagate (Clifford.CX row row_next) columns_to_use ;;
      let* columns_to_use_1 :=
        columns_where (fun col => pp_item_at col row_next) Pauli.Z columns_to_use in
      let* columns_to_use_2 :=
        columns_where (fun col => pp_item_at col row_next) Pauli.Y columns_to_use in
      let* qc_z := p_recurse columns_to_use_1 remaining_qubits row_next Pauli.Z in
      let* qc_y := p_recurse columns_to_use_2 remaining_qubits row_next Pauli.Y in
      let qc := (qc ++ qc_z) ++ qc_y in
      let* qc := emit Undo (gate_cx row row_next) qc in
      let* qc := basis_change_back qc row rec_type in
      match rec_type_next_1, rec_type_next_2 with
      | Pauli.X, Pauli.Y => emit Undo (gate_h row_next) qc
      | Pauli.X, Pauli.Z => emit Undo (gate_v row_next) qc
      | _, _ => ret qc
      end
  end.

Definition simplify_one_p
    (p_recurse : list nat -> list nat -> nat -> Pauli.t -> M (synth_state A) (list (gate A)))
    (columns_to_use remaining_qubits : list nat) (row : nat) (rec_type : Pauli.t)
    (row_next : nat) (rec_type_next : Pauli.t)
  : M (synth_state A) (list (gate A)) :=
  match columns_to_use with
  | [] => ret []
  | _ :: _ =>
      let* qc := basis_change_forward [] row rec_type columns_to_use in
      let* qc := basis_change_forward qc row_next rec_type_next columns_to_use in
      let* qc := emit Forward (gate_cx row row_next) qc in
      propagate (Clifford.CX row row_next) columns_to_use ;;
      let* qc_ := p_recurse columns_to_use remaining_qubits row_next Pauli.Z in
      let qc := qc ++ qc_ in
      let* qc := emit Undo (gate_cx row row_next) qc in
      let* qc := basis_change_back qc row rec_type in
      basis_change_back qc row_next rec_type_next
  end.

(** [[q for q in qubits_to_use if q != row]] *)
Definition without (row : nat) (qubits_to_use : list nat) : list nat :=
  List.filter (fun q => negb (q =? row)) qubits_to_use.

Fixpoint identity_recurse (fuel : nat) (G : NxGraph)
    (columns_to_use qubits_to_use : list nat) {struct fuel}
  : M (synth_state A) (list (gate A)) :=
  match fuel with
  | 0 => out_of_fuel
  | S fuel' =>
      match columns_to_use with
      | [] => ret []
      | _ :: _ =>
          let* qc_diag := update_single_qubits [] qubits_to_use columns_to_use in
          let* qc_diag := update_pair_qubits G qc_diag qubits_to_use columns_to_use in
          let non_cutting :=
            List.filter (fun q => negb (is_cutting q qubits_to_use G)) qubits_to_use in
          let* row := pick_row columns_to_use non_cutting in
          let* (pp_i, pp_x, pp_y, pp_z) :=
            partition_pauli_polynomial row columns_to_use in
          let remaining_qubits := without row qubits_to_use in
          let* qc_i :=
            match remaining_qubits with
            | _ :: _ => identity_recurse fuel' G pp_i remaining_qubits
            | [] => apply_rotation pp_i row Pauli.I
            end in
          let* qc_x := p_recurse fuel' G pp_x remaining_qubits row Pauli.X in
          let* qc_y := p_recurse fuel' G pp_y remaining_qubits row Pauli.Y in
          let* qc_z := p_recurse fuel' G pp_z remaining_qubits row Pauli.Z in
          ret (inverse qc_diag ++ qc_i ++ qc_x ++ qc_y ++ qc_z ++ qc_diag)
      end
  end

with p_recurse (fuel : nat) (G : NxGraph)
    (columns_to_use qubits_to_use : list nat) (row : nat) (rec_type : Pauli.t)
    {struct fuel} : M (synth_state A) (list (gate A)) :=
  match fuel with
  | 0 => out_of_fuel
  | S fuel' =>
      if Pauli.eqb rec_type Pauli.I then raise AssertionError
      else
        match columns_to_use, qubits_to_use with
        | [], _ => ret []
        | _ :: _, [] => apply_rotation columns_to_use row rec_type
        | _ :: _, _ :: _ =>
            let nodes := qubits_to_use ++ [row] in
            let neighbours := neighbors G nodes row in
            match neighbours with
            | [] => raise AssertionError
            | _ :: _ =>
                let qc_diag : list (gate A) := [] in
                let* row_next := pick_row columns_to_use neighbours in
                let* (pp_i, t_pp2_1, tpp2_2, pp2, t_p1, pp1) :=
                  partition_pauli_polynomial_ row_next columns_to_use in
                let remaining_qubits := without row_next qubits_to_use in
                let* qc_i :=
                  if negb (is_cutting row_next nodes G)
                  then identity_recurse fuel' G pp_i (remaining_qubits ++ [row])
                  else check_identity (p_recurse fuel' G) pp_i remaining_qubits
                         row row_next rec_type in
                let* qc_two :=
                  simplify_twp_p (p_recurse fuel' G) pp2 remaining_qubits row rec_type
                    row_next t_pp2_1 tpp2_2 in
                let* qc_one :=
                  simplify_one_p (p_recurse fuel' G) pp1 remaining_qubits row rec_type
                    row_next t_p1 in
                ret (inverse qc_diag ++ qc_i ++ qc_two ++ qc_one ++ qc_diag)
            end
        end
  end.

(** [permutation = {k: k for k in range(n)}] and, at the end,
    [[permutation[i] for i in range(n)]]. *)
Definition identity_dict (n : nat) : gmap nat nat :=
  list_to_map ((fun k => (k, k)) <$> seq 0 n).

Fixpoint dict_values {S} (d : gmap nat nat) (keys : list nat) : M S (list nat) :=
  match keys with
  | [] => ret []
  | i :: keys' =>
      match d !! i with
      | Some v => let* rest := dict_values d keys' in ret (v :: rest)
      | None => raise KeyError
      end
  end.

(** [pauli_polynomial_steiner_gray_nc(pp, topo)]; [num_qubits] is
    [pp.num_qubits], the initial state holds [pp.pauli_gadgets]. *)
Definition pauli_polynomial_steiner_gray_nc (fuel : nat) (num_qubits : nat) (G : NxGraph)
  : M (synth_state A) (list (gate A) * list nat * list nat) :=
  let* s := get in
  let remaining_columns := seq 0 (length (pp_gadgets s)) in
  modify (fun s => mkSynth (pp_gadgets s) [] (trace s)) ;;
  let permutation := identity_dict num_qubits in
  let* circ_out := identity_recurse fuel G remaining_columns (seq 0 num_qubits) in
  let* permutation := dict_values permutation (seq 0 num_qubits) in
  let* s := get in
  ret (circ_out, perm_gadgets s, permutation).

End Synthesis.

(** [PauliPolynomial.propagate(self, gate)] of pauli_polynomial.py: a new
    polynomial of the gadgets [gate.propagate_pauli(gadget)]; the rule
    [propagate_pauli] belongs to the gate classes. *)
Definition PauliPolynomial_propagate {A}
    (propagate_pauli : Clifford.t -> PauliGadget A -> PauliGadget A)
    (gate : Clifford.t) (gadgets : list (PauliGadget A)) : list (PauliGadget A) :=
  map (propagate_pauli gate) gadgets.

(** Calling a Python method with the wrong number of positional arguments
    raises TypeError before its body runs; so does subscripting an object
    whose class defines no [__getitem__]. *)
Definition call_method {X Y} (arity : nat) (body : list X -> result Y) (args : list X)
  : result Y :=
  if length args =? arity then body args else Raise TypeError.

Definition subscript_without_getitem {X} : result X := Raise TypeError.

(** The arguments of a call [pp.propagate(...)]. *)
Inductive argument : Type :=
| arg_gate (g : Clifford.t)
| arg_columns (columns : list nat).

(** *** The collaborators, for concrete runs *)

(** Modelled from the spec: [find_common_paulis] (pauliopt.pauli.synth.uccds)
    is not among the sources.  "every qubit whose column restriction is
    uniformly one Pauli type": the common value of the non-identity entries of
    qubit [q], if they all agree and there is one. *)
Definition spec_find_common_paulis {A} (q : nat) (gadgets : list (PauliGadget A))
  : result (option Pauli.t) :=
  let legs :=
    List.filter (fun p => negb (Pauli.eqb p Pauli.I))
      (omap (fun g => paulis g !! q) gadgets) in
  match legs with
  | [] => Ok None
  | p :: legs' => Ok (if forallb (Pauli.eqb p) legs' then Some p else None)
  end.

(** Modelled from the spec: [is_cutting] (pauliopt.pauli.clifford_tableau) is
    not among the sources.  "Cut vertex: a graph node whose removal
    disconnects the graph": some other node of the subgraph is not reached
    from the first other node once [q] is gone. *)
Fixpoint reach (fuel : nat) (edges : list (nat * nat)) (allowed : list nat)
    (seen : list nat) : list nat :=
  match fuel with
  | 0 => seen
  | S fuel' =>
      let next :=
        List.filter (fun x =>
          negb (bool_decide (x ∈ seen)) &&
          existsb (fun '(a, b) =>
            (bool_decide (a ∈ seen) && (b =? x)) || (bool_decide (b ∈ seen) && (a =? x)))
            edges)
          allowed in
      match next with
      | [] => seen
      | _ :: _ => reach fuel' edges allowed (seen ++ next)
      end
  end.

Definition spec_is_cutting (q : nat) (sub_nodes : list nat) (G : NxGraph) : bool :=
  let others := List.filter (fun x => negb (x =? q)) sub_nodes in
  match others with
  | [] => false
  | start :: _ =>
      let reached := reach (length others) (g_edges G) others [start] in
      negb (forallb (fun x => bool_decide (x ∈ reached)) others)
  end.

(** The polynomial class of pauli_polynomial.py, as the synthesis calls it:
    [propagate] is defined with one parameter ([gate]) and is called with two,
    and the class has no [__getitem__].  The imported functions and the rule
    table of the gates are arguments. *)
Definition source_polynomial_class {A}
    (find_common : nat -> list (PauliGadget A) -> result (option Pauli.t))
    (cutting : nat -> list nat -> NxGraph -> bool)
    (neg : A -> A)
    (propagate_pauli : Clifford.t -> PauliGadget A -> PauliGadget A)
  : Collaborators A :=
  {| find_common_paulis := find_common;
     is_cutting := cutting;
     angle_neg := neg;
     call_propagate gate columns gadgets :=
       call_method 1
         (fun args => match args with
                      | [arg_gate g] => Ok (PauliPolynomial_propagate propagate_pauli g gadgets)
                      | _ => Raise TypeError
                      end)
         [arg_gate gate; arg_columns columns];
     call_getitem _ _ := subscript_without_getitem |}.

(** The rule is never reached through [source_collaborators]: the call
    fails before the body of [propagate] runs. *)
Definition no_rule : Clifford.t -> PauliGadget Z -> PauliGadget Z := fun _ g => g.

Definition source_collaborators : Collaborators Z :=
  source_polynomial_class spec_find_common_paulis spec_is_cutting Z.opp no_rule.

(** An example of a rule table, for a polynomial class whose [propagate]
    takes the columns (as the call sites of steiner_gray_nc.py expect) and
    which can be subscripted: conjugation by H, by V = sqrt(X) and by CX, the
    angle changing sign where the conjugate does. *)
Definition example_rule (gate : Clifford.t) (g : PauliGadget Z) : PauliGadget Z :=
  let at_ q := default Pauli.I (paulis g !! q) in
  match gate with
  | Clifford.H q =>
      match at_ q with
      | Pauli.X => mkGadget (angle g) (<[q := Pauli.Z]> (paulis g))
      | Pauli.Z => mkGadget (angle g) (<[q := Pauli.X]> (paulis g))
      | Pauli.Y => mkGadget (- angle g)%Z (paulis g)
      | Pauli.I => g
      end
  | Clifford.V q =>
      match at_ q with
      | Pauli.Y => mkGadget (- angle g)%Z (<[q := Pauli.Z]> (paulis g))
      | Pauli.Z => mkGadget (angle g) (<[q := Pauli.Y]> (paulis g))
      | _ => g
      end
  | Clifford.CX c t =>
      let '(pc, pt, flip) :=
        match at_ c, at_ t with
        | Pauli.I, Pauli.Y => (Pauli.Z, Pauli.Y, false)
        | Pauli.I, Pauli.Z => (Pauli.Z, Pauli.Z, false)
        | Pauli.X, Pauli.I => (Pauli.X, Pauli.X, false)
        | Pauli.X, Pauli.X => (Pauli.X, Pauli.I, false)
        | Pauli.X, Pauli.Y => (Pauli.Y, Pauli.Z, false)
        | Pauli.X, Pauli.Z => (Pauli.Y, Pauli.Y, true)
        | Pauli.Y, Pauli.I => (Pauli.Y, Pauli.X, false)
        | Pauli.Y, Pauli.X => (Pauli.Y, Pauli.I, false)
        | Pauli.Y, Pauli.Y => (Pauli.X, Pauli.Z, true)
        | Pauli.Y, Pauli.Z => (Pauli.X, Pauli.Y, false)
        | Pauli.Z, Pauli.Y => (Pauli.I, Pauli.Y, false)
        | Pauli.Z, Pauli.Z => (Pauli.I, Pauli.Z, false)
        | pc, pt => (pc, pt, false)
        end in
      mkGadget (if flip then (- angle g)%Z else angle g)
               (<[t := pt]> (<[c := pc]> (paulis g)))
  end.

Definition columns_collaborators : Collaborators Z :=
  {| find_common_paulis := spec_find_common_paulis;
     is_cutting := spec_is_cutting;
     angle_neg := Z.opp;
     call_propagate gate columns gadgets :=
       Ok (imap (fun col g => if bool_decide (col ∈ columns) then example_rule gate g else g)
                gadgets);
     call_getitem gadgets l :=
       match gadgets !! l with
       | Some g => Ok g
       | None => Raise IndexError
       end |}.

(** The Clifford gate a circuit gate propagates as ([vdg] goes with [V], as
    at the call sites); a rotation has none. *)
Definition clifford_of {A} (g : gate A) : option Clifford.t :=
  match g with
  | gate_h q => Some (Clifford.H q)
  | gate_v q | gate_vdg q => Some (Clifford.V q)
  | gate_cx c t => Some (Clifford.CX c t)
  | gate_rz _ _ => None
  end.

(** The gates appended before a recursive call, and the gates propagated,
    both in the order of the log. *)
Definition forward_cliffords {A} (evs : list (event A)) : list Clifford.t :=
  omap (fun e => match e with
                 | Emitted Forward g => clifford_of g
                 | _ => None
                 end) evs.

Definition propagated_cliffords {A} (evs : list (event A)) : list Clifford.t :=
  omap (fun e => match e with
                 | Propagated g _ => Some g
                 | _ => None
                 end) evs.

(** A step that only reads the state. *)
Definition read_only {S X} (c : M S X) : Prop := forall s, snd (c s) = s.

(** The angles of the rotations of a circuit, in order. *)
Definition rz_angles {A} (qc : list (gate A)) : list A :=
  omap (fun g => match g with
                 | gate_rz a _ => Some a
                 | _ => None
                 end) qc.

(** Two inputs for concrete runs: one qubit with an X and a Z gadget, and
    two qubits, the first idle, without an edge between them. *)
Definition one_qubit_input : synth_state Z :=
  mkSynth [mkGadget 1%Z [Pauli.X]; mkGadget 3%Z [Pauli.Z]] [] [].

Definition idle_qubit_input : synth_state Z :=
  mkSynth [mkGadget 1%Z [Pauli.I; Pauli.X]; mkGadget 3%Z [Pauli.I; Pauli.Z];
           mkGadget 5%Z [Pauli.I; Pauli.X]] [] [].

(** A step whose log is balanced: over every run that returns, the gates
    appended before a recursive call are, in order, the gates propagated. *)
Definition balanced {A X} (c : M (synth_state A) X) : Prop :=
  forall s x s', c s = (Ok x, s') ->
    exists evs, trace s' = trace s ++ evs /\
                forward_cliffords evs = propagated_cliffords evs.

(** Two qubits joined by an edge, three gadgets. *)
Definition crossing_input : synth_state Z :=
  mkSynth [mkGadget 1%Z [Pauli.X; Pauli.Z]; mkGadget 3%Z [Pauli.Z; Pauli.Y];
           mkGadget 5%Z [Pauli.Y; Pauli.Y]] [] [].

(** What the synthesis returns on [crossing_input] over the edge [(0, 1)],
    with [columns_collaborators], and the state it leaves. *)
Definition crossing_output : list (gate Z) * list nat * list nat :=
  ([gate_cx 0 1; gate_h 0; gate_rz 1%Z 1; gate_h 0; gate_cx 1 0; gate_rz 5%Z 0;
    gate_v 0; gate_rz (-3)%Z 0; gate_vdg 0; gate_cx 1 0; gate_h 0; gate_h 0;
    gate_cx 0 1],
   [0; 2; 1], [0; 1]).

Definition crossing_final : synth_state Z :=
  mkSynth [mkGadget 1%Z [Pauli.I; Pauli.Z]; mkGadget (-3)%Z [Pauli.Y; Pauli.I];
           mkGadget 5%Z [Pauli.Z; Pauli.I]]
          [0; 2; 1]
          [Propagated (Clifford.H 0) [0; 1; 2]; Emitted Forward (gate_h 0);
           Propagated (Clifford.CX 0 1) [0; 1; 2]; Emitted Forward (gate_cx 0 1);
           Emitted Rotation (gate_rz 1%Z 1);
           Emitted Forward (gate_h 0); Propagated (Clifford.H 0) [2; 1];
           Emitted Forward (gate_cx 1 0); Propagated (Clifford.CX 1 0) [2; 1];
           Emitted Rotation (gate_rz 5%Z 0); Emitted Rotation (gate_v 0);
           Emitted Rotation (gate_rz (-3)%Z 0); Emitted Rotation (gate_vdg 0);
           Emitted Undo (gate_cx 1 0); Emitted Undo (gate_h 0)].

(** ** More of pauli_gadget.py: rows, decomposition, circuits *)

(** A Python list index: a negative [i] counts from the end. *)
Definition py_index (len : nat) (i : Z) : option nat :=
  if (0 <=? i)%Z && (i <? Z.of_nat len)%Z then Some (Z.to_nat i)
  else if (- Z.of_nat len <=? i)%Z && (i <? 0)%Z then Some (Z.to_nat (Z.of_nat len + i))
  else None.

(** [l[a], l[b] = l[b], l[a]]: both items are read ([l[b]] first), then
    [l[a]] and [l[b]] are stored, in this order. *)
Definition swap_items {X} (l : list X) (a b : Z) : result (list X) :=
  match py_index (length l) b, py_index (length l) a with
  | Some ib, Some ia =>
      match l !! ib, l !! ia with
      | Some xb, Some xa => Ok (<[ib := xa]> (<[ia := xb]> l))
      | _, _ => Raise IndexError
      end
  | _, _ => Raise IndexError
  end.

(** [PauliGadget.swap_rows]: the gadget's own list is changed; the result
    is the gadget's new attribute value. *)
Definition swap_rows {A} (self : PauliGadget A) (row1 row2 : Z) : result (PauliGadget A) :=
  let? ps := swap_items (paulis self) row1 row2 in
  Ok (mkGadget (angle self) ps).

(** [PauliGadget.permute]: one swap per item of the dict, in the order of
    the dict (the order of insertion); a dict is the list of its items. *)
Fixpoint permute_loop (items : list (Z * Z)) (ps : list Pauli.t) : result (list Pauli.t) :=
  match items with
  | [] => Ok ps
  | (k, v) :: items' =>
      let? ps := swap_items ps k v in
      permute_loop items' ps
  end.

Definition permute {A} (self : PauliGadget A) (permutation : list (Z * Z))
  : result (PauliGadget A) :=
  let? ps := permute_loop permutation (paulis self) in
  Ok (mkGadget (angle self) ps).

(** [PauliGadget.decompose(q0)], for a qubit index [q0 >= 0]: [H] on every
    X leg and [V] on every Y leg, then a [CX(q, q0)] for every leg [q]
    other than [q0]. *)
Definition basis_cliffords (ps : list Pauli.t) : list Clifford.t :=
  omap (fun '(pauli_idx, p) =>
          match p with
          | Pauli.X => Some (Clifford.H pauli_idx)
          | Pauli.Y => Some (Clifford.V pauli_idx)
          | _ => None
          end)
       (imap pair ps).

Definition leg_cliffords (ps : list Pauli.t) (q0 : nat) : list Clifford.t :=
  omap (fun '(q, p) =>
          if q =? q0 then None
          else if negb (Pauli.eqb p Pauli.I) then Some (Clifford.CX q q0) else None)
       (imap pair ps).

Definition decompose {A} (self : PauliGadget A) (q0 : nat) : list Clifford.t * nat :=
  (basis_cliffords (paulis self) ++ leg_cliffords (paulis self) q0, q0).

(** A [PauliCircuit]: its gates, and what was added to [global_phase]. *)
Record PauliCircuit (A : Type) : Type := mkCircuit {
  circ_gates : list (gate A);
  global_phase : list A;
}.
Arguments mkCircuit {A} _ _.
Arguments circ_gates {A} _.
Arguments global_phase {A} _.

(** The two loops of [to_circuit] over the legs: [h] for X and [v] (before
    the rotation) or [vdg] (after it) for Y. *)
Definition basis_gates {A} (y_gate : nat -> gate A) (ps : list Pauli.t) : list (gate A) :=
  omap (fun '(pauli_idx, p) =>
          match p with
          | Pauli.X => Some (gate_h pauli_idx)
          | Pauli.Y => Some (y_gate pauli_idx)
          | _ => None
          end)
       (imap pair ps).

Definition ladder_gates {A} (cnot_ladder : list (nat * nat)) : list (gate A) :=
  map (fun '(pauli_idx, target) => gate_cx pauli_idx target) cnot_ladder.

(** [PauliGadget.to_circuit(topology)]; without a topology it is
    [Topology.complete(num_qubits)]. *)
Definition to_circuit `{NetworkX} {A} (fuel : nat) (self : PauliGadget A)
    (topology : option Topology) : result (PauliCircuit A) :=
  let topology := default complete_topology topology in
  let column_binary :=
    map (fun p => if Pauli.eqb p Pauli.I then 0%Z else 1%Z) (paulis self) in
  if forallb (fun v => (v =? 0)%Z) column_binary
  then Ok (mkCircuit [] [angle self])
  else
    let? (cnot_ladder, q0) :=
      find_minimal_cx_assignment fuel column_binary topology None in
    let before := basis_gates gate_v (paulis self) in
    let? rotation :=
      match cnot_ladder with
      | _ :: _ =>
          Ok (ladder_gates (rev cnot_ladder) ++ [gate_rz (angle self) q0]
              ++ ladder_gates cnot_ladder)
      | [] =>
          let? target := argmax column_binary in
          Ok [gate_rz (angle self) target]
      end in
    let after := basis_gates gate_vdg (paulis self) in
    Ok (mkCircuit (before ++ rotation ++ after) []).

(** The number of [cx] gates of a circuit. *)
Definition cx_count {A} (qc : list (gate A)) : nat :=
  length (List.filter (fun g => match g with gate_cx _ _ => true | _ => false end) qc).

(** [PauliGadget.two_qubit_count(topology, leg_cache)]: the cache is a dict
    from the string of the 0/1 leg pattern, here the pattern itself, to the
    count stored for it. *)
Definition two_qubit_count_cached `{NetworkX} {A} (fuel : nat) (self : PauliGadget A)
    (topology : Topology) : M (gmap (list Z) nat) nat :=
  let col_binary :=
    map (fun p => if negb (Pauli.eqb p Pauli.I) then 1%Z else 0%Z) (paulis self) in
  let* leg_cache := get in
  match leg_cache !! col_binary with
  | Some cnot_amount => ret cnot_amount
  | None =>
      let* (cnot_ladder, _) :=
        lift (find_minimal_cx_assignment fuel col_binary topology None) in
      let cnot_amount := 2 * length cnot_ladder in
      modify (fun leg_cache => <[col_binary := cnot_amount]> leg_cache) ;;
      ret cnot_amount
  end.

(** [PauliPolynomial.two_qubit_count(topology, leg_cache)], on the gadgets
    of the polynomial. *)
Fixpoint poly_count_loop `{NetworkX} {A} (fuel : nat) (gadgets : list (PauliGadget A))
    (topology : Topology) (count : nat) : M (gmap (list Z) nat) nat :=
  match gadgets with
  | [] => ret count
  | gadget :: gadgets' =>
      let* c := two_qubit_count_cached fuel gadget topology in
      poly_count_loop fuel gadgets' topology (count + c)
  end.

Definition poly_two_qubit_count `{NetworkX} {A} (fuel : nat)
    (gadgets : list (PauliGadget A)) (topology : Topology)
    (leg_cache : option (gmap (list Z) nat)) : result nat :=
  fst (poly_count_loop fuel gadgets topology 0 (default ∅ leg_cache)).

(** The count that belongs to a leg pattern, and a cache that holds only
    such counts. *)
Definition count_of_pattern `{NetworkX} (fuel : nat) (col_binary : list Z)
    (topology : Topology) : result nat :=
  let? (cnot_ladder, _) := find_minimal_cx_assignment fuel col_binary topology None in
  Ok (2 * length cnot_ladder).

Definition cache_holds_counts `{NetworkX} (fuel : nat) (topology : Topology)
    (leg_cache : gmap (list Z) nat) : Prop :=
  forall col_binary n,
    leg_cache !! col_binary = Some n -> count_of_pattern fuel col_binary topology = Ok n.

(** ** More of pauli_polynomial.py: [>>], [swap_gadgets], [clamp] *)

(** [pp >> other] ([__rshift__]):
    [for gadget in other.pauli_gadgets: self.pauli_gadgets.append(gadget)],
    then [return self].  The iterator of a list holds a position; at each
    step it reads the list as it is then, and stops when the position has
    reached its length.  No length is compared, and the gadget objects are
    shared. *)
Fixpoint rshift_loop {A} (fuel : nat) (self other : nat) (position : nat)
  : M (store A) unit :=
  match fuel with
  | 0 => out_of_fuel
  | S fuel' =>
      let* o := read_poly other in
      match pauli_gadgets o !! position with
      | None => ret tt
      | Some gadget =>
          let* p := read_poly self in
          modify (fun s =>
            mkStore (gadget_heap s)
                    (<[self := mkPoly (num_qubits p) (pauli_gadgets p ++ [gadget])]>
                       (poly_heap s))) ;;
          rshift_loop fuel' self other (S position)
      end
  end.

Definition rshift {A} (fuel : nat) (self other : nat) : M (store A) nat :=
  rshift_loop fuel self other 0 ;; ret self.

(** [PauliPolynomial.swap_gadgets(col1, col2)] *)
Definition swap_gadgets {A} (pp : nat) (col1 col2 : Z) : M (store A) unit :=
  let* p := read_poly pp in
  let* gadgets := lift (swap_items (pauli_gadgets p) col1 col2) in
  modify (fun s =>
    mkStore (gadget_heap s) (<[pp := mkPoly (num_qubits p) gadgets]> (poly_heap s))).

(** [clamp(phase)], for a phase that is an exact rational number (a Python
    [int] or [Fraction]); [phase % 2] is the remainder of the floor
    division.  A float phase is outside this model: its [%] rounds. *)
Definition py_mod_two (phase : Q) : Q :=
  (phase - 2 * inject_Z (Qfloor (phase / 2)))%Q.

Definition clamp (phase : Q) : Q :=
  let new_phase := py_mod_two phase in
  if Qlt_le_dec 1 new_phase then (new_phase - 2)%Q else phase.

(** A run that rotates within [columns]: what it appends to
    [perm_gadgets] are columns of [columns], each at most as often as it
    occurs there, and its circuit has one [rz] for each of them. *)
Definition rotates_within {A} (columns : list nat) (s : synth_state A)
    (qc : list (gate A)) (s' : synth_state A) : Prop :=
  exists l, perm_gadgets s' = perm_gadgets s ++ l /\
            l ⊆+ columns /\
            length (rz_angles qc) = length l.

#[global] Instance Pauli_eq_dec : EqDecision Pauli.t.
Proof. solve_decision. Defined.

(** The angles of the gadgets of a list that carry the Pauli list [ps],
    added up with the [+] of the angle type, from [0.0]. *)
Fixpoint total_angle {A} `{AngleOps A} (ps : list Pauli.t) (vs : list (PauliGadget A)) : A :=
  match vs with
  | [] => angle_zero
  | g :: vs' =>
      angle_add (if decide (paulis g = ps) then angle g else angle_zero)
                (total_angle ps vs')
  end.

(** Angles that are Python [int]s: [+] and [!= 0] are exact, and no [int]
    equals the float [2 * np.pi].  The literal [0.0] that a merge leaves
    behind compares equal to [0]; it is removed before anything is added to
    it. *)
Definition PyInt_AngleOps : AngleOps Z := {|
  angle_add := Z.add;
  angle_zero := 0%Z;
  angle_neq_two_pi _ := true;
  angle_neq_zero a := negb (a =? 0)%Z;
|}.

(** One qubit to rotate, and a neighbour to move it to. *)
Definition swap_input : synth_state Z :=
  mkSynth [mkGadget 7%Z [Pauli.X; Pauli.I]] [] [].

(** ** The log of a run, read again *)

Section Replay.
Context {A : Type} `{Collaborators A}.

(** The calls of [pp.propagate] of a log, made again in order, each on the
    columns it was made on, starting from the polynomial [gadgets]. *)
Fixpoint replay (evs : list (event A)) (gadgets : list (PauliGadget A))
  : result (list (PauliGadget A)) :=
  match evs with
  | [] => Ok gadgets
  | Propagated g columns :: evs' =>
      match call_propagate g columns gadgets with
      | Ok gadgets' => replay evs' gadgets'
      | Raise e => Raise e
      | OutOfFuel => OutOfFuel
      end
  | Emitted _ _ :: evs' => replay evs' gadgets
  end.

(** [perm] names the rotations of a log: going through the log from the
    polynomial [gadgets], every [rz] appended has the angle that the gadget
    named by the next entry of [perm] has in the polynomial at that moment
    (after the propagations logged before it), and [perm] has no entry
    beyond these. *)
Fixpoint emitted_rotations (evs : list (event A)) (gadgets : list (PauliGadget A))
    (perm : list nat) : Prop :=
  match evs with
  | [] => perm = []
  | Propagated g columns :: evs' =>
      match call_propagate g columns gadgets with
      | Ok gadgets' => emitted_rotations evs' gadgets' perm
      | _ => False
      end
  | Emitted _ (gate_rz a _) :: evs' =>
      match perm with
      | col :: perm' =>
          angle <$> gadgets !! col = Some a /\ emitted_rotations evs' gadgets perm'
      | [] => False
      end
  | Emitted _ _ :: evs' => emitted_rotations evs' gadgets perm
  end.

End Replay.

(** The angles of the [rz] gates of a log, in the order they were appended. *)
Definition emitted_rz {A} (evs : list (event A)) : list A :=
  omap (fun e => match e with
                 | Emitted _ (gate_rz a _) => Some a
                 | _ => None
                 end) evs.

(** Every call of [pp.propagate] of a log is on columns among [columns],
    none of them more often than it occurs there. *)
Definition propagated_within {A} (columns : list nat) (evs : list (event A)) : Prop :=
  Forall (fun e => match e with
                   | Propagated _ cols => cols ⊆+ columns
                   | Emitted _ _ => True
                   end) evs.

(** A run over [columns] from [s] to [s'] whose log is faithful: the
    polynomial of [s'] is that of [s] after the propagations logged, all of
    them within [columns]; what was appended to [perm_gadgets] names the
    rotations logged; and [rz] are their angles. *)
Definition logs {A} `{Collaborators A} (columns : list nat) (s : synth_state A)
    (rz : list A) (s' : synth_state A) : Prop :=
  exists evs l,
    trace s' = trace s ++ evs /\
    perm_gadgets s' = perm_gadgets s ++ l /\
    replay evs (pp_gadgets s) = Ok (pp_gadgets s') /\
    emitted_rotations evs (pp_gadgets s) l /\
    emitted_rz evs = rz /\
    propagated_within columns evs.

(** The polynomial and the log are in step over a run from [s] to [s']:
    the gates appended before a recursive call are, in order, the gates
    propagated; every propagation is on columns among [columns]; and the
    polynomial of [s'] is that of [s] after exactly the propagations
    logged. *)
Definition in_step {A} `{Collaborators A} (columns : list nat) (s s' : synth_state A)
  : Prop :=
  exists evs,
    trace s' = trace s ++ evs /\
    forward_cliffords evs = propagated_cliffords evs /\
    propagated_within columns evs /\
    replay evs (pp_gadgets s) = Ok (pp_gadgets s').

(** Two qubits joined by an edge, four gadgets; the first has an X where the
    second has a Z. *)
Definition dropping_input : synth_state Z :=
  mkSynth [mkGadget 1%Z [Pauli.Z; Pauli.X]; mkGadget 3%Z [Pauli.Z; Pauli.Z];
           mkGadget 5%Z [Pauli.X; Pauli.X]; mkGadget 7%Z [Pauli.Y; Pauli.Z]] [] [].

(** * Properties *)

(** ** Pauli values *)

Lemma Pauli_eqb_eq p q : Pauli.eqb p q = true <-> p = q.
Proof. destruct p, q; simpl; split; congruence. Qed.

Lemma Pauli_eqb_refl p : Pauli.eqb p p = true.
Proof. by destruct p. Qed.

Lemma Pauli_eqb_sym p q : Pauli.eqb p q = Pauli.eqb q p.
Proof. by destruct p, q. Qed.

Lemma zip_all_eq_refl ps : zip_all_eq ps ps = true.
Proof. induction ps as [|p ps IH]; simpl; [done|]. by rewrite Pauli_eqb_refl. Qed.

Lemma zip_all_eq_eq ps qs :
  length ps = length qs -> zip_all_eq ps qs = true -> ps = qs.
Proof.
  revert qs. induction ps as [|p ps IH]; intros [|q qs] Hlen Hz; simpl in *; try done.
  apply andb_prop in Hz as [Hp%Pauli_eqb_eq Hz]. f_equal; [done|]. apply IH; [lia|done].
Qed.

Lemma mismatchcount_refl ps : mismatchcount ps ps = 0.
Proof.
  induction ps as [|p ps IH]; simpl; [done|].
  by rewrite Pauli_eqb_refl, IH.
Qed.

Lemma mismatchcount_sym ps qs : mismatchcount ps qs = mismatchcount qs ps.
Proof.
  revert qs; induction ps as [|p ps IH]; intros [|q qs]; simpl; try done.
  rewrite IH, (Pauli_eqb_sym p q). by destruct p, q.
Qed.

(** ** The monad *)

Lemma bind_ok {S X Y} (c : M S X) (k : X -> M S Y) s x s' :
  c s = (Ok x, s') -> bind c k s = k x s'.
Proof. unfold bind. by intros ->. Qed.

Lemma bind_raise {S X Y} (c : M S X) (k : X -> M S Y) s e s' :
  c s = (Raise e, s') -> bind c k s = (Raise e, s').
Proof. unfold bind. by intros ->. Qed.

Lemma bind_fuel {S X Y} (c : M S X) (k : X -> M S Y) s s' :
  c s = (OutOfFuel, s') -> bind c k s = (OutOfFuel, s').
Proof. unfold bind. by intros ->. Qed.

Lemma bind_run {S X Y} (c : M S X) (k : X -> M S Y) s r s' :
  c s = (r, s') ->
  bind c k s = match r with
               | Ok x => k x s'
               | Raise e => (Raise e, s')
               | OutOfFuel => (OutOfFuel, s')
               end.
Proof. unfold bind. by intros ->. Qed.

(** ** Simplification: the store program computes the value-level passes *)
Section SimplifySim.
Context {A : Type} `{AngleOps A}.
Implicit Types (s : store A) (vs : list (PauliGadget A)) (refs : list nat).

Lemma denotes_lookup s refs vs i r :
  denotes s refs vs -> refs !! i = Some r ->
  exists g, vs !! i = Some g /\ gadget_heap s !! r = Some g.
Proof.
  intros [HF _] Hr. destruct (Forall2_lookup_l _ _ _ _ _ HF Hr) as (g & ? & ?). eauto.
Qed.

Lemma denotes_lookup_None s refs vs i :
  denotes s refs vs -> refs !! i = None -> vs !! i = None.
Proof.
  intros [HF _] Hr. apply lookup_ge_None. apply lookup_ge_None in Hr.
  by rewrite <- (Forall2_length _ _ _ HF).
Qed.

Lemma denotes_length s refs vs : denotes s refs vs -> length refs = length vs.
Proof. intros [HF _]. by apply Forall2_length in HF. Qed.

Lemma changed_only_refl refs s : changed_only refs s s.
Proof. by repeat split. Qed.

Lemma changed_only_trans refs s1 s2 s3 :
  changed_only refs s1 s2 -> changed_only refs s2 s3 -> changed_only refs s1 s3.
Proof.
  intros (?&?&Ha) (?&?&Hb). repeat split; [congruence..|].
  intros r Hr. rewrite Hb, Ha; done.
Qed.

Lemma read_gadget_ok s r g :
  gadget_heap s !! r = Some g -> read_gadget r s = (Ok g, s).
Proof. unfold read_gadget. by intros ->. Qed.

Lemma getitem_ok {S X} (l : list X) i x (st : S) :
  l !! i = Some x -> getitem l i st = (Ok x, st).
Proof. unfold getitem. by intros ->. Qed.

Lemma getitem_None {S X} (l : list X) i (st : S) :
  l !! i = None -> getitem (A:=X) l i st = (Raise IndexError, st).
Proof. unfold getitem. by intros ->. Qed.

Lemma remove_sim s refs vs :
  denotes s refs vs ->
  exists refs',
    remove_collapsed_pauli_gadegts refs s = (Ok refs', s) /\
    denotes s refs' (remove_collapsed_v vs) /\ refs' ⊆ refs.
Proof.
  intros [HF HN]. induction HF as [|r g refs vs Hr HF IH]; simpl.
  - exists []. repeat split; [constructor|constructor|done].
  - apply NoDup_cons in HN as [Hnin HN].
    destruct (IH HN) as (refs' & Hrun & [HF' HN'] & Hsub).
    rewrite (bind_ok _ _ _ _ _ (read_gadget_ok _ _ _ Hr)).
    rewrite (bind_ok _ _ _ _ _ Hrun). unfold ret.
    destruct (not_collapsed (angle g)).
    + exists (r :: refs'). repeat split.
      * by constructor.
      * apply NoDup_cons. split; [|done]. intros Hin. apply Hnin. by apply Hsub.
      * intros x [->|Hx]%elem_of_cons; [left|right; by apply Hsub].
    + exists refs'. repeat split; [done|done|].
      intros x Hx. right. by apply Hsub.
Qed.

Lemma find_right_loop_sim s gadget idx k tail tail_v :
  Forall2 (fun r g => gadget_heap s !! r = Some g) tail tail_v ->
  find_right_loop gadget idx k tail s = (Ok (find_right_v gadget idx k tail_v), s).
Proof.
  intros HF. revert k. induction HF as [|r g tail tail_v Hr HF IH]; intros k; simpl.
  - done.
  - rewrite (bind_ok _ _ _ _ _ (read_gadget_ok _ _ _ Hr)).
    destruct (zip_all_eq _ _); [done|apply IH].
Qed.

Lemma find_sim s refs vs idx :
  denotes s refs vs ->
  find_machting_parity_right idx refs s = (find_machting_parity_right_v idx vs, s).
Proof.
  intros Hd. unfold find_machting_parity_right, find_machting_parity_right_v.
  destruct (refs !! idx) as [r|] eqn:Hr.
  - destruct (denotes_lookup _ _ _ _ _ Hd Hr) as (g & -> & Hg).
    rewrite (bind_ok _ _ _ _ _ (getitem_ok _ _ _ _ Hr)).
    rewrite (bind_ok _ _ _ _ _ (read_gadget_ok _ _ _ Hg)).
    apply find_right_loop_sim. destruct Hd as [HF _]. by apply Forall2_drop.
  - rewrite (denotes_lookup_None _ _ _ _ Hd Hr).
    by rewrite (bind_raise _ _ _ _ _ (getitem_None _ _ _ Hr)).
Qed.

Lemma commuting_loop_sim s refs vs idx ks :
  denotes s refs vs ->
  commuting_loop idx ks refs s = (commuting_loop_v idx ks vs, s).
Proof.
  intros Hd. induction ks as [|k ks IH]; simpl; [done|].
  destruct (refs !! idx) as [r|] eqn:Hr.
  2:{ rewrite (denotes_lookup_None _ _ _ _ Hd Hr).
      by rewrite (bind_raise _ _ _ _ _ (getitem_None _ _ _ Hr)). }
  destruct (denotes_lookup _ _ _ _ _ Hd Hr) as (g & -> & Hg).
  rewrite (bind_ok _ _ _ _ _ (getitem_ok _ _ _ _ Hr)).
  rewrite (bind_ok _ _ _ _ _ (read_gadget_ok _ _ _ Hg)).
  destruct (refs !! k) as [rk|] eqn:Hrk.
  2:{ rewrite (denotes_lookup_None _ _ _ _ Hd Hrk).
      by rewrite (bind_raise _ _ _ _ _ (getitem_None _ _ _ Hrk)). }
  destruct (denotes_lookup _ _ _ _ _ Hd Hrk) as (gk & -> & Hgk).
  rewrite (bind_ok _ _ _ _ _ (getitem_ok _ _ _ _ Hrk)).
  rewrite (bind_ok _ _ _ _ _ (read_gadget_ok _ _ _ Hgk)).
  unfold bind at 1, lift. destruct (commutes g gk) as [c| |]; [|done..].
  destruct c; simpl; [apply IH|done].
Qed.

Lemma denotes_set s refs vs i r g a :
  denotes s refs vs -> refs !! i = Some r -> vs !! i = Some g ->
  exists s',
    set_angle r a s = (Ok tt, s') /\
    denotes s' refs (<[i := mkGadget a (paulis g)]> vs) /\
    changed_only refs s s'.
Proof.
  intros Hd Hr Hg.
  destruct (denotes_lookup _ _ _ _ _ Hd Hr) as (g' & Hg' & Hh).
  assert (g' = g) as -> by congruence.
  unfold set_angle. rewrite Hh. eexists. split; [done|].
  destruct Hd as [HF HN]. split; [split; [|done]|].
  - simpl. apply Forall2_same_length_lookup. split.
    { rewrite length_insert. by apply Forall2_length in HF. }
    intros j r' g'' Hr' Hg''.
    destruct (decide (i = j)) as [->|Hne].
    + assert (r' = r) as -> by congruence.
      rewrite list_lookup_insert_eq in Hg'' by (by eapply lookup_lt_Some).
      rewrite list_lookup_insert_eq by (by eapply lookup_lt_Some). done.
    + rewrite list_lookup_insert_ne in Hg'' by done.
      rewrite list_lookup_insert_ne.
      * exact (Forall2_lookup_lr _ _ _ _ _ _ HF Hr' Hg'').
      * intros ->. apply Hne. by eapply NoDup_lookup.
  - repeat split; simpl; [by rewrite length_insert|].
    intros r' Hr'. apply list_lookup_insert_ne. intros ->.
    apply Hr'. by eapply list_elem_of_lookup_2.
Qed.

(** What a store run and a value-level result have to do with each other:
    the same outcome, and on success the references denote the new values. *)
Definition agrees {X} (run : result X * store A) (refs : list nat)
    (v : result (X * list (PauliGadget A))) : Prop :=
  match v with
  | Ok (x, vs') => fst run = Ok x /\ denotes (snd run) refs vs'
  | Raise e => fst run = Raise e
  | OutOfFuel => fst run = OutOfFuel
  end.

Lemma step_sim s refs vs idx :
  denotes s refs vs ->
  changed_only refs s (snd (propagate_step idx refs s)) /\
  agrees (propagate_step idx refs s) refs (propagate_step_v idx vs).
Proof.
  intros Hd. unfold propagate_step, propagate_step_v.
  destruct (refs !! idx) as [gadget|] eqn:Hidx.
  2:{ rewrite (bind_raise _ _ _ _ _ (getitem_None _ _ _ Hidx)).
      unfold find_machting_parity_right_v.
      rewrite (denotes_lookup_None _ _ _ _ Hd Hidx). split; [apply changed_only_refl|done]. }
  rewrite (bind_ok _ _ _ _ _ (getitem_ok _ _ _ _ Hidx)).
  rewrite (bind_run _ _ _ _ _ (find_sim _ _ _ _ Hd)).
  destruct (find_machting_parity_right_v idx vs) as [[idx_right|]| |];
    try (split; [apply changed_only_refl|done]).
  unfold is_commuting_region, is_commuting_region_v.
  rewrite (bind_run _ _ _ _ _ (commuting_loop_sim _ _ _ _ _ Hd)).
  destruct (commuting_loop_v _ _ _) as [c| |];
    try (split; [apply changed_only_refl|done]).
  destruct c; simpl; [|split; [apply changed_only_refl|done]].
  destruct (refs !! idx_right) as [r|] eqn:Hr.
  2:{ rewrite (bind_raise _ _ _ _ _ (getitem_None _ _ _ Hr)).
      rewrite (denotes_lookup_None _ _ _ _ Hd Hr). split; [apply changed_only_refl|done]. }
  destruct (denotes_lookup _ _ _ _ _ Hd Hr) as (g_right & Hvr & Hgr).
  destruct (denotes_lookup _ _ _ _ _ Hd Hidx) as (g_left & Hvl & Hgl).
  rewrite (bind_ok _ _ _ _ _ (getitem_ok _ _ _ _ Hr)).
  rewrite (bind_ok _ _ _ _ _ (read_gadget_ok _ _ _ Hgr)).
  rewrite (bind_ok _ _ _ _ _ (read_gadget_ok _ _ _ Hgl)).
  destruct (denotes_set _ _ _ _ _ _ (angle_add (angle g_right) (angle g_left)) Hd Hr Hvr)
    as (s1 & Hset1 & Hd1 & Hc1).
  rewrite (bind_ok _ _ _ _ _ Hset1).
  rewrite (bind_ok _ _ _ _ _ (getitem_ok _ _ _ _ Hidx)).
  assert (exists l, <[idx_right := mkGadget (angle_add (angle g_right) (angle g_left))
                                     (paulis g_right)]> vs !! idx = Some l) as [l Hl].
  { apply lookup_lt_is_Some. rewrite length_insert. by eapply lookup_lt_Some. }
  destruct (denotes_set _ _ _ _ _ _ angle_zero Hd1 Hidx Hl) as (s2 & Hset2 & Hd2 & Hc2).
  rewrite (bind_ok _ _ _ _ _ Hset2). unfold ret; simpl.
  split; [by eapply changed_only_trans|].
  rewrite Hvr. simpl. split; [done|].
  unfold merge_v. by rewrite Hvl, Hvr, Hl.
Qed.

Lemma propagate_loop_sim s refs vs idxs converged :
  denotes s refs vs ->
  changed_only refs s (snd (propagate_loop idxs refs converged s)) /\
  agrees (propagate_loop idxs refs converged s) refs (propagate_loop_v idxs vs converged).
Proof.
  revert s vs converged. induction idxs as [|idx idxs IH]; intros s vs converged Hd; simpl.
  - split; [apply changed_only_refl|done].
  - destruct (step_sim s refs vs idx Hd) as [Hc Ha].
    unfold bind. destruct (propagate_step idx refs s) as [[merged| |] s1];
      destruct (propagate_step_v idx vs) as [[b vs1]| |]; simpl in *;
      try done; try (destruct Ha; done).
    destruct Ha as [[= ->] Hd1].
    destruct (IH s1 vs1 (if b then false else converged) Hd1) as [Hc' Ha'].
    split; [by eapply changed_only_trans|done].
Qed.

Lemma simplify_loop_sim fuel s refs vs :
  denotes s refs vs ->
  changed_only refs s (snd (simplify_loop fuel refs s)) /\
  match simplify_loop_v fuel vs with
  | Ok vs' => exists refs', fst (simplify_loop fuel refs s) = Ok refs' /\
                denotes (snd (simplify_loop fuel refs s)) refs' vs' /\ refs' ⊆ refs
  | Raise e => fst (simplify_loop fuel refs s) = Raise e
  | OutOfFuel => fst (simplify_loop fuel refs s) = OutOfFuel
  end.
Proof.
  revert s refs vs. induction fuel as [|fuel IH]; intros s refs vs Hd; simpl.
  - split; [apply changed_only_refl|done].
  - destruct (remove_sim s refs vs Hd) as (refs1 & Hrun & Hd1 & Hsub).
    rewrite (bind_ok _ _ _ _ _ Hrun).
    assert (forall s', changed_only refs1 s s' -> changed_only refs s s') as Hmono.
    { intros s' (?&?&Hx). repeat split; [done..|].
      intros r Hr. apply Hx. intros Hin. apply Hr. by apply Hsub. }
    unfold propagate_phase_gadegts, propagate_phase_gadegts_v.
    rewrite (denotes_length _ _ _ Hd1).
    destruct (propagate_loop_sim s refs1 (remove_collapsed_v vs)
                (seq 0 (length (remove_collapsed_v vs))) true Hd1) as [Hc Ha].
    unfold bind.
    destruct (propagate_loop _ refs1 true s) as [[converged| |] s1];
      destruct (propagate_loop_v _ _ true) as [[b vs1]| |]; simpl in *;
      try done; try (destruct Ha; done);
      try (split; [by apply Hmono|congruence]).
    destruct Ha as [[= ->] Hd2]. destruct b.
    + unfold ret; simpl. split; [by apply Hmono|]. by exists refs1.
    + destruct (IH s1 refs1 vs1 Hd2) as [Hc' Ha'].
      split.
      * apply Hmono. by eapply changed_only_trans.
      * destruct (simplify_loop_v fuel vs1); try done.
        destruct Ha' as (refs' & ? & ? & Hsub'). exists refs'.
        split; [done|]. split; [done|].
        intros x Hx. by apply Hsub, Hsub'.
Qed.

Lemma copy_all_ok s gs vs :
  Forall2 (fun r g => gadget_heap s !! r = Some g) gs vs ->
  copy_all gs s = (Ok (seq (length (gadget_heap s)) (length gs)),
                   mkStore (gadget_heap s ++ vs) (poly_heap s)).
Proof.
  intros HF. revert s vs HF. induction gs as [|r gs IH]; intros s vs HF.
  - apply Forall2_nil_inv_l in HF as ->. simpl. unfold ret.
    rewrite app_nil_r. by destruct s.
  - apply Forall2_cons_inv_l in HF as (g & vs' & Hr & HF & ->). simpl.
    assert (gadget_copy r s
            = (Ok (length (gadget_heap s)),
               mkStore (gadget_heap s ++ [g]) (poly_heap s))) as Hcopy.
    { unfold gadget_copy. rewrite (bind_ok _ _ _ _ _ (read_gadget_ok _ _ _ Hr)).
      unfold new_gadget. by destruct g. }
    rewrite (bind_ok _ _ _ _ _ Hcopy).
    erewrite bind_ok; [|apply (IH _ vs')]; simpl.
    + unfold ret. rewrite length_app; simpl. rewrite Nat.add_1_r.
      by rewrite <- app_assoc.
    + eapply Forall2_impl; [exact HF|]. intros r' g' Hr'. simpl.
      by apply lookup_app_l_Some.
Qed.

Lemma irshift_run s pp n acc r g :
  poly_heap s !! pp = Some (mkPoly n acc) ->
  gadget_heap s !! r = Some g ->
  irshift pp r s =
  if length (paulis g) =? n
  then (Ok tt, mkStore (gadget_heap s) (<[pp := mkPoly n (acc ++ [r])]> (poly_heap s)))
  else (Raise PolynomialSizeMismatch, s).
Proof.
  intros Hp Hr. unfold irshift, read_poly. unfold bind at 1. rewrite Hp.
  rewrite (bind_ok _ _ _ _ _ (read_gadget_ok _ _ _ Hr)). simpl.
  by destruct (length (paulis g) =? n).
Qed.

Lemma irshift_loop s pp n acc refs vs :
  poly_heap s !! pp = Some (mkPoly n acc) ->
  Forall2 (fun r g => gadget_heap s !! r = Some g) refs vs ->
  exists s' acc',
    gadget_heap s' = gadget_heap s /\
    poly_heap s' = <[pp := mkPoly n acc']> (poly_heap s) /\
    if all_of_size n vs
    then for_each refs (fun gadget => irshift pp gadget) s = (Ok tt, s') /\ acc' = acc ++ refs
    else for_each refs (fun gadget => irshift pp gadget) s
         = (Raise PolynomialSizeMismatch, s').
Proof.
  intros Hp HF. revert s acc Hp HF. revert vs.
  induction refs as [|r refs IH]; intros vs s acc Hp HF.
  - apply Forall2_nil_inv_l in HF as ->. exists s, acc. simpl.
    rewrite app_nil_r. split; [done|]. split; [by rewrite list_insert_id|done].
  - apply Forall2_cons_inv_l in HF as (g & vs' & Hr & HF & ->). simpl.
    pose proof (irshift_run s pp n acc r g Hp Hr) as Hone.
    destruct (length (paulis g) =? n) eqn:Hlen; simpl.
    + set (s1 := mkStore (gadget_heap s)
                   (<[pp := mkPoly n (acc ++ [r])]> (poly_heap s))) in *.
      destruct (IH vs' s1 (acc ++ [r])) as (s' & acc' & Hg & Hpp & Hrun).
      { simpl. apply list_lookup_insert_eq. by eapply lookup_lt_Some. }
      { done. }
      exists s', acc'. simpl in Hg, Hpp. rewrite list_insert_insert_eq in Hpp.
      split; [done|]. split; [done|].
      rewrite (bind_ok _ _ _ _ _ Hone).
      destruct (all_of_size n vs'); [|done].
      destruct Hrun as [-> ->]. by rewrite <- app_assoc.
    + exists s, acc. rewrite (bind_raise _ _ _ _ _ Hone). split; [done|].
      split; [by rewrite list_insert_id|done].
Qed.

(** The store program refines the value-level simplification; every object
    that existed before the call is left as it was. *)
Theorem simplify_sim fuel s pp p vs :
  poly_heap s !! pp = Some p ->
  Forall2 (fun r g => gadget_heap s !! r = Some g) (pauli_gadgets p) vs ->
  preserved s (snd (simplify_pauli_polynomial fuel pp s)) /\
  match simplify_v fuel (num_qubits p) vs with
  | Ok vs' =>
      fst (simplify_pauli_polynomial fuel pp s) = Ok (length (poly_heap s)) /\
      poly_value (snd (simplify_pauli_polynomial fuel pp s)) (length (poly_heap s))
      = Some (num_qubits p, vs') /\
      exists refs',
        poly_heap (snd (simplify_pauli_polynomial fuel pp s)) !! length (poly_heap s)
        = Some (mkPoly (num_qubits p) refs') /\
        Forall (fun r => length (gadget_heap s) <= r) refs'
  | Raise e => fst (simplify_pauli_polynomial fuel pp s) = Raise e
  | OutOfFuel => fst (simplify_pauli_polynomial fuel pp s) = OutOfFuel
  end.
Proof.
  intros Hp HF. unfold simplify_pauli_polynomial, simplify_v.
  assert (read_poly pp s = (Ok p, s)) as Hread by (unfold read_poly; by rewrite Hp).
  rewrite (bind_ok _ _ _ _ _ Hread).
  rewrite (bind_ok _ _ _ _ _ (copy_all_ok _ _ _ HF)).
  set (s1 := mkStore (gadget_heap s ++ vs) (poly_heap s)).
  set (refs := seq (length (gadget_heap s)) (length (pauli_gadgets p))).
  assert (denotes s1 refs vs) as Hd.
  { split; [|apply NoDup_seq].
    apply Forall2_same_length_lookup. split.
    { unfold refs. rewrite length_seq. by apply Forall2_length in HF. }
    intros i r g Hr Hg. apply lookup_seq in Hr as [-> _]. simpl.
    by rewrite lookup_app_r, Nat.add_comm, Nat.add_sub by lia. }
  assert (forall s2, changed_only refs s1 s2 -> preserved s s2 /\
            poly_heap s2 = poly_heap s) as Hpres.
  { intros s2 (Hpo & Hlen & Hch). split; [split|done].
    - intros r g Hr. rewrite Hch.
      + simpl. by apply lookup_app_l_Some.
      + intros [? _]%elem_of_seq. apply lookup_lt_Some in Hr. lia.
    - intros q qq Hq. by rewrite Hpo. }
  destruct (simplify_loop_sim fuel s1 refs vs Hd) as [Hc Ha].
  destruct (simplify_loop fuel refs s1) as [r s2] eqn:Hloop.
  rewrite (bind_run _ _ _ _ _ Hloop). simpl in Hc, Ha.
  destruct (Hpres s2 Hc) as [[Hpg Hpp] Hpo].
  destruct (simplify_loop_v fuel vs) as [vs'| |]; simpl in *.
  2,3: subst r; by split.
  destruct Ha as (refs' & -> & [HF' HN'] & Hsub).
  set (s3 := mkStore (gadget_heap s2) (poly_heap s2 ++ [mkPoly (num_qubits p) []])).
  assert (new_poly (num_qubits p) s2 = (Ok (length (poly_heap s)), s3)) as Hnew.
  { unfold new_poly, s3. by rewrite Hpo. }
  rewrite (bind_ok _ _ _ _ _ Hnew).
  destruct (irshift_loop s3 (length (poly_heap s)) (num_qubits p) [] refs' vs')
    as (s4 & acc' & Hg4 & Hp4 & Hrun).
  { simpl. rewrite Hpo. rewrite lookup_app_r, Nat.sub_diag by lia. done. }
  { done. }
  simpl in Hg4, Hp4. rewrite Hpo in *.
  assert (preserved s s4) as Hpres4.
  { split.
    - intros r g Hr. rewrite Hg4. by apply Hpg.
    - intros q qq Hq. rewrite Hp4. rewrite list_lookup_insert_ne.
      + by apply lookup_app_l_Some.
      + apply lookup_lt_Some in Hq. lia. }
  destruct (all_of_size (num_qubits p) vs').
  - destruct Hrun as [Hrun ->]. rewrite (bind_ok _ _ _ _ _ Hrun). unfold ret; simpl.
    split; [done|]. split; [done|].
    assert (poly_heap s4 !! length (poly_heap s) = Some (mkPoly (num_qubits p) refs'))
      as Hnewp.
    { rewrite Hp4. by rewrite list_lookup_insert_eq by (rewrite length_app; simpl; lia). }
    split.
    + unfold poly_value. rewrite Hnewp. simpl.
      unfold gadget_values. rewrite Hg4.
      assert (mapM (fun r => gadget_heap s2 !! r) refs' = Some vs') as ->; [|done].
      by apply mapM_Some.
    + exists refs'. split; [done|]. apply Forall_forall. intros r Hr.
      apply Hsub in Hr. by apply elem_of_seq in Hr as [? _].
  - rewrite (bind_raise _ _ _ _ _ Hrun). simpl. done.
Qed.

Lemma poly_value_inv s pp n vs :
  poly_value s pp = Some (n, vs) ->
  exists p, poly_heap s !! pp = Some p /\ num_qubits p = n /\
    Forall2 (fun r g => gadget_heap s !! r = Some g) (pauli_gadgets p) vs.
Proof.
  unfold poly_value, gadget_values. intros Hv.
  destruct (poly_heap s !! pp) as [p|]; [|done].
  destruct (mapM _ _) as [gs|] eqn:Hm; [|done].
  injection Hv as <- <-. exists p. repeat split. by apply mapM_Some.
Qed.

End SimplifySim.

(** ** Simplification on values: what a finished run looks like *)
Section SimplifyValues.
Context {A : Type} `{AngleOps A}.
Implicit Types (vs : list (PauliGadget A)).

Lemma remove_collapsed_v_idem vs :
  remove_collapsed_v (remove_collapsed_v vs) = remove_collapsed_v vs.
Proof.
  unfold remove_collapsed_v. induction vs as [|g vs IH]; simpl; [done|].
  destruct (not_collapsed (angle g)) eqn:Hg; simpl; [|done]. by rewrite Hg, IH.
Qed.

Lemma remove_collapsed_v_fixed vs :
  remove_collapsed_v vs = vs <-> Forall (fun g => not_collapsed (angle g) = true) vs.
Proof.
  unfold remove_collapsed_v. split.
  - intros Heq. rewrite <- Heq. apply Forall_forall. intros g Hg.
    apply list_elem_of_In, filter_In in Hg. tauto.
  - induction 1 as [|g vs Hg _ IH]; simpl; [done|]. by rewrite Hg, IH.
Qed.

(** A step that merges nothing leaves the values as they are. *)
Lemma propagate_step_v_false idx vs vs' :
  propagate_step_v idx vs = Ok (false, vs') -> vs' = vs.
Proof.
  unfold propagate_step_v. intros Hs.
  destruct (find_machting_parity_right_v idx vs) as [[r|]| |]; try done.
  - destruct (is_commuting_region_v idx r vs) as [[|]| |]; simpl in Hs; try done.
    + destruct (vs !! r); done.
    + congruence.
  - congruence.
Qed.

(** A pass that reports convergence merged nothing. *)
Lemma propagate_loop_v_converged idxs vs converged vs' :
  propagate_loop_v idxs vs converged = Ok (true, vs') ->
  vs' = vs /\ converged = true /\
  Forall (fun idx => propagate_step_v idx vs = Ok (false, vs)) idxs.
Proof.
  revert vs converged. induction idxs as [|idx idxs IH]; intros vs converged; simpl.
  - intros [= -> ->]. by repeat split.
  - destruct (propagate_step_v idx vs) as [[merged vs1]| |] eqn:Hs; try done.
    intros Hl. apply IH in Hl as (-> & Hc & HF). destruct merged; [done|].
    apply propagate_step_v_false in Hs as Heq. subst vs1.
    repeat split; [done|]. by constructor.
Qed.

Lemma propagate_loop_v_replay idxs vs :
  Forall (fun idx => propagate_step_v idx vs = Ok (false, vs)) idxs ->
  propagate_loop_v idxs vs true = Ok (true, vs).
Proof. induction 1 as [|idx idxs Hs _ IH]; simpl; [done|]. by rewrite Hs. Qed.

(** The list a finished loop returns has no collapsed gadget, and a further
    pass over it merges nothing. *)
Lemma simplify_loop_v_final fuel vs vs' :
  simplify_loop_v fuel vs = Ok vs' ->
  remove_collapsed_v vs' = vs' /\
  propagate_phase_gadegts_v vs' = Ok (true, vs').
Proof.
  revert vs. induction fuel as [|fuel IH]; intros vs; simpl; [done|].
  destruct (propagate_phase_gadegts_v (remove_collapsed_v vs))
    as [[converged vs1]| |] eqn:Hp; try done.
  destruct converged; [|apply IH].
  intros [= <-]. unfold propagate_phase_gadegts_v in Hp.
  pose proof Hp as Hp'.
  apply propagate_loop_v_converged in Hp' as (-> & _ & HF).
  split; [apply remove_collapsed_v_idem|done].
Qed.

Lemma simplify_loop_v_idempotent fuel fuel' vs vs' :
  simplify_loop_v fuel vs = Ok vs' ->
  simplify_loop_v (S fuel') vs' = Ok vs'.
Proof.
  intros [Hr Hp]%simplify_loop_v_final. simpl. by rewrite Hr, Hp.
Qed.

Lemma simplify_v_idempotent fuel fuel' n vs vs' :
  simplify_v fuel n vs = Ok vs' ->
  simplify_v (S fuel') n vs' = Ok vs'.
Proof.
  unfold simplify_v. destruct (simplify_loop_v fuel vs) as [vs1| |] eqn:Hl; try done.
  destruct (all_of_size n vs1) eqn:Hsz; [|done]. intros [= <-].
  by rewrite (simplify_loop_v_idempotent _ fuel' _ _ Hl), Hsz.
Qed.

Lemma simplify_v_not_collapsed fuel n vs vs' :
  simplify_v fuel n vs = Ok vs' ->
  Forall (fun g => not_collapsed (angle g) = true) vs'.
Proof.
  unfold simplify_v. destruct (simplify_loop_v fuel vs) as [vs1| |] eqn:Hl; try done.
  destruct (all_of_size n vs1); [|done]. intros [= <-].
  apply remove_collapsed_v_fixed. by apply simplify_loop_v_final in Hl as [? _].
Qed.

End SimplifyValues.

(** ** Simplification: the properties of [simplify_pauli_polynomial] *)
Section SimplifyClaims.
Context {A : Type} `{AngleOps A}.
Implicit Types (s : store A) (vs : list (PauliGadget A)).

Lemma find_right_v_None (gadget : PauliGadget A) idx k tail :
  forallb (fun g' => negb (zip_all_eq (paulis gadget) (paulis g'))) tail = true ->
  find_right_v gadget idx k tail = None.
Proof.
  revert k. induction tail as [|g' tail IH]; intros k; simpl; [done|].
  intros [Hg Ht]%andb_prop. apply negb_true_iff in Hg. rewrite Hg. by apply IH.
Qed.

Lemma distinct_strings_lookup vs idx g :
  distinct_strings vs = true -> vs !! idx = Some g ->
  forallb (fun g' => negb (zip_all_eq (paulis g) (paulis g'))) (drop (S idx) vs) = true.
Proof.
  revert idx. induction vs as [|g0 vs IH]; intros idx; simpl; [done|].
  intros [Hg Hd]%andb_prop. destruct idx as [|idx]; simpl.
  - intros [= <-]. by rewrite drop_0.
  - intros Hl. by apply IH.
Qed.

Lemma distinct_strings_filter (f : PauliGadget A -> bool) vs :
  distinct_strings vs = true -> distinct_strings (List.filter f vs) = true.
Proof.
  induction vs as [|g vs IH]; simpl; [done|].
  intros [Hg Hd]%andb_prop. specialize (IH Hd).
  destruct (f g); simpl; [|done]. rewrite IH, andb_true_r.
  apply forallb_forall. intros g' [Hin _]%filter_In.
  by eapply forallb_forall in Hg.
Qed.

Lemma distinct_strings_converged vs :
  distinct_strings vs = true ->
  propagate_phase_gadegts_v vs = Ok (true, vs).
Proof.
  intros Hd. unfold propagate_phase_gadegts_v.
  apply propagate_loop_v_replay. apply Forall_forall.
  intros idx [_ Hidx]%elem_of_seq. simpl in Hidx.
  unfold propagate_step_v, find_machting_parity_right_v.
  destruct (lookup_lt_is_Some_2 vs idx Hidx) as [g Hg]. rewrite Hg.
  by rewrite (find_right_v_None _ _ _ _ (distinct_strings_lookup _ _ _ Hd Hg)).
Qed.

(** A successful run, read through [simplify_sim]. *)
Lemma simplify_ok_inv fuel s pp n vs pp1 s1 :
  poly_value s pp = Some (n, vs) ->
  simplify_pauli_polynomial fuel pp s = (Ok pp1, s1) ->
  exists vs' refs',
    simplify_v fuel n vs = Ok vs' /\ pp1 = length (poly_heap s) /\
    poly_value s1 pp1 = Some (n, vs') /\
    poly_heap s1 !! pp1 = Some (mkPoly n refs') /\
    Forall (fun r => length (gadget_heap s) <= r) refs' /\
    preserved s s1.
Proof.
  intros (p & Hp & <- & HF)%poly_value_inv Hrun.
  destruct (simplify_sim fuel s pp p vs Hp HF) as [Hpres Hm].
  rewrite Hrun in Hpres, Hm. simpl in *.
  destruct (simplify_v fuel (num_qubits p) vs) as [vs'| |]; try done.
  destruct Hm as ([= ->] & Hv & refs' & Hp1 & Hfresh).
  by exists vs', refs'.
Qed.

(** C6 — [simplify_pauli_polynomial] is idempotent: when a call on a
    polynomial returns a polynomial, a second call on that result returns a
    polynomial with the same gadget sequence, Pauli strings and angles in the
    same order. *)
Theorem simplify_pauli_polynomial_idempotent fuel fuel' s pp n vs pp1 s1 :
  poly_value s pp = Some (n, vs) ->
  simplify_pauli_polynomial fuel pp s = (Ok pp1, s1) ->
  exists vs' pp2 s2,
    poly_value s1 pp1 = Some (n, vs') /\
    simplify_pauli_polynomial (S fuel') pp1 s1 = (Ok pp2, s2) /\
    poly_value s2 pp2 = Some (n, vs').
Proof.
  intros Hv Hrun.
  destruct (simplify_ok_inv _ _ _ _ _ _ _ Hv Hrun)
    as (vs' & refs' & Hsv & -> & Hv1 & _).
  pose proof Hv1 as (p1 & Hp1 & Hn & HF1)%poly_value_inv.
  destruct (simplify_sim (S fuel') s1 _ p1 vs' Hp1 HF1) as [_ Hm].
  rewrite Hn, (simplify_v_idempotent _ fuel' _ _ _ Hsv) in Hm.
  destruct Hm as (Hfst & Hv2 & _).
  destruct (simplify_pauli_polynomial (S fuel') (length (poly_heap s)) s1)
    as [r2 s2] eqn:Hrun2. simpl in *. subst r2.
  by exists vs', (length (poly_heap s1)), s2.
Qed.

(** C10 — [simplify_pauli_polynomial] does not modify its input: after the
    call (whatever its outcome) the input polynomial has the same gadget list
    and every gadget object that existed keeps its Pauli string and angle; the
    polynomial returned is a new object whose gadgets are new objects (the
    copies), so the angle updates reach the copies only. *)
Theorem simplify_pauli_polynomial_keeps_input fuel s pp n vs :
  poly_value s pp = Some (n, vs) ->
  poly_heap (snd (simplify_pauli_polynomial fuel pp s)) !! pp = poly_heap s !! pp /\
  (forall r g, gadget_heap s !! r = Some g ->
     gadget_heap (snd (simplify_pauli_polynomial fuel pp s)) !! r = Some g) /\
  poly_value (snd (simplify_pauli_polynomial fuel pp s)) pp = Some (n, vs) /\
  (forall pp1, fst (simplify_pauli_polynomial fuel pp s) = Ok pp1 ->
     pp1 = length (poly_heap s) /\
     exists refs',
       poly_heap (snd (simplify_pauli_polynomial fuel pp s)) !! pp1
       = Some (mkPoly n refs') /\
       Forall (fun r => length (gadget_heap s) <= r) refs').
Proof.
  intros Hv. pose proof Hv as (p & Hp & <- & HF)%poly_value_inv.
  destruct (simplify_sim fuel s pp p vs Hp HF) as [[Hg Hpo] Hm].
  assert (poly_heap (snd (simplify_pauli_polynomial fuel pp s)) !! pp = Some p)
    as Hp' by (by apply Hpo).
  split; [by rewrite Hp'|]. split; [done|]. split.
  - unfold poly_value. rewrite Hp'.
    assert (gadget_values (snd (simplify_pauli_polynomial fuel pp s)) (pauli_gadgets p)
            = Some vs) as ->; [|done].
    apply mapM_Some. eapply Forall2_impl; [exact HF|]. intros r g. apply Hg.
  - intros pp1 Hfst.
    destruct (simplify_v fuel (num_qubits p) vs) as [vs'| |]; try congruence.
    destruct Hm as (Hfst' & _ & refs' & Hp1 & Hfresh).
    assert (pp1 = length (poly_heap s)) as -> by congruence.
    split; [done|]. by exists refs'.
Qed.

(** C4 (amended) — [simplify_pauli_polynomial] prunes by exact comparison:
    no gadget of the result has an angle equal to [0] or to one full period
    [2 * np.pi]; each pass of [remove_collapsed_pauli_gadegts] keeps, in
    order, exactly the gadgets whose angle is neither; and when no two gadgets
    of the input have the same Pauli string (nothing is merged), the result is
    the input without the gadgets whose angle is exactly [0] or exactly
    [2 * np.pi], and nothing else is removed.  An angle that is merely
    congruent to 0 modulo the period is kept. *)
Theorem simplify_prunes_exact_zero_and_period fuel s pp n vs pp1 s1 :
  poly_value s pp = Some (n, vs) ->
  simplify_pauli_polynomial fuel pp s = (Ok pp1, s1) ->
  exists vs',
    poly_value s1 pp1 = Some (n, vs') /\
    Forall (fun g => angle_neq_two_pi (angle g) = true /\
                     angle_neq_zero (angle g) = true) vs' /\
    (forall refs gs, denotes s refs gs ->
       exists refs',
         remove_collapsed_pauli_gadegts refs s = (Ok refs', s) /\
         denotes s refs'
           (List.filter (fun g => angle_neq_two_pi (angle g) && angle_neq_zero (angle g)) gs)) /\
    (distinct_strings vs = true ->
     vs' = List.filter (fun g => angle_neq_two_pi (angle g) && angle_neq_zero (angle g)) vs).
Proof.
  intros Hv Hrun.
  destruct (simplify_ok_inv _ _ _ _ _ _ _ Hv Hrun)
    as (vs' & refs' & Hsv & -> & Hv1 & _).
  exists vs'. split; [done|]. split; [|split].
  - eapply Forall_impl; [by eapply simplify_v_not_collapsed|].
    intros g Hg. by apply andb_prop in Hg.
  - intros refs gs Hd. destruct (remove_sim s refs gs Hd) as (refs1 & ? & ? & _).
    by exists refs1.
  - intros Hd. unfold simplify_v in Hsv.
    destruct fuel as [|fuel]; [done|]. simpl in Hsv.
    rewrite (distinct_strings_converged (remove_collapsed_v vs)) in Hsv
      by (by apply distinct_strings_filter).
    destruct (all_of_size n (remove_collapsed_v vs)); [|done].
    by injection Hsv as <-.
Qed.

Lemma denotes_same_store s s' refs vs :
  denotes s refs vs -> denotes s' refs vs -> changed_only refs s s' -> s' = s.
Proof.
  intros [Hd _] [Hd' _] (Hp & Hlen & Hout).
  destruct s as [gh ph], s' as [gh' ph']. simpl in *. subst ph'. f_equal.
  apply list_eq. intros r. destruct (decide (r ∈ refs)) as [Hin|Hnot]; [|by apply Hout].
  apply list_elem_of_lookup in Hin as [i Hi].
  destruct (Forall2_lookup_l _ _ _ _ _ Hd Hi) as (g & Hg & ->).
  destruct (Forall2_lookup_l _ _ _ _ _ Hd' Hi) as (g' & Hg' & ->). congruence.
Qed.

(** What the two tests of the loop body answer, read off the list. *)
Lemma find_right_v_first (gadget : PauliGadget A) idx k tail i g' :
  tail !! i = Some g' ->
  zip_all_eq (paulis gadget) (paulis g') = true ->
  (forall i' g'', i' < i -> tail !! i' = Some g'' ->
     zip_all_eq (paulis gadget) (paulis g'') = false) ->
  find_right_v gadget idx k tail = Some (idx + k + i + 1).
Proof.
  revert k i. induction tail as [|g0 tail IH]; intros k i Hi Hz Hfirst; [done|].
  destruct i as [|i]; simpl in *.
  - injection Hi as ->. rewrite Hz. f_equal. lia.
  - rewrite (Hfirst 0 g0) by (done || lia).
    rewrite (IH (S k) i Hi Hz); [f_equal; lia|].
    intros i' g'' Hlt Hg. apply (Hfirst (S i') g''); [lia|done].
Qed.

Lemma commuting_loop_v_true idx ks vs g :
  vs !! idx = Some g ->
  (forall k, k ∈ ks -> exists gk, vs !! k = Some gk /\ commutes g gk = Ok true) ->
  commuting_loop_v idx ks vs = Ok true.
Proof.
  intros Hg. induction ks as [|k ks IH]; intros Hall; simpl; [done|].
  destruct (Hall k) as (gk & Hgk & Hc); [by left|]. rewrite Hg, Hgk, Hc. simpl.
  apply IH. intros k' Hk'. apply Hall. by right.
Qed.

Lemma commuting_loop_v_false idx ks vs g k0 gk0 :
  vs !! idx = Some g ->
  k0 ∈ ks -> vs !! k0 = Some gk0 -> commutes g gk0 = Ok false ->
  (forall k, k ∈ ks -> exists gk c, vs !! k = Some gk /\ commutes g gk = Ok c) ->
  commuting_loop_v idx ks vs = Ok false.
Proof.
  intros Hg Hk0 Hgk0 Hc0. induction ks as [|k ks IH]; intros Hall; simpl.
  { by apply elem_of_nil in Hk0. }
  destruct (Hall k) as (gk & c & Hgk & Hc); [by left|]. rewrite Hg, Hgk, Hc.
  destruct c; simpl; [|done].
  apply elem_of_cons in Hk0 as [->|Hk0]; [congruence|].
  apply IH; [done|]. intros k' Hk'. apply Hall. by right.
Qed.

Lemma commutes_Ok_length (g g' : PauliGadget A) c :
  commutes g g' = Ok c -> length (paulis g) = length (paulis g').
Proof.
  unfold commutes. destruct (length (paulis g) =? length (paulis g')) eqn:Hlen; [|done].
  intros _. by apply Nat.eqb_eq.
Qed.

(** C5 (amended) — the merge of [propagate_phase_gadegts], whose loop body
    for one [idx] is [propagate_step].  When the gadget at [idx] has a later
    gadget with the same Pauli string, the first such one being at
    [idx_right], and every gadget from [idx] (inclusive) up to [idx_right]
    (exclusive) commutes with it, then [find_machting_parity_right] finds
    [idx_right], [is_commuting_region] answers True, and the step sets the
    right angle to [right + left] and the left angle to [0.0], leaving every
    other gadget as it was; when a gadget of that region does not commute
    with the left gadget, the step changes nothing.  And a polynomial of two
    gadgets with the same Pauli string (such as [Z, Z]) and angles [θ1],
    [θ2] simplifies to the single gadget with that string and angle
    [θ2 + θ1], provided none of [θ1], [θ2], [θ2 + θ1] is exactly [0] or
    [2 * np.pi] (the literal [0.0] being one that is). *)
Theorem propagate_phase_merges_left_into_right :
  (forall s refs vs idx idx_right g_left g_right,
     denotes s refs vs ->
     vs !! idx = Some g_left -> vs !! idx_right = Some g_right ->
     idx < idx_right ->
     paulis g_right = paulis g_left ->
     (forall k gk, idx < k < idx_right -> vs !! k = Some gk ->
        paulis gk <> paulis g_left) ->
     (forall k gk, idx <= k < idx_right -> vs !! k = Some gk ->
        exists c, commutes g_left gk = Ok c) ->
     find_machting_parity_right idx refs s = (Ok (Some idx_right), s) /\
     ((forall k gk, idx <= k < idx_right -> vs !! k = Some gk ->
         commutes g_left gk = Ok true) ->
      is_commuting_region idx idx_right refs s = (Ok true, s) /\
      exists s',
        propagate_step idx refs s = (Ok true, s') /\
        denotes s' refs
          (<[idx := mkGadget angle_zero (paulis g_left)]>
             (<[idx_right := mkGadget (angle_add (angle g_right) (angle g_left))
                                      (paulis g_right)]> vs))) /\
     (forall k gk, idx <= k < idx_right -> vs !! k = Some gk ->
        commutes g_left gk = Ok false ->
        is_commuting_region idx idx_right refs s = (Ok false, s) /\
        propagate_step idx refs s = (Ok false, s))) /\
  (forall fuel s pp ps θ1 θ2,
     poly_value s pp = Some (length ps, [mkGadget θ1 ps; mkGadget θ2 ps]) ->
     not_collapsed θ1 = true -> not_collapsed θ2 = true ->
     not_collapsed (angle_add θ2 θ1) = true ->
     not_collapsed angle_zero = false ->
     exists pp1 s1,
       simplify_pauli_polynomial (S (S fuel)) pp s = (Ok pp1, s1) /\
       poly_value s1 pp1 = Some (length ps, [mkGadget (angle_add θ2 θ1) ps])).
Proof.
  split.
  - intros s refs vs idx idx_right g_left g_right Hd Hl Hr Hlt Heq Hfirst Hdef.
    assert (find_machting_parity_right_v idx vs = Ok (Some idx_right)) as Hfind.
    { unfold find_machting_parity_right_v. rewrite Hl. f_equal.
      rewrite (find_right_v_first g_left idx 0 _ (idx_right - S idx) g_right).
      - f_equal. lia.
      - rewrite lookup_drop, <- Hr. f_equal. lia.
      - rewrite Heq. apply zip_all_eq_refl.
      - intros i' gk Hi' Hgk. rewrite lookup_drop in Hgk.
        destruct (Hdef (S idx + i') gk) as [c Hc]; [lia|done|].
        destruct (zip_all_eq (paulis g_left) (paulis gk)) eqn:Hz; [|done].
        apply zip_all_eq_eq in Hz; [|by eapply commutes_Ok_length].
        by destruct (Hfirst (S idx + i') gk); [lia|..]. }
    assert (forall k, k ∈ seq idx (idx_right - idx) ->
              exists gk c, vs !! k = Some gk /\ commutes g_left gk = Ok c) as Hregion.
    { intros k [? ?]%elem_of_seq.
      destruct (lookup_lt_is_Some_2 vs k) as [gk Hgk].
      { apply lookup_lt_Some in Hr. lia. }
      destruct (Hdef k gk) as [c Hc]; [lia|done|]. by exists gk, c. }
    pose proof (find_sim s refs vs idx Hd) as Hfs. rewrite Hfind in Hfs.
    destruct (step_sim s refs vs idx Hd) as [_ Ha].
    unfold propagate_step_v in Ha. rewrite Hfind in Ha.
    split; [done|]. split.
    + intros Hall.
      assert (is_commuting_region_v idx idx_right vs = Ok true) as Hcomm.
      { apply (commuting_loop_v_true _ _ _ g_left Hl).
        intros k [? ?]%elem_of_seq.
        destruct (lookup_lt_is_Some_2 vs k) as [gk Hgk].
        { apply lookup_lt_Some in Hr. lia. }
        exists gk. split; [done|]. apply (Hall k); [lia|done]. }
      split.
      { unfold is_commuting_region.
        by rewrite (commuting_loop_sim _ _ _ _ _ Hd), <- Hcomm. }
      rewrite Hcomm, Hr in Ha. simpl in Ha. destruct Ha as [Hfst Hd'].
      exists (snd (propagate_step idx refs s)). split.
      * rewrite <- Hfst. by destruct (propagate_step idx refs s).
      * unfold merge_v in Hd'. rewrite Hl, Hr in Hd'.
        by rewrite list_lookup_insert_ne, Hl in Hd' by lia.
    + intros k0 gk0 Hk0 Hgk0 Hc0.
      assert (is_commuting_region_v idx idx_right vs = Ok false) as Hcomm.
      { apply (commuting_loop_v_false _ _ _ g_left k0 gk0); try done.
        apply elem_of_seq. lia. }
      split.
      { unfold is_commuting_region.
        by rewrite (commuting_loop_sim _ _ _ _ _ Hd), <- Hcomm. }
      rewrite Hcomm in Ha. simpl in Ha. destruct Ha as [Hfst Hd'].
      destruct (step_sim s refs vs idx Hd) as [Hch _].
      destruct (propagate_step idx refs s) as [r s'] eqn:Hstep. simpl in *. subst r.
      f_equal. by apply (denotes_same_store s s' refs vs).
  - intros fuel s pp ps θ1 θ2 Hv H1 H2 H12 H0.
    pose proof Hv as (p & Hp & Hn & HF)%poly_value_inv.
    destruct (simplify_sim (S (S fuel)) s pp p _ Hp HF) as [_ Hm].
    assert (simplify_v (S (S fuel)) (num_qubits p) [mkGadget θ1 ps; mkGadget θ2 ps]
            = Ok [mkGadget (angle_add θ2 θ1) ps]) as Hsv.
    { unfold simplify_v, simplify_loop_v, remove_collapsed_v. simpl List.filter.
      rewrite H1, H2.
      unfold propagate_phase_gadegts_v. simpl.
      unfold propagate_step_v at 1, find_machting_parity_right_v. simpl.
      rewrite zip_all_eq_refl. simpl.
      unfold is_commuting_region_v. simpl.
      unfold commutes. simpl. rewrite Nat.eqb_refl, mismatchcount_refl. simpl.
      unfold merge_v. simpl.
      rewrite H0, H12. simpl.
      by rewrite Hn, Nat.eqb_refl. }
    rewrite Hsv in Hm. destruct Hm as (Hfst & Hv1 & _).
    exists (length (poly_heap s)), (snd (simplify_pauli_polynomial (S (S fuel)) pp s)).
    split; [|by rewrite <- Hn].
    rewrite <- Hfst. by destruct (simplify_pauli_polynomial (S (S fuel)) pp s).
Qed.

End SimplifyClaims.

(** The polynomial of [merge_store] simplifies to [Z I] by 3 pi and [Z Z] by
    6 pi, and simplifying that again changes nothing. *)
Lemma simplify_pauli_polynomial_idempotent_witness :
  exists vs' pp2 s2,
    poly_value (snd (simplify_pauli_polynomial 5 0 merge_store)) 1
    = Some (2, vs') /\
    simplify_pauli_polynomial 1 1 (snd (simplify_pauli_polynomial 5 0 merge_store))
    = (Ok pp2, s2) /\
    poly_value s2 pp2 = Some (2, vs').
Proof.
  apply (simplify_pauli_polynomial_idempotent 5 0 merge_store 0 2
           [mkGadget 1%Z [Pauli.Z; Pauli.Z]; mkGadget 3%Z [Pauli.Z; Pauli.I];
            mkGadget 5%Z [Pauli.Z; Pauli.Z]]); reflexivity.
Defined.

(** On [merge_store], where the first gadget is merged into the third and
    dropped, the three input gadgets are as they were. *)
Lemma simplify_pauli_polynomial_keeps_input_witness :
  poly_heap (snd (simplify_pauli_polynomial 5 0 merge_store)) !! 0
  = poly_heap merge_store !! 0 /\
  (forall r g, gadget_heap merge_store !! r = Some g ->
     gadget_heap (snd (simplify_pauli_polynomial 5 0 merge_store)) !! r = Some g) /\
  poly_value (snd (simplify_pauli_polynomial 5 0 merge_store)) 0
  = Some (2, [mkGadget 1%Z [Pauli.Z; Pauli.Z]; mkGadget 3%Z [Pauli.Z; Pauli.I];
              mkGadget 5%Z [Pauli.Z; Pauli.Z]]) /\
  (forall pp1, fst (simplify_pauli_polynomial 5 0 merge_store) = Ok pp1 ->
     pp1 = length (poly_heap merge_store) /\
     exists refs',
       poly_heap (snd (simplify_pauli_polynomial 5 0 merge_store)) !! pp1
       = Some (mkPoly 2 refs') /\
       Forall (fun r => length (gadget_heap merge_store) <= r) refs').
Proof.
  apply (simplify_pauli_polynomial_keeps_input 5 merge_store 0 2). reflexivity.
Defined.

(** On [distinct_store] the gadgets by 2 pi and by 0 are dropped, the other
    two are kept. *)
Lemma simplify_prunes_exact_zero_and_period_witness :
  exists vs',
    poly_value (snd (simplify_pauli_polynomial 3 0 distinct_store)) 1 = Some (2, vs') /\
    Forall (fun g => angle_neq_two_pi (angle g) = true /\
                     angle_neq_zero (angle g) = true) vs' /\
    (forall refs gs, denotes distinct_store refs gs ->
       exists refs',
         remove_collapsed_pauli_gadegts refs distinct_store = (Ok refs', distinct_store) /\
         denotes distinct_store refs'
           (List.filter (fun g => angle_neq_two_pi (angle g) && angle_neq_zero (angle g)) gs)) /\
    (distinct_strings
       [mkGadget 1%Z [Pauli.X; Pauli.I]; mkGadget 2%Z [Pauli.Z; Pauli.Z];
        mkGadget 3%Z [Pauli.Y; Pauli.Y]; mkGadget 0%Z [Pauli.I; Pauli.X]] = true ->
     vs' = [mkGadget 1%Z [Pauli.X; Pauli.I]; mkGadget 3%Z [Pauli.Y; Pauli.Y]]).
Proof.
  exact (simplify_prunes_exact_zero_and_period 3 distinct_store 0 2
           [mkGadget 1%Z [Pauli.X; Pauli.I]; mkGadget 2%Z [Pauli.Z; Pauli.Z];
            mkGadget 3%Z [Pauli.Y; Pauli.Y]; mkGadget 0%Z [Pauli.I; Pauli.X]]
           1 (snd (simplify_pauli_polynomial 3 0 distinct_store))
           eq_refl eq_refl).
Defined.

(** The claim as stated fails: a gadget whose angle is 4 pi, congruent to 0
    modulo the period 2 pi, is not removed. *)
Lemma simplify_keeps_two_full_periods :
  simplify_pauli_polynomial 2 0 four_pi_store
  = (Ok 1, mkStore [mkGadget 4%Z [Pauli.Z]; mkGadget 4%Z [Pauli.Z]]
                   [mkPoly 1 [0]; mkPoly 1 [1]]) /\
  poly_value (snd (simplify_pauli_polynomial 2 0 four_pi_store)) 1
  = Some (1, [mkGadget 4%Z [Pauli.Z]]) /\
  (4 mod 2 = 0)%Z.
Proof. repeat split. Qed.

(** [Z Z] by pi followed by [Z Z] by 5 pi, with [Z I] in between, as in
    [merge_store]: the step for the first gadget adds pi to the third and
    leaves [0.0] behind; and two gadgets [Z Z] by pi and 3 pi simplify to
    one by 4 pi. *)
Lemma propagate_phase_merges_left_into_right_witness :
  (find_machting_parity_right 0 [0; 1; 2] merge_store = (Ok (Some 2), merge_store) /\
   is_commuting_region 0 2 [0; 1; 2] merge_store = (Ok true, merge_store) /\
   exists s',
     propagate_step 0 [0; 1; 2] merge_store = (Ok true, s') /\
     denotes s' [0; 1; 2]
       [mkGadget 0%Z [Pauli.Z; Pauli.Z]; mkGadget 3%Z [Pauli.Z; Pauli.I];
        mkGadget 6%Z [Pauli.Z; Pauli.Z]]) /\
  exists pp1 s1,
    simplify_pauli_polynomial 2 0
      (mkStore [mkGadget 1%Z [Pauli.Z; Pauli.Z]; mkGadget 3%Z [Pauli.Z; Pauli.Z]]
               [mkPoly 2 [0; 1]]) = (Ok pp1, s1) /\
    poly_value s1 pp1 = Some (2, [mkGadget 4%Z [Pauli.Z; Pauli.Z]]).
Proof.
  assert (denotes merge_store [0; 1; 2]
            [mkGadget 1%Z [Pauli.Z; Pauli.Z]; mkGadget 3%Z [Pauli.Z; Pauli.I];
             mkGadget 5%Z [Pauli.Z; Pauli.Z]]) as Hden.
  { split; [by repeat constructor|].
    repeat (apply NoDup_cons; split; [set_solver|]). apply NoDup_nil_2. }
  assert (forall k gk, 0 < k < 2 ->
            [mkGadget 1%Z [Pauli.Z; Pauli.Z]; mkGadget 3%Z [Pauli.Z; Pauli.I];
             mkGadget 5%Z [Pauli.Z; Pauli.Z]] !! k = Some gk ->
            paulis gk <> [Pauli.Z; Pauli.Z]) as Hfirst.
  { intros [|[|k]] gk Hk; [lia| |lia]. by intros [= <-]. }
  assert (forall k gk, 0 <= k < 2 ->
            [mkGadget 1%Z [Pauli.Z; Pauli.Z]; mkGadget 3%Z [Pauli.Z; Pauli.I];
             mkGadget 5%Z [Pauli.Z; Pauli.Z]] !! k = Some gk ->
            commutes (mkGadget 1%Z [Pauli.Z; Pauli.Z]) gk = Ok true) as Hall.
  { intros [|[|k]] gk Hk; [| |lia]; by intros [= <-]. }
  destruct (proj1 (@propagate_phase_merges_left_into_right Z ZPi_AngleOps)
              merge_store [0; 1; 2] _ 0 2 _ _ Hden eq_refl eq_refl
              (Nat.lt_0_succ 1) eq_refl Hfirst
              (fun k gk Hk Hgk => ex_intro _ true (Hall k gk Hk Hgk)))
    as (Hfind & Hmerge & _).
  destruct (Hmerge Hall) as (Hcomm & s' & Hstep & Hd').
  split; [split; [exact Hfind|split; [exact Hcomm|by exists s']]|].
  exact (proj2 (@propagate_phase_merges_left_into_right Z ZPi_AngleOps) 0
           (mkStore [mkGadget 1%Z [Pauli.Z; Pauli.Z]; mkGadget 3%Z [Pauli.Z; Pauli.Z]]
                    [mkPoly 2 [0; 1]]) 0 [Pauli.Z; Pauli.Z] 1%Z 3%Z
           eq_refl eq_refl eq_refl eq_refl eq_refl).
Defined.

(** The claim as stated fails: [Z Z] by pi followed by [Z Z] by -pi
    simplifies to the polynomial with no gadget, not to a single gadget. *)
Lemma simplify_opposite_angles_leaves_nothing :
  fst (simplify_pauli_polynomial 3 0 cancel_store) = Ok 1 /\
  poly_value (snd (simplify_pauli_polynomial 3 0 cancel_store)) 1 = Some (2, []).
Proof. split; reflexivity. Qed.

(** ** Minimal CX assignment: ladders along shortest paths *)

Lemma ladder_loop_length prev path acc :
  length (ladder_loop prev path acc) = length acc + 2 * length path.
Proof.
  revert prev acc. induction path as [|c path IH]; intros prev acc; simpl; [lia|].
  rewrite IH, length_app. simpl. lia.
Qed.

Lemma inner_path_length path : length (inner_path path) = length path - 2.
Proof.
  unfold inner_path. destruct path as [|a path]; simpl; [done|].
  destruct path as [|b path] using rev_ind; simpl; [done|].
  rewrite removelast_last, length_app. simpl. lia.
Qed.

Lemma second_to_last_ok path :
  2 <= length path -> exists x, second_to_last path = Ok x.
Proof.
  intros Hlen. unfold second_to_last.
  destruct (length path <? 2) eqn:Hlt; [apply Nat.ltb_lt in Hlt; lia|].
  destruct (lookup_lt_is_Some_2 path (length path - 2)) as [x ->]; [lia|]. by exists x.
Qed.

Lemma decompose_cnot_ladder_z_length ctrl trg arch :
  2 <= length (shortest_path arch ctrl trg) ->
  exists segment,
    decompose_cnot_ladder_z ctrl trg arch = Ok segment /\
    length segment = segment_length arch ctrl trg.
Proof.
  intros Hlen. unfold decompose_cnot_ladder_z, segment_length.
  destruct (second_to_last_ok _ Hlen) as [x ->]. simpl.
  eexists. split; [done|].
  rewrite length_rev, length_app, ladder_loop_length, inner_path_length. simpl. lia.
Qed.

(** A path of fewer than two qubits makes [shortest_path[-2]] fail. *)
Lemma decompose_cnot_ladder_z_short ctrl trg arch :
  length (shortest_path arch ctrl trg) < 2 ->
  decompose_cnot_ladder_z ctrl trg arch = Raise IndexError.
Proof.
  intros Hlen. unfold decompose_cnot_ladder_z, second_to_last.
  apply Nat.ltb_lt in Hlen. by rewrite Hlen.
Qed.

(** ** Minimal CX assignment: the incidence dictionary *)

Lemma empty_incident_lookup n q :
  empty_incident n !! q = if decide (q < n) then Some ∅ else None.
Proof.
  unfold empty_incident. destruct (decide (q < n)) as [Hq|Hq].
  - apply elem_of_list_to_map.
    + rewrite <- list_fmap_compose.
      apply NoDup_fmap_2; [by intros x y [= ->]|apply NoDup_seq].
    + apply list_elem_of_fmap. exists q. split; [done|]. apply elem_of_seq. lia.
  - apply not_elem_of_list_to_map. rewrite <- list_fmap_compose.
    intros (x & -> & Hx%elem_of_seq)%list_elem_of_fmap. simpl in *. lia.
Qed.

(** What [incident] holds once the branches are filed: the domain is
    unchanged, and [(a, b)] is at [q] when [a = q] and the branch between
    [q] and [b] is among those filed (or was there before). *)
Lemma fill_incident_spec mst incident :
  (forall a b, (a, b) ∈ mst -> is_Some (incident !! a) /\ is_Some (incident !! b)) ->
  exists incident',
    fill_incident mst incident = Ok incident' /\
    (forall q, incident' !! q = None <-> incident !! q = None) /\
    (forall q at_q at_q', incident !! q = Some at_q -> incident' !! q = Some at_q' ->
       forall e, e ∈ at_q' <->
         e ∈ at_q \/ exists b, e = (q, b) /\ ((q, b) ∈ mst \/ (b, q) ∈ mst)).
Proof.
  revert incident. induction mst as [|[a b] mst IH]; intros incident Hdom; simpl.
  - exists incident. split; [done|]. split; [done|].
    intros q at_q at_q' Hq Hq' e. assert (at_q' = at_q) as -> by congruence.
    split; [by left|]. intros [?|(b & _ & [Hin|Hin])]; [done|..]; by apply elem_of_nil in Hin.
  - destruct (Hdom a b) as [[at_a Ha] [at_b Hb]]; [left|].
    rewrite Ha.
    set (inc1 := <[a := at_a ∪ {[(a, b)]}]> incident).
    assert (exists at_b1, inc1 !! b = Some at_b1 /\
              forall e, e ∈ at_b1 <-> e ∈ at_b \/ (b = a /\ e = (a, b))) as (at_b1 & Hb1 & Hb1e).
    { unfold inc1. destruct (decide (a = b)) as [->|Hne].
      - rewrite lookup_insert_eq. eexists. split; [done|].
        intros e. assert (at_a = at_b) as -> by congruence. set_solver.
      - rewrite lookup_insert_ne by done. exists at_b. split; [done|]. set_solver. }
    rewrite Hb1.
    set (inc2 := <[b := at_b1 ∪ {[(b, a)]}]> inc1).
    destruct (IH inc2) as (incident' & Hrun & Hnone & Hspec).
    { intros a' b' Hin. destruct (Hdom a' b') as [Ha' Hb']; [by right|].
      unfold inc2, inc1. split.
      - destruct (decide (b = a')) as [->|?]; [rewrite lookup_insert_eq; eauto|].
        rewrite lookup_insert_ne by done.
        destruct (decide (a = a')) as [->|?]; [rewrite lookup_insert_eq; eauto|].
        by rewrite lookup_insert_ne.
      - destruct (decide (b = b')) as [->|?]; [rewrite lookup_insert_eq; eauto|].
        rewrite lookup_insert_ne by done.
        destruct (decide (a = b')) as [->|?]; [rewrite lookup_insert_eq; eauto|].
        by rewrite lookup_insert_ne. }
    exists incident'. split; [done|]. split.
    + intros q. rewrite Hnone. unfold inc2, inc1.
      destruct (decide (b = q)) as [->|?].
      { rewrite lookup_insert_eq. split; [done|]. intros Hq. by rewrite Hq in Hb. }
      rewrite lookup_insert_ne by done.
      destruct (decide (a = q)) as [->|?].
      { rewrite lookup_insert_eq. split; [done|]. intros Hq. by rewrite Hq in Ha. }
      by rewrite lookup_insert_ne.
    + intros q at_q at_q' Hq Hq' e.
      assert (exists at_q2, inc2 !! q = Some at_q2 /\
                forall e, e ∈ at_q2 <->
                  e ∈ at_q \/ (q = a /\ e = (a, b)) \/ (q = b /\ e = (b, a)))
        as (at_q2 & Hq2 & Hq2e).
      { unfold inc2. destruct (decide (b = q)) as [->|Hbq].
        - rewrite lookup_insert_eq. eexists. split; [done|]. intros e'.
          assert (at_b = at_q) as -> by congruence.
          rewrite elem_of_union, Hb1e. set_solver.
        - rewrite lookup_insert_ne by done. unfold inc1.
          destruct (decide (a = q)) as [->|Haq].
          + rewrite lookup_insert_eq. eexists. split; [done|].
            assert (at_a = at_q) as -> by congruence. set_solver.
          + rewrite lookup_insert_ne by done. exists at_q. split; [done|]. set_solver. }
      rewrite (Hspec q at_q2 at_q' Hq2 Hq' e), Hq2e. split.
      * intros [[?|[[-> ->]|[-> ->]]]|(b' & -> & [?|?])]; eauto.
        -- right. exists b. split; [done|]. left. left.
        -- right. exists a. split; [done|]. right. left.
        -- right. exists b'. split; [done|]. left. by right.
        -- right. exists b'. split; [done|]. right. by right.
      * intros [?|(b' & -> & [Hin|Hin])]; [by left; left|..];
          apply elem_of_cons in Hin as [[= <- <-]|Hin].
        -- left. right. by left.
        -- right. exists b'. split; [done|]. by left.
        -- left. right. by right.
        -- right. exists b'. split; [done|]. by right.
Qed.

(** ** Trees grown branch by branch *)

Lemma grow_nodes t bs tree : grow t bs = Some tree -> tree = t ++ bs.*2.
Proof.
  revert t. induction bs as [|[u v] bs IH]; intros t; simpl.
  - intros [= <-]. by rewrite app_nil_r.
  - destruct (bool_decide (u ∈ t) && negb (bool_decide (v ∈ t))); [|done].
    intros ->%IH. by rewrite <- app_assoc.
Qed.

Lemma grow_NoDup t bs tree : NoDup t -> grow t bs = Some tree -> NoDup tree.
Proof.
  revert t. induction bs as [|[u v] bs IH]; intros t Ht; simpl.
  - by intros [= <-].
  - destruct (bool_decide (u ∈ t) && negb (bool_decide (v ∈ t))) eqn:Hc; [|done].
    apply andb_prop in Hc as [_ Hv%negb_true_iff%bool_decide_eq_false].
    apply IH. apply NoDup_app. repeat split; [done| |apply NoDup_singleton].
    intros x Hx ->%list_elem_of_singleton. done.
Qed.

Lemma grow_branch t bs tree u v :
  grow t bs = Some tree -> (u, v) ∈ bs ->
  u ∈ tree /\ v ∈ tree /\ (v ∉ t) /\ u <> v.
Proof.
  revert t. induction bs as [|[u' v'] bs IH]; intros t; simpl.
  - intros _ Hin. by apply elem_of_nil in Hin.
  - destruct (bool_decide (u' ∈ t) && negb (bool_decide (v' ∈ t))) eqn:Hc; [|done].
    apply andb_prop in Hc as [Hu%bool_decide_eq_true Hv%negb_true_iff%bool_decide_eq_false].
    intros Hg [[= -> ->]|Hin]%elem_of_cons.
    + pose proof (grow_nodes _ _ _ Hg) as ->. repeat split.
      * apply elem_of_app. left. apply elem_of_app. by left.
      * apply elem_of_app. left. apply elem_of_app. right. by left.
      * done.
      * by intros ->.
    + destruct (IH _ Hg Hin) as (? & ? & Hnin & ?). repeat split; try done.
      intros Hvt. apply Hnin. apply elem_of_app. by left.
Qed.

Lemma grow_one_parent t bs tree u u' v :
  NoDup t -> grow t bs = Some tree -> (u, v) ∈ bs -> (u', v) ∈ bs -> u = u'.
Proof.
  intros Ht Hg. pose proof (grow_NoDup _ _ _ Ht Hg) as Hnd.
  rewrite (grow_nodes _ _ _ Hg) in Hnd. apply NoDup_app in Hnd as (_ & _ & Hnd).
  clear Hg Ht. induction bs as [|[a b] bs IH]; simpl in *.
  - intros Hin. by apply elem_of_nil in Hin.
  - apply NoDup_cons in Hnd as [Hb Hnd].
    intros [Heq|Hin]%elem_of_cons [Heq'|Hin']%elem_of_cons; simplify_eq; try done.
    + exfalso. apply Hb. apply list_elem_of_fmap. by eexists (_, _).
    + exfalso. apply Hb. apply list_elem_of_fmap. by eexists (_, _).
    + by apply IH.
Qed.

Lemma grow_closed (P : nat -> Prop) t bs tree :
  grow t bs = Some tree ->
  (forall x, x ∈ t -> P x) ->
  (forall u v, (u, v) ∈ bs -> P u -> P v) ->
  forall x, x ∈ tree -> P x.
Proof.
  revert t. induction bs as [|[u v] bs IH]; intros t; simpl.
  - intros [= <-] Ht _. done.
  - destruct (bool_decide (u ∈ t) && negb (bool_decide (v ∈ t))) eqn:Hc; [|done].
    apply andb_prop in Hc as [Hu%bool_decide_eq_true _].
    intros Hg Ht Hstep. apply (IH _ Hg).
    + intros x [Hx| ->%list_elem_of_singleton]%elem_of_app; [by apply Ht|].
      apply (Hstep u); [left|by apply Ht].
    + intros u' v' Hin. apply Hstep. by right.
Qed.

Lemma parent_of_branch bs u v :
  (forall u', (u', v) ∈ bs -> u' = u) -> (u, v) ∈ bs -> parent_of bs v = u.
Proof.
  unfold parent_of. induction bs as [|[a b] bs IH]; simpl.
  - intros _ Hin. by apply elem_of_nil in Hin.
  - intros Huniq Hin. destruct (b =? v) eqn:Hb.
    + apply Nat.eqb_eq in Hb as ->. apply Huniq. left.
    + apply IH.
      * intros u' Hu'. apply Huniq. by right.
      * apply elem_of_cons in Hin as [[= -> ->]|Hin]; [|done].
        by rewrite Nat.eqb_refl in Hb.
Qed.

Lemma sum_list_with_fmap_ext {X Y} (f : Y -> nat) (g : X -> Y) (h : X -> nat) l :
  (forall x, x ∈ l -> f (g x) = h x) ->
  sum_list_with f (g <$> l) = sum_list_with h l.
Proof.
  induction l as [|x l IH]; simpl; [done|]. intros Hext.
  rewrite Hext by left. f_equal. apply IH. intros y Hy. apply Hext. by right.
Qed.

Lemma sum_list_with_perm {X} (f : X -> nat) (l k : list X) :
  l ≡ₚ k -> sum_list_with f l = sum_list_with f k.
Proof. induction 1; simpl; lia. Qed.

(** ** Minimal CX assignment: the traversal of a spanning tree *)

Lemma visit_incident_run arch es visited queue ladder :
  (forall t h, (t, h) ∈ es -> h ∉ visited -> 2 <= length (shortest_path arch h t)) ->
  exists segs,
    visit_incident arch es visited queue ladder
    = Ok (queue ++ unvisited_heads es visited, ladder ++ segs) /\
    length segs
    = sum_list_with (fun e : nat * nat => segment_length arch e.2 e.1)
        (filter (fun e : nat * nat => e.2 ∉ visited) es).
Proof.
  unfold unvisited_heads.
  revert queue ladder. induction es as [|[t h] es IH]; intros queue ladder Hp; simpl.
  - exists []. by rewrite !app_nil_r.
  - rewrite filter_cons. simpl. destruct (decide (h ∈ visited)) as [Hv|Hv].
    + rewrite decide_False by (by intros ?).
      apply IH. intros t' h' Hin. apply Hp. by right.
    + rewrite decide_True by done.
      destruct (decompose_cnot_ladder_z_length h t arch) as (seg & -> & Hseg).
      { apply Hp; [left|done]. }
      simpl. destruct (IH (queue ++ [h]) (ladder ++ seg)) as (segs & -> & Hsegs).
      { intros t' h' Hin. apply Hp. by right. }
      exists (seg ++ segs). rewrite <- !app_assoc. split; [done|].
      rewrite length_app, Hseg, Hsegs. done.
Qed.

Section BfsOnTree.
Variables (arch : Topology) (incident : gmap nat (gset (nat * nat))).
Variables (root : nat) (branches : list (nat * nat)) (tree : list nat).
Hypothesis Hgrow : grow [root] branches = Some tree.
Hypothesis Hinc : forall q, q ∈ tree ->
  exists at_q, incident !! q = Some at_q /\
    forall e, e ∈ at_q <-> exists b, e = (q, b) /\ ((q, b) ∈ branches \/ (b, q) ∈ branches).
Hypothesis Hpaths : forall u v, (u, v) ∈ branches -> 2 <= length (shortest_path arch v u).

Let cost := reach_cost arch root branches.

(** The state of the loop: [popped] are the visited qubits in the order they
    left the queue. *)
Record bfs_inv (popped queue : list nat) (ladder : list (nat * nat)) : Prop := {
  inv_nodup : NoDup (popped ++ queue);
  inv_tree : forall x, x ∈ popped ++ queue -> x ∈ tree;
  inv_parent : forall u v, (u, v) ∈ branches -> v ∈ popped ++ queue -> u ∈ popped;
  inv_children : forall u v, (u, v) ∈ branches -> u ∈ popped -> v ∈ popped ++ queue;
  inv_root : root ∈ popped ++ queue;
  inv_length : length ladder = sum_list_with cost (popped ++ queue);
}.

Lemma root_not_child u : (u, root) ∉ branches.
Proof using Hgrow.
  intros Hin. destruct (grow_branch _ _ _ _ _ Hgrow Hin) as (_ & _ & Hn & _).
  apply Hn. left.
Qed.

Lemma one_parent u u' v : (u, v) ∈ branches -> (u', v) ∈ branches -> u = u'.
Proof using Hgrow.
  apply (grow_one_parent [root] branches tree); [apply NoDup_singleton|done].
Qed.

Lemma cost_child u v : (u, v) ∈ branches -> cost v = segment_length arch v u.
Proof using Hgrow.
  intros Hin. unfold cost, reach_cost. rewrite decide_False.
  - rewrite (parent_of_branch branches u v); [done| |done].
    intros u' Hu'. by apply (one_parent u' u v).
  - intros ->. by apply root_not_child in Hin.
Qed.

Lemma bfs_inv_init : root ∈ tree -> bfs_inv [] [root] [].
Proof using Hgrow.
  intros Hr. split; simpl.
  - apply NoDup_singleton.
  - by intros x ->%list_elem_of_singleton.
  - intros u v Hin ->%list_elem_of_singleton. by apply root_not_child in Hin.
  - intros u v _ Hu. by apply elem_of_nil in Hu.
  - left.
  - unfold cost, reach_cost. by rewrite decide_True.
Qed.

(** One turn of the loop: the qubit [q] leaves the queue, its children and
    only they enter it, and the ladder grows by their segments. *)
Lemma bfs_step popped q queue ladder :
  bfs_inv popped (q :: queue) ladder ->
  exists at_q queue' ladder',
    incident !! q = Some at_q /\
    visit_incident arch (elements at_q) (list_to_set popped ∪ {[q]}) queue ladder
    = Ok (queue', ladder') /\
    bfs_inv (popped ++ [q]) queue' ladder'.
Proof using Hgrow Hinc Hpaths.
  intros [Hnd Htree Hpar Hch Hroot Hlen].
  assert (q ∈ tree) as Hq by (apply Htree; set_solver).
  destruct (Hinc q Hq) as (at_q & Hat & Hin_at).
  set (visited := list_to_set popped ∪ {[q]} : gset nat).
  assert (forall x, x ∈ visited <-> x ∈ popped \/ x = q) as Hvis.
  { intros x. unfold visited. set_solver. }
  assert (q ∉ popped) as Hq_fresh.
  { apply NoDup_app in Hnd as (_ & Hd & _). intros Hqp. apply (Hd q Hqp). left. }
  assert (forall h, h ∈ unvisited_heads (elements at_q) visited <-> (q, h) ∈ branches)
    as Hkids.
  { intros h. unfold unvisited_heads. rewrite list_elem_of_fmap. split.
    - intros ([t h'] & -> & [Hnv He%elem_of_elements]%list_elem_of_filter). simpl in *.
      apply Hin_at in He as (b & [= -> ->] & [Hb|Hb]); [done|].
      exfalso. apply Hnv, Hvis. left. apply (Hpar b q Hb). set_solver.
    - intros Hb. exists (q, h). split; [done|]. apply list_elem_of_filter. split.
      + simpl. rewrite Hvis. intros [Hh| ->].
        * apply Hq_fresh. apply (Hpar q h Hb). set_solver.
        * by destruct (grow_branch _ _ _ _ _ Hgrow Hb) as (_ & _ & _ & ?).
      + apply elem_of_elements, Hin_at. exists h. eauto. }
  assert (NoDup (unvisited_heads (elements at_q) visited)) as Hkids_nd.
  { unfold unvisited_heads. apply NoDup_fmap_2_strong.
    - intros [t h] [t' h'] [_ He%elem_of_elements]%list_elem_of_filter
             [_ He'%elem_of_elements]%list_elem_of_filter Heq. simpl in Heq. subst h'.
      apply Hin_at in He as (b & [= -> ->] & _).
      apply Hin_at in He' as (b' & [= -> ->] & _). done.
    - apply NoDup_filter, NoDup_elements. }
  destruct (visit_incident_run arch (elements at_q) visited queue ladder)
    as (segs & Hrun & Hsegs).
  { intros t h He%elem_of_elements Hnv.
    apply Hin_at in He as (b & [= -> ->] & [Hb|Hb]); [by apply Hpaths|].
    exfalso. apply Hnv, Hvis. left. apply (Hpar b q Hb). set_solver. }
  exists at_q, (queue ++ unvisited_heads (elements at_q) visited), (ladder ++ segs).
  split; [done|]. split; [done|].
  set (kids := unvisited_heads (elements at_q) visited) in *.
  assert (forall h, h ∈ kids -> h ∉ popped ++ q :: queue) as Hkids_new.
  { intros h Hh%Hkids Hin. apply Hq_fresh. by apply (Hpar q h). }
  split.
  - rewrite <- app_assoc. simpl. rewrite app_comm_cons, app_assoc.
    apply NoDup_app. split; [done|]. split; [|done].
    intros x Hx Hk. by apply (Hkids_new x).
  - intros x Hx. rewrite <- app_assoc in Hx. simpl in Hx.
    rewrite app_comm_cons, app_assoc in Hx. apply elem_of_app in Hx as [Hx|Hx].
    + by apply Htree.
    + apply Hkids in Hx. by destruct (grow_branch _ _ _ _ _ Hgrow Hx) as (_ & ? & _).
  - intros u v Hb Hv. rewrite <- app_assoc in Hv. simpl in Hv.
    rewrite app_comm_cons, app_assoc in Hv. apply elem_of_app in Hv as [Hv|Hv].
    + apply elem_of_app. left. by apply (Hpar u v).
    + apply Hkids in Hv. rewrite (one_parent u q v Hb Hv). set_solver.
  - intros u v Hb [Hu| ->%list_elem_of_singleton]%elem_of_app.
    + specialize (Hch u v Hb Hu). set_solver.
    + apply Hkids in Hb. set_solver.
  - set_solver.
  - rewrite length_app, Hlen, Hsegs.
    rewrite <- (app_assoc popped [q]). simpl.
    rewrite (app_comm_cons queue), (app_assoc popped).
    rewrite (sum_list_with_app _ (popped ++ q :: queue)). f_equal.
    unfold kids, unvisited_heads. symmetry. apply sum_list_with_fmap_ext.
    intros [t h] Hin. simpl.
    assert (h ∈ kids) as Hk.
    { unfold kids, unvisited_heads. apply list_elem_of_fmap. by exists (t, h). }
    apply list_elem_of_filter in Hin as [_ He%elem_of_elements].
    apply Hin_at in He as (b & [= -> <-] & _).
    apply Hkids in Hk. by rewrite (cost_child q h Hk).
Qed.

Lemma bfs_run fuel popped queue ladder :
  bfs_inv popped queue ladder ->
  length tree < fuel + length popped ->
  exists ladder',
    bfs fuel arch incident (list_to_set popped) queue ladder = Ok ladder' /\
    length ladder'
    = sum_list_with (fun e : nat * nat => segment_length arch e.2 e.1) branches.
Proof using Hgrow Hinc Hpaths.
  assert (NoDup tree) as Htree_nd
    by (apply (grow_NoDup [root] branches); [apply NoDup_singleton|done]).
  revert popped queue ladder.
  induction fuel as [|fuel IH]; intros popped queue ladder Hinv Hfuel.
  - exfalso. destruct Hinv as [Hnd Htree _ _ _ _].
    apply NoDup_app in Hnd as (Hnd & _ & _).
    assert (popped ⊆+ tree) as Hsub.
    { apply NoDup_submseteq; [done|]. intros x Hx. apply Htree. set_solver. }
    apply submseteq_length in Hsub. simpl in Hfuel. lia.
  - destruct queue as [|q queue]; simpl.
    + exists ladder. split; [done|].
      destruct Hinv as [Hnd Htree _ Hch Hroot Hlen]. rewrite app_nil_r in *.
      rewrite Hlen. rewrite (sum_list_with_perm cost popped tree).
      * rewrite (grow_nodes _ _ _ Hgrow). simpl.
        unfold cost at 1, reach_cost. rewrite decide_True by done. simpl.
        apply sum_list_with_fmap_ext. intros [u v] Hin. simpl. by apply cost_child.
      * apply NoDup_Permutation; [done..|]. intros x. split; [apply Htree|].
        apply (grow_closed (fun x => x ∈ popped) [root] branches tree Hgrow).
        -- by intros y ->%list_elem_of_singleton.
        -- intros u v Hb Hu. by apply (Hch u v).
    + destruct (bfs_step popped q queue ladder Hinv)
        as (at_q & queue' & ladder' & -> & Hrun & Hinv').
      rewrite Hrun. simpl.
      assert (list_to_set popped ∪ {[q]} = list_to_set (popped ++ [q]) :> gset nat)
        as -> by set_solver.
      apply IH; [done|]. rewrite length_app. simpl. lia.
Qed.

End BfsOnTree.

(** ** Minimal CX assignment: the column, the graph and the whole function *)

Lemma active_qubits_elem column q :
  q ∈ active_qubits column <-> q < length column /\ column_at column q <> 0%Z.
Proof.
  unfold active_qubits. rewrite list_elem_of_In, filter_In, <- list_elem_of_In.
  rewrite elem_of_seq, negb_true_iff, Z.eqb_neq. simpl. lia.
Qed.

Lemma active_qubits_NoDup column : NoDup (active_qubits column).
Proof. apply NoDup_ListNoDup, List.NoDup_filter, NoDup_ListNoDup, NoDup_seq. Qed.

Lemma segment_length_pos arch head tail : 1 <= segment_length arch head tail.
Proof. unfold segment_length. lia. Qed.

Lemma segment_length_complete head tail :
  segment_length complete_topology head tail = 1.
Proof. unfold segment_length. simpl. by destruct (head =? tail). Qed.

Lemma sum_segments_bounds arch branches :
  length branches
  <= sum_list_with (fun e : nat * nat => segment_length arch e.2 e.1) branches.
Proof.
  induction branches as [|e bs IH]; simpl; [done|].
  pose proof (segment_length_pos arch e.2 e.1). lia.
Qed.

Lemma sum_segments_complete branches :
  sum_list_with (fun e : nat * nat => segment_length complete_topology e.2 e.1) branches
  = length branches.
Proof.
  induction branches as [|e bs IH]; simpl; [done|].
  by rewrite segment_length_complete, IH.
Qed.

Section CxAssignment.
Context `{NetworkX}.

Lemma same_branches_spec mst branches :
  same_branches mst branches = true ->
  forall a b, ((a, b) ∈ mst \/ (b, a) ∈ mst) <-> ((a, b) ∈ branches \/ (b, a) ∈ branches).
Proof.
  unfold same_branches. intros [H1 H2]%andb_prop.
  rewrite forallb_forall in H1, H2.
  assert (forall a b, (a, b) ∈ mst -> (a, b) ∈ branches \/ (b, a) ∈ branches) as Hm.
  { intros a b Hin%list_elem_of_In%H1.
    apply orb_prop in Hin as [?%bool_decide_eq_true|?%bool_decide_eq_true]; eauto. }
  assert (forall a b, (a, b) ∈ branches -> (a, b) ∈ mst \/ (b, a) ∈ mst) as Hb.
  { intros a b Hin%list_elem_of_In%H2.
    apply orb_prop in Hin as [?%bool_decide_eq_true|?%bool_decide_eq_true]; eauto. }
  intros a b. split; intros [Hin|Hin].
  - by apply Hm.
  - destruct (Hm _ _ Hin); eauto.
  - by apply Hb.
  - destruct (Hb _ _ Hin); eauto.
Qed.

(** On a spanning tree of the active qubits the function returns, and the
    ladder has one segment per branch. *)
Lemma cx_assignment_on_tree fuel column arch q0 root branches :
  is_binary column = true ->
  chosen_root column q0 = Ok root ->
  spanning_tree_of column root
    (minimum_spanning_edges (build_graph column arch)) branches = true ->
  paths_connect arch branches = true ->
  length column < fuel ->
  exists ladder,
    find_minimal_cx_assignment fuel column arch q0 = Ok (ladder, root) /\
    length ladder
    = sum_list_with (fun e : nat * nat => segment_length arch e.2 e.1) branches /\
    S (length branches) = length (active_qubits column).
Proof.
  intros Hbin Hroot Hspan Hpaths Hfuel.
  unfold spanning_tree_of in Hspan. apply andb_prop in Hspan as [Hsame Hspan].
  destruct (grow [root] branches) as [tree|] eqn:Hgrow; [|done].
  apply andb_prop in Hspan as [Hcover Hactive].
  rewrite forallb_forall in Hcover, Hactive.
  assert (forall q, q ∈ tree <-> q ∈ active_qubits column) as Htree.
  { intros q. split.
    - intros Hq%list_elem_of_In%Hactive. by apply bool_decide_eq_true in Hq.
    - intros Hq%list_elem_of_In%Hcover. by apply bool_decide_eq_true in Hq. }
  pose proof (same_branches_spec _ _ Hsame) as Hsame'.
  set (mst := minimum_spanning_edges (build_graph column arch)) in *.
  assert (forall q, q ∈ tree -> empty_incident (length column) !! q = Some ∅) as Hdom.
  { intros q [Hq _]%Htree%active_qubits_elem.
    rewrite empty_incident_lookup. by rewrite decide_True. }
  destruct (fill_incident_spec mst (empty_incident (length column)))
    as (incident & Hfill & Hnone & Hspec).
  { intros a b Hin.
    assert ((a, b) ∈ branches \/ (b, a) ∈ branches) as [Hb|Hb] by (apply Hsame'; by left).
    - destruct (grow_branch _ _ _ _ _ Hgrow Hb) as (Ha & Hb' & _).
      rewrite (Hdom a Ha), (Hdom b Hb'). eauto.
    - destruct (grow_branch _ _ _ _ _ Hgrow Hb) as (Hb' & Ha & _).
      rewrite (Hdom a Ha), (Hdom b Hb'). eauto. }
  assert (root ∈ tree) as Hroot_in.
  { rewrite (grow_nodes _ _ _ Hgrow). left. }
  destruct (bfs_run arch incident root branches tree Hgrow) with
    (fuel := fuel) (popped := @nil nat) (queue := [root]) (ladder := @nil (nat * nat))
    as (ladder & Hbfs & Hlen).
  - intros q Hq. specialize (Hdom q Hq).
    destruct (incident !! q) as [at_q|] eqn:Hat.
    2:{ apply Hnone in Hat. congruence. }
    exists at_q. split; [done|]. intros e.
    rewrite (Hspec q ∅ at_q Hdom Hat e). split.
    + intros [Hin|(b & -> & Hb)]; [set_solver|]. exists b. split; [done|]. by apply Hsame'.
    + intros (b & -> & Hb). right. exists b. split; [done|]. by apply Hsame'.
  - intros u v Hb. unfold paths_connect in Hpaths. rewrite forallb_forall in Hpaths.
    apply list_elem_of_In, Hpaths in Hb. by apply Nat.leb_le in Hb.
  - by apply bfs_inv_init.
  - assert (NoDup tree) as Hnd
      by (apply (grow_NoDup [root] branches); [apply NoDup_singleton|done]).
    assert (tree ≡ₚ active_qubits column) as Hperm
      by (apply NoDup_Permutation; [done|apply active_qubits_NoDup|done]).
    apply Permutation_length in Hperm.
    pose proof (active_qubits_elem column) as Hact.
    assert (length (active_qubits column) <= length column).
    { unfold active_qubits. etrans; [apply List.filter_length_le|]. by rewrite length_seq. }
    simpl. lia.
  - exists ladder. split; [|split; [done|]].
    + unfold find_minimal_cx_assignment. rewrite Hbin. simpl. fold mst.
      rewrite Hfill. simpl. rewrite Hroot. simpl.
      simpl in Hbfs. by rewrite Hbfs.
    + assert (NoDup tree) as Hnd
        by (apply (grow_NoDup [root] branches); [apply NoDup_singleton|done]).
      assert (tree ≡ₚ active_qubits column) as Hperm
        by (apply NoDup_Permutation; [done|apply active_qubits_NoDup|done]).
      apply Permutation_length in Hperm. rewrite <- Hperm.
      rewrite (grow_nodes _ _ _ Hgrow). simpl. by rewrite length_fmap.
Qed.

(** C3 (amended) — for a binary column with [k >= 1] active qubits, a
    root that is the default or an active qubit, and a topology that connects
    the active qubits, the ladder returned by [find_minimal_cx_assignment]
    has one segment of [2 * len(path) - 3] entries per branch of the spanning
    tree, hence at least [k - 1] entries; on a complete topology it has
    exactly [k - 1] entries (it is [two_qubit_count] that doubles it). *)
Theorem cx_ladder_length fuel column arch q0 root branches :
  is_binary column = true ->
  chosen_root column q0 = Ok root ->
  spanning_tree_of column root
    (minimum_spanning_edges (build_graph column arch)) branches = true ->
  paths_connect arch branches = true ->
  length column < fuel ->
  exists ladder,
    find_minimal_cx_assignment fuel column arch q0 = Ok (ladder, root) /\
    length (active_qubits column) - 1 <= length ladder /\
    length ladder
    = sum_list_with (fun e : nat * nat => segment_length arch e.2 e.1) branches /\
    (arch = complete_topology -> length ladder = length (active_qubits column) - 1).
Proof.
  intros Hbin Hroot Hspan Hpaths Hfuel.
  destruct (cx_assignment_on_tree fuel column arch q0 root branches)
    as (ladder & Hrun & Hlen & Hk); try done.
  exists ladder. split; [done|]. split; [|split; [done|]].
  - rewrite Hlen. pose proof (sum_segments_bounds arch branches). lia.
  - intros ->. rewrite Hlen, sum_segments_complete. lia.
Qed.

Lemma flat_map_all_nil {X Y} (f : X -> list Y) (l : list X) :
  (forall x, x ∈ l -> f x = []) -> flat_map f l = [].
Proof.
  induction l as [|x l IH]; simpl; [done|]. intros Hf.
  rewrite Hf by left. simpl. apply IH. intros y Hy. apply Hf. by right.
Qed.

Lemma build_graph_no_edges column arch :
  length (active_qubits column) <= 1 -> edges (build_graph column arch) = [].
Proof.
  intros Hk. unfold build_graph. simpl.
  assert (forall i j, i ∈ active_qubits column -> j ∈ active_qubits column -> i = j)
    as Hone.
  { pose proof (active_qubits_NoDup column) as Hnd.
    destruct (active_qubits column) as [|a [|b l]]; simpl in Hk; [| |lia].
    - intros i j Hi. by apply elem_of_nil in Hi.
    - by intros i j ->%list_elem_of_singleton ->%list_elem_of_singleton. }
  apply flat_map_all_nil. intros i Hi%elem_of_seq.
  apply flat_map_all_nil. intros j Hj%elem_of_seq.
  destruct (column_at column i =? 0)%Z eqn:Hci; [done|].
  destruct (column_at column j =? 0)%Z eqn:Hcj; [done|].
  destruct (i =? j) eqn:Hij; [done|]. exfalso.
  apply Nat.eqb_neq in Hij. apply Hij. apply Hone; apply active_qubits_elem.
  - split; [simpl in Hi; lia|]. by apply Z.eqb_neq.
  - split; [simpl in Hj; lia|]. by apply Z.eqb_neq.
Qed.

Lemma within_graph_no_edges G mst :
  edges G = [] -> within_graph G mst = true -> mst = [].
Proof.
  unfold within_graph. intros ->. destruct mst as [|[a b] mst]; [done|]. simpl. done.
Qed.

Lemma bfs_without_branches fuel arch n q :
  q < n -> bfs (S (S fuel)) arch (empty_incident n) ∅ [q] [] = Ok [].
Proof.
  intros Hq. simpl. rewrite empty_incident_lookup, decide_True by done.
  by rewrite elements_empty.
Qed.

Lemma bfs_without_branches_ladder fuel arch n q ladder :
  bfs fuel arch (empty_incident n) ∅ [q] [] = Ok ladder -> ladder = [].
Proof.
  destruct fuel as [|[|fuel]]; simpl; [done|..];
    rewrite empty_incident_lookup; destruct (decide (q < n)); try done;
    rewrite elements_empty; simpl; try done. by intros [= <-].
Qed.

(** C8 — for a binary column with zero or one active qubit and any
    topology, the ladder that [find_minimal_cx_assignment] returns is empty;
    and it does return one when the root is a qubit of the column. *)
Theorem cx_ladder_empty_for_at_most_one_active fuel column arch q0 :
  is_binary column = true ->
  length (active_qubits column) <= 1 ->
  within_graph (build_graph column arch)
    (minimum_spanning_edges (build_graph column arch)) = true ->
  (forall ladder root,
     find_minimal_cx_assignment fuel column arch q0 = Ok (ladder, root) -> ladder = []) /\
  (forall root, chosen_root column q0 = Ok root -> root < length column ->
     find_minimal_cx_assignment (S (S fuel)) column arch q0 = Ok ([], root)).
Proof.
  intros Hbin Hk Hwithin.
  pose proof (within_graph_no_edges _ _ (build_graph_no_edges column arch Hk) Hwithin)
    as Hmst.
  assert (forall fuel', find_minimal_cx_assignment fuel' column arch q0
          = let? root := chosen_root column q0 in
            let? ladder := bfs fuel' arch (empty_incident (length column)) ∅ [root] [] in
            Ok (ladder, root)) as Hrun.
  { intros fuel'. unfold find_minimal_cx_assignment. by rewrite Hbin, Hmst. }
  split.
  - intros ladder root. rewrite Hrun.
    destruct (chosen_root column q0) as [r| |]; simpl; [|done..].
    destruct (bfs _ _ _ _ _ _) as [l| |] eqn:Hbfs; simpl; [|done..].
    apply bfs_without_branches_ladder in Hbfs as ->. by intros [= <- _].
  - intros root Hroot Hlt. rewrite Hrun, Hroot. cbn [result_bind].
    by rewrite bfs_without_branches.
Qed.

Lemma fill_incident_raises mst incident e :
  fill_incident mst incident = Raise e -> e = KeyError.
Proof.
  revert incident. induction mst as [|[a b] mst IH]; intros incident; simpl; [done|].
  destruct (incident !! a); [|by intros [= <-]].
  destruct (_ !! b); [|by intros [= <-]]. apply IH.
Qed.

Lemma visit_incident_raises arch es visited queue ladder e :
  visit_incident arch es visited queue ladder = Raise e -> e = IndexError.
Proof.
  revert queue ladder. induction es as [|[t h] es IH]; intros queue ladder; simpl; [done|].
  destruct (decide (h ∈ visited)); [apply IH|].
  unfold decompose_cnot_ladder_z, second_to_last.
  destruct (length _ <? 2); simpl; [by intros [= <-]|].
  destruct (_ !! _); simpl; [apply IH|by intros [= <-]].
Qed.

Lemma bfs_raises fuel arch incident visited queue ladder e :
  bfs fuel arch incident visited queue ladder = Raise e ->
  e = KeyError \/ e = IndexError.
Proof.
  revert visited queue ladder.
  induction fuel as [|fuel IH]; intros visited queue ladder; simpl; [done|].
  destruct queue as [|q queue]; [done|].
  destruct (incident !! q); [|intros [= <-]; by left].
  destruct (visit_incident _ _ _ _ _) as [[queue' ladder']| |] eqn:Hv; simpl.
  - apply IH.
  - intros [= <-]. right. by eapply visit_incident_raises.
  - done.
Qed.

Lemma is_binary_false column :
  is_binary column = false <-> exists v, v ∈ column /\ v <> 0%Z /\ v <> 1%Z.
Proof.
  unfold is_binary. split.
  - intros Hb. induction column as [|v column IH]; simpl in *; [done|].
    apply andb_false_iff in Hb as [Hv|Hc].
    + exists v. apply orb_false_iff in Hv as [?%Z.eqb_neq ?%Z.eqb_neq].
      split; [left|done].
    + destruct (IH Hc) as (w & ? & ?). exists w. split; [by right|done].
  - intros (v & Hin & H0 & H1). apply not_true_iff_false. intros Hall.
    rewrite forallb_forall in Hall. apply list_elem_of_In, Hall in Hin.
    apply orb_prop in Hin as [?%Z.eqb_eq|?%Z.eqb_eq]; done.
Qed.

(** C7 (amended) — [find_minimal_cx_assignment] raises its "Expected binary
    array" exception if and only if the column holds a value other than 0 and
    1; then nothing is returned.  On a binary column this check never fails
    (any exception raised there is another one, from a later step). *)
Theorem cx_assignment_binary_check fuel column arch q0 :
  (find_minimal_cx_assignment fuel column arch q0 = Raise ExpectedBinaryArray
   <-> exists v, v ∈ column /\ v <> 0%Z /\ v <> 1%Z) /\
  (forall e, is_binary column = true ->
     find_minimal_cx_assignment fuel column arch q0 = Raise e ->
     e = ValueError \/ e = KeyError \/ e = IndexError).
Proof.
  assert (forall e, is_binary column = true ->
     find_minimal_cx_assignment fuel column arch q0 = Raise e ->
     e = ValueError \/ e = KeyError \/ e = IndexError) as Hlater.
  { intros e Hbin. unfold find_minimal_cx_assignment. rewrite Hbin. simpl.
    destruct (fill_incident _ _) as [incident| |] eqn:Hfill; simpl.
    - destruct (chosen_root column q0) as [root| |] eqn:Hroot; simpl.
      + destruct (bfs _ _ _ _ _ _) as [ladder| |] eqn:Hbfs; simpl; [done| |done].
        intros [= <-]. right. by eapply bfs_raises.
      + intros [= <-]. left. destruct q0; [done|]. simpl in Hroot.
        unfold argmax in Hroot. destruct column; congruence.
      + done.
    - intros [= <-]. right. left. by eapply fill_incident_raises.
    - done. }
  split; [|done]. rewrite <- is_binary_false. split.
  - intros Hrun. destruct (is_binary column) eqn:Hbin; [|done].
    destruct (Hlater _ eq_refl Hrun) as [?|[?|?]]; done.
  - intros Hbin. unfold find_minimal_cx_assignment. by rewrite Hbin.
Qed.

End CxAssignment.

(** Active qubits 0 and 2 of a line of three: one branch, a ladder of three
    entries through qubit 1. *)
Lemma cx_ladder_length_witness :
  exists ladder,
    find_minimal_cx_assignment (H:=prim_networkx) 4 [1; 0; 1]%Z line_topology None
    = Ok (ladder, 0) /\
    length (active_qubits [1; 0; 1]%Z) - 1 <= length ladder /\
    length ladder
    = sum_list_with (fun e : nat * nat => segment_length line_topology e.2 e.1) [(0, 2)] /\
    (line_topology = complete_topology ->
     length ladder = length (active_qubits [1; 0; 1]%Z) - 1).
Proof.
  exact (cx_ladder_length (H:=prim_networkx) 4 [1; 0; 1]%Z line_topology None 0 [(0, 2)]
           eq_refl eq_refl eq_refl eq_refl (le_n 4)).
Defined.

(** The claim as stated fails: on the complete topology with [k = 2] active
    qubits the ladder has [k - 1 = 1] entry, not [2 * (k - 1) = 2]. *)
Lemma cx_ladder_complete_two_active :
  find_minimal_cx_assignment (H:=prim_networkx) 3 [1; 1]%Z complete_topology None
  = Ok ([(1, 0)], 0) /\
  length (active_qubits [1; 1]%Z) = 2 /\
  length [(1, 0)] = 1 /\ 2 * (2 - 1) = 2.
Proof. repeat split. Qed.

(** The single active qubit 1 of three qubits on a line. *)
Lemma cx_ladder_empty_for_at_most_one_active_witness :
  (forall ladder root,
     find_minimal_cx_assignment (H:=prim_networkx) 0 [0; 1; 0]%Z line_topology None
     = Ok (ladder, root) -> ladder = []) /\
  (forall root, chosen_root [0; 1; 0]%Z None = Ok root -> root < length [0; 1; 0]%Z ->
     find_minimal_cx_assignment (H:=prim_networkx) 2 [0; 1; 0]%Z line_topology None
     = Ok ([], root)).
Proof.
  exact (cx_ladder_empty_for_at_most_one_active (H:=prim_networkx) 0 [0; 1; 0]%Z
           line_topology None eq_refl (le_n 1) eq_refl).
Defined.

(** The claim as stated fails: the empty column is binary, and the function
    raises all the same ([np.argmax] of an empty array is a ValueError); so
    does a binary column with a root outside of it (KeyError). *)
Lemma cx_assignment_raises_on_binary_column :
  is_binary [] = true /\
  find_minimal_cx_assignment (H:=prim_networkx) 5 [] complete_topology None
  = Raise ValueError /\
  is_binary [0; 1]%Z = true /\
  find_minimal_cx_assignment (H:=prim_networkx) 5 [0; 1]%Z complete_topology (Some 7)
  = Raise KeyError.
Proof. repeat split. Qed.

(** ** Synthesis: runs that return *)

Lemma bind_Ok_inv {S X Y} (c : M S X) (k : X -> M S Y) s y s' :
  bind c k s = (Ok y, s') ->
  exists x s1, c s = (Ok x, s1) /\ k x s1 = (Ok y, s').
Proof.
  unfold bind. destruct (c s) as [[x| |] s1]; [|done..]. intros Hk. by exists x, s1.
Qed.

Lemma ret_Ok_inv {S X} (x y : X) (s s' : S) :
  ret x s = (Ok y, s') -> y = x /\ s' = s.
Proof. by intros [= <- <-]. Qed.

Lemma getitem_Ok_inv {S X} (l : list X) i x (s s' : S) :
  getitem l i s = (Ok x, s') -> l !! i = Some x /\ s' = s.
Proof. unfold getitem. destruct (l !! i); [|done]. by intros [= <- <-]. Qed.

Lemma lift_Ok_inv {S X} (r : result X) x (s s' : S) :
  lift r s = (Ok x, s') -> r = Ok x /\ s' = s.
Proof. unfold lift. by intros [= <- <-]. Qed.

Lemma get_Ok_inv {S} (s x s' : S) : get s = (Ok x, s') -> x = s /\ s' = s.
Proof. by intros [= <- <-]. Qed.

(** Take a successful run of a sequence of steps apart. *)
Ltac run_inv H :=
  repeat match type of H with
         | bind _ _ _ = (Ok _, _) =>
             let x := fresh "x" in
             let s := fresh "s" in
             let Hc := fresh "Hc" in
             apply bind_Ok_inv in H as (x & s & Hc & H);
             try (apply get_Ok_inv in Hc as [-> ->])
         end.

Lemma identity_dict_lookup n k : k < n -> identity_dict n !! k = Some k.
Proof.
  intros Hk. unfold identity_dict. apply elem_of_list_to_map.
  - rewrite <- list_fmap_compose.
    apply NoDup_fmap_2; [by intros x y [= ->]|apply NoDup_seq].
  - apply list_elem_of_fmap. exists k. split; [done|]. apply elem_of_seq. lia.
Qed.

Lemma dict_values_identity {S} n keys (s : S) :
  Forall (fun k => k < n) keys ->
  dict_values (identity_dict n) keys s = (Ok keys, s).
Proof.
  induction 1 as [|k keys Hk _ IH]; simpl; [done|].
  rewrite (identity_dict_lookup n k Hk). by rewrite (bind_ok _ _ _ _ _ IH).
Qed.

Section SynthesisReturns.
Context {A : Type} `{Collaborators A}.

(** C9 — whenever [pauli_polynomial_steiner_gray_nc] returns, the qubit
    permutation it returns is the identity: the list [0, 1, ..., n - 1] for
    [n = pp.num_qubits]. *)
Theorem synthesis_returns_identity_permutation
    fuel n G (s : synth_state A) circ_out perm permutation s' :
  pauli_polynomial_steiner_gray_nc fuel n G s = (Ok (circ_out, perm, permutation), s') ->
  permutation = seq 0 n.
Proof.
  unfold pauli_polynomial_steiner_gray_nc. intros Hrun. run_inv Hrun.
  rewrite dict_values_identity in Hc1.
  - apply ret_Ok_inv in Hrun as [? _]. by simplify_eq.
  - apply Forall_forall. intros k Hk%elem_of_seq. lia.
Qed.

End SynthesisReturns.

(** ** Steps that only read the state *)

Lemma read_only_ret {S X} (x : X) : read_only (ret (S:=S) x).
Proof. done. Qed.

Lemma read_only_raise {S X} e : read_only (raise (S:=S) (A:=X) e).
Proof. done. Qed.

Lemma read_only_get {S} : read_only (get (S:=S)).
Proof. done. Qed.

Lemma read_only_lift {S X} (r : result X) : read_only (lift (S:=S) r).
Proof. done. Qed.

Lemma read_only_getitem {S X} (l : list X) i : read_only (getitem (S:=S) l i).
Proof. intros s. unfold getitem. by destruct (l !! i). Qed.

Lemma read_only_bind {S X Y} (c : M S X) (k : X -> M S Y) :
  read_only c -> (forall x, read_only (k x)) -> read_only (bind c k).
Proof.
  intros Hc Hk s. unfold bind. specialize (Hc s).
  destruct (c s) as [[x| |] s1]; simpl in *; subst; [apply Hk|done..].
Qed.

Lemma read_only_run {S X} (c : M S X) s r s' :
  read_only c -> c s = (r, s') -> s' = s.
Proof. intros Hc Hrun. specialize (Hc s). by rewrite Hrun in Hc. Qed.

Create HintDb read_only.
#[export] Hint Resolve read_only_ret read_only_raise read_only_get read_only_lift
  read_only_getitem : read_only.
#[export] Hint Extern 2 (read_only (bind _ _)) =>
  apply read_only_bind; [|intros ?] : read_only.
#[export] Hint Extern 3 (read_only (match ?x with _ => _ end)) => destruct x : read_only.

Lemma read_only_dict_values {S} d keys : read_only (dict_values (S:=S) d keys).
Proof.
  induction keys as [|i keys IH]; simpl; [auto with read_only|].
  destruct (d !! i); auto with read_only.
Qed.

Section ReadOnlySteps.
Context {A : Type} `{Collaborators A}.

Lemma read_only_pauli_at col q : read_only (pauli_at (A:=A) col q).
Proof. unfold pauli_at. auto with read_only. Qed.

Lemma read_only_pp_item_at col q : read_only (pp_item_at col q).
Proof. unfold pp_item_at. auto with read_only. Qed.

Lemma read_only_angle_at col : read_only (angle_at (A:=A) col).
Proof. unfold angle_at. auto with read_only. Qed.

Lemma read_only_columns_where (read : nat -> M (synth_state A) Pauli.t) p columns :
  (forall col, read_only (read col)) -> read_only (columns_where read p columns).
Proof. intros Hr. induction columns; simpl; auto with read_only. Qed.

Lemma read_only_max_by_score xs : read_only (max_by_score (S:=synth_state A) xs).
Proof. unfold max_by_score. destruct xs as [|[q sc] xs]; auto with read_only. Qed.

Lemma read_only_qubit_scores columns qubits : read_only (qubit_scores (A:=A) columns qubits).
Proof.
  induction qubits; simpl; [auto with read_only|].
  repeat (apply read_only_bind;
          [apply read_only_columns_where; intros; apply read_only_pauli_at|intros ?]).
  auto with read_only.
Qed.

Lemma read_only_pick_row columns qubits : read_only (pick_row (A:=A) columns qubits).
Proof.
  unfold pick_row. apply read_only_bind; [apply read_only_qubit_scores|].
  intros. apply read_only_max_by_score.
Qed.

Lemma read_only_compatible_on q1 q2 p1 p2 columns :
  read_only (compatible_on q1 q2 p1 p2 columns).
Proof.
  induction columns; simpl; [auto with read_only|].
  apply read_only_bind; [apply read_only_pp_item_at|intros ?].
  apply read_only_bind; [apply read_only_pp_item_at|intros ?].
  destruct (negb _); auto with read_only.
Qed.

Lemma read_only_first_compatible q1 q2 candidates columns :
  read_only (first_compatible q1 q2 candidates columns).
Proof.
  induction candidates as [|[p1 p2] cs IH]; simpl; [auto with read_only|].
  apply read_only_bind; [apply read_only_compatible_on|intros [|]]; auto with read_only.
Qed.

Lemma read_only_pick_best_pair edges columns qubits :
  read_only (pick_best_pair edges columns qubits).
Proof.
  induction edges as [|[q_1 q_2] es IH]; simpl; [auto with read_only|].
  destruct (_ && _); [|done].
  apply read_only_bind; [apply read_only_first_compatible|intros [?|]];
    auto with read_only.
Qed.

Lemma read_only_list_remove x xs : read_only (list_remove (S:=synth_state A) x xs).
Proof.
  induction xs as [|y xs IH]; simpl; [auto with read_only|].
  destruct (x =? y); auto with read_only.
Qed.

Lemma read_only_partition row columns :
  read_only (partition_pauli_polynomial (A:=A) row columns).
Proof.
  induction columns; simpl; [auto with read_only|].
  apply read_only_bind; [apply read_only_pauli_at|intros ?].
  apply read_only_bind; [done|intros [[[? ?] ?] ?]]. auto with read_only.
Qed.

Lemma read_only_partition_ row columns :
  read_only (partition_pauli_polynomial_ (A:=A) row columns).
Proof.
  unfold partition_pauli_polynomial_.
  apply read_only_bind; [apply read_only_partition|intros [[[? ?] ?] ?]].
  auto with read_only.
Qed.

End ReadOnlySteps.

(** ** Synthesis: rotations and partitions *)
Section SynthesisSteps.
Context {A : Type} `{Collaborators A}.
Implicit Types (s : synth_state A) (qc : list (gate A)).

Lemma rz_angles_app qc1 qc2 : rz_angles (qc1 ++ qc2) = rz_angles qc1 ++ rz_angles qc2.
Proof. unfold rz_angles. by rewrite omap_app. Qed.

Lemma emit_run r g qc s :
  emit r g qc s
  = (Ok (qc ++ [g]), mkSynth (pp_gadgets s) (perm_gadgets s) (trace s ++ [Emitted r g])).
Proof. done. Qed.

Lemma angle_at_Ok_inv col s a s' :
  angle_at col s = (Ok a, s') ->
  s' = s /\ exists g, pp_gadgets s !! col = Some g /\ a = angle g.
Proof.
  unfold angle_at. intros Hrun. run_inv Hrun.
  apply getitem_Ok_inv in Hc as [Hg ->]. apply ret_Ok_inv in Hrun as [-> ->].
  split; [done|]. eauto.
Qed.

Lemma Permutation_middle2 (a : nat) l1 l2 l3 :
  l1 ++ l2 ++ a :: l3 ≡ₚ a :: l1 ++ l2 ++ l3.
Proof. rewrite !app_assoc. symmetry. apply Permutation_middle. Qed.

Lemma Permutation_middle3 (a : nat) l1 l2 l3 l4 :
  l1 ++ l2 ++ l3 ++ a :: l4 ≡ₚ a :: l1 ++ l2 ++ l3 ++ l4.
Proof. rewrite !app_assoc. symmetry. apply Permutation_middle. Qed.

Lemma partition_run row columns s cols_i cols_x cols_y cols_z s' :
  partition_pauli_polynomial (A:=A) row columns s
  = (Ok (cols_i, cols_x, cols_y, cols_z), s') ->
  s' = s /\ cols_i ++ cols_x ++ cols_y ++ cols_z ≡ₚ columns.
Proof.
  intros Hrun. split; [by eapply read_only_run; [apply read_only_partition|]|].
  revert cols_i cols_x cols_y cols_z s' Hrun.
  induction columns as [|col columns IH]; intros ci cx cy cz s' Hrun; simpl in *.
  - by injection Hrun as <- <- <- <- <-.
  - run_inv Hrun. destruct x0 as [[[ci' cx'] cy'] cz'].
    apply ret_Ok_inv in Hrun as [Heq ->].
    assert (s0 = s) as -> by (by eapply read_only_run; [apply read_only_pauli_at|]).
    apply IH in Hc0. rewrite <- Hc0.
    destruct x; injection Heq as -> -> -> ->; simpl; [done|..].
    + symmetry. apply Permutation_middle.
    + apply Permutation_middle2.
    + apply Permutation_middle3.
Qed.

Lemma partition__run row columns s pp_i t1 t2 pp2 t_p1 pp1 s' :
  partition_pauli_polynomial_ (A:=A) row columns s
  = (Ok (pp_i, t1, t2, pp2, t_p1, pp1), s') ->
  s' = s /\ pp_i ++ pp2 ++ pp1 ≡ₚ columns.
Proof.
  unfold partition_pauli_polynomial_. intros Hrun. run_inv Hrun.
  destruct x as [[[ci cx] cy] cz]. apply partition_run in Hc as [-> Hperm].
  apply ret_Ok_inv in Hrun as [Heq ->]. split; [done|]. rewrite <- Hperm.
  destruct (_ && _); [|destruct (_ <=? _)]; injection Heq as -> _ _ -> _ ->.
  - by rewrite <- !app_assoc.
  - rewrite <- !app_assoc. apply Permutation_app_head, Permutation_app_head.
    apply Permutation_app_comm.
  - rewrite <- !app_assoc. apply Permutation_app_head.
    rewrite (app_assoc cy cz cx). apply Permutation_app_comm.
Qed.

End SynthesisSteps.

(** ** Synthesis with the polynomial class of pauli_polynomial.py *)
Section SourceRuns.
Context {A : Type}.
Variable find_common : nat -> list (PauliGadget A) -> result (option Pauli.t).
Variable cutting : nat -> list nat -> NxGraph -> bool.
Variable neg : A -> A.
Variable propagate_pauli : Clifford.t -> PauliGadget A -> PauliGadget A.
Local Abbreviation src := (source_polynomial_class find_common cutting neg propagate_pauli).
Implicit Types (s : synth_state A) (qc c : list (gate A)).

(** [pp.propagate(gate, columns_to_use)] never returns. *)
Lemma source_propagate_raises g columns s :
  fst (propagate (H:=src) g columns s) = Raise TypeError.
Proof. done. Qed.

Lemma source_propagate_not_Ok g columns s u s' :
  propagate (H:=src) g columns s = (Ok u, s') -> False.
Proof. intros Hrun. pose proof (source_propagate_raises g columns s) as Hr.
  by rewrite Hrun in Hr. Qed.

(** Neither does [pp[col]]. *)
Lemma source_pp_item_at_not_Ok col q s p s' :
  pp_item_at (H:=src) col q s = (Ok p, s') -> False.
Proof.
  unfold pp_item_at. intros Hrun. run_inv Hrun. by apply lift_Ok_inv in Hc as [? _].
Qed.

Lemma source_update_gadget_single_column c q p columns s c' s' :
  update_gadget_single_column (H:=src) c q p columns s = (Ok c', s') ->
  c' = c /\ s' = s.
Proof.
  destruct p; simpl; intros Hrun.
  - done.
  - run_inv Hrun. by apply source_propagate_not_Ok in Hc.
  - run_inv Hrun. by apply source_propagate_not_Ok in Hc.
  - by apply ret_Ok_inv in Hrun.
Qed.

Lemma source_update_single_qubits c qubits columns s c' s' :
  update_single_qubits (H:=src) c qubits columns s = (Ok c', s') ->
  c' = c /\ s' = s.
Proof.
  revert c s. induction qubits as [|q qubits IH]; intros c s Hrun; simpl in Hrun.
  - by apply ret_Ok_inv in Hrun.
  - run_inv Hrun. apply lift_Ok_inv in Hc as [_ ->].
    destruct x as [p|].
    + apply source_update_gadget_single_column in Hc0 as [-> ->]. by apply IH.
    + apply ret_Ok_inv in Hc0 as [-> ->]. by apply IH.
Qed.

End SourceRuns.

Lemma synthesis_returns_identity_permutation_witness : [0; 1] = seq 0 2.
Proof.
  exact (synthesis_returns_identity_permutation (H:=source_collaborators)
           10 2 (mkNxGraph [0; 1] []) idle_qubit_input _ _ _ _ eq_refl).
Defined.


(** ** Synthesis: the gates appended and the gates propagated *)

Lemma forward_cliffords_app {A} (e1 e2 : list (event A)) :
  forward_cliffords (e1 ++ e2) = forward_cliffords e1 ++ forward_cliffords e2.
Proof. apply omap_app. Qed.

Lemma propagated_cliffords_app {A} (e1 e2 : list (event A)) :
  propagated_cliffords (e1 ++ e2) = propagated_cliffords e1 ++ propagated_cliffords e2.
Proof. apply omap_app. Qed.

Lemma balanced_quiet {A X} (c : M (synth_state A) X) :
  (forall s x s', c s = (Ok x, s') -> trace s' = trace s) -> balanced c.
Proof. intros Hq s x s' Hrun. exists []. rewrite app_nil_r. eauto. Qed.

Lemma balanced_read_only {A X} (c : M (synth_state A) X) : read_only c -> balanced c.
Proof.
  intros Hc. apply balanced_quiet. intros s x s' Hrun.
  by rewrite (read_only_run _ _ _ _ Hc Hrun).
Qed.

Lemma balanced_bind {A X Y} (c : M (synth_state A) X) (k : X -> M (synth_state A) Y) :
  balanced c -> (forall x, balanced (k x)) -> balanced (bind c k).
Proof.
  intros Hc Hk s y s' Hrun. run_inv Hrun.
  apply Hc in Hc0 as (e1 & He1 & Hb1). apply Hk in Hrun as (e2 & He2 & Hb2).
  exists (e1 ++ e2). split; [by rewrite He2, He1, <- app_assoc|].
  by rewrite forward_cliffords_app, propagated_cliffords_app, Hb1, Hb2.
Qed.

Section Balance.
Context {A : Type} `{Collaborators A}.
Implicit Types (s : synth_state A) (qc c : list (gate A)).

Lemma propagate_Ok_inv g columns s u s' :
  propagate g columns s = (Ok u, s') ->
  trace s' = trace s ++ [Propagated g columns].
Proof.
  unfold propagate. destruct (call_propagate _ _ _); [|done..]. by intros [= _ <-].
Qed.

Lemma balanced_emit_undo g qc : balanced (emit Undo g qc).
Proof. intros s x s' [= _ <-]. by exists [Emitted Undo g]. Qed.

Lemma balanced_emit_rotation g qc : balanced (emit Rotation g qc).
Proof. intros s x s' [= _ <-]. by exists [Emitted Rotation g]. Qed.

Lemma balanced_perm_append col : balanced (perm_append (A:=A) col).
Proof. apply balanced_quiet. by intros s x s' [= _ <-]. Qed.

(** A gate is propagated, then appended. *)
Lemma balanced_propagate_emit g cl columns qc X (k : list (gate A) -> M (synth_state A) X) :
  clifford_of g = Some cl -> (forall qc', balanced (k qc')) ->
  balanced (propagate cl columns ;; let* qc' := emit Forward g qc in k qc').
Proof.
  intros Hg Hk s x s' Hrun. run_inv Hrun.
  apply propagate_Ok_inv in Hc. injection Hc0 as <- <-.
  apply Hk in Hrun as (evs & Hevs & Hb). simpl in Hevs.
  exists (Propagated cl columns :: Emitted Forward g :: evs). split.
  - by rewrite Hevs, Hc, <- !app_assoc.
  - unfold forward_cliffords, propagated_cliffords in *. simpl. rewrite Hg. simpl.
    by f_equal.
Qed.

(** A gate is appended, then propagated. *)
Lemma balanced_emit_propagate g cl columns qc X (k : list (gate A) -> M (synth_state A) X) :
  clifford_of g = Some cl -> (forall qc', balanced (k qc')) ->
  balanced (let* qc' := emit Forward g qc in propagate cl columns ;; k qc').
Proof.
  intros Hg Hk s x s' Hrun. run_inv Hrun.
  injection Hc as <- <-. apply propagate_Ok_inv in Hc0. simpl in Hc0.
  apply Hk in Hrun as (evs & Hevs & Hb).
  exists (Emitted Forward g :: Propagated cl columns :: evs). split.
  - by rewrite Hevs, Hc0, <- !app_assoc.
  - unfold forward_cliffords, propagated_cliffords in *. simpl. rewrite Hg. simpl.
    by f_equal.
Qed.

(** Two gates are appended, then propagated in the same order. *)
Lemma balanced_emit_emit_propagate g1 g2 cl1 cl2 columns qc X
    (k : list (gate A) -> M (synth_state A) X) :
  clifford_of g1 = Some cl1 -> clifford_of g2 = Some cl2 ->
  (forall qc', balanced (k qc')) ->
  balanced (let* qc' := emit Forward g1 qc in
            let* qc' := emit Forward g2 qc' in
            propagate cl1 columns ;; propagate cl2 columns ;; k qc').
Proof.
  intros Hg1 Hg2 Hk s x s' Hrun. run_inv Hrun.
  injection Hc as <- <-. injection Hc0 as <- <-.
  apply propagate_Ok_inv in Hc1, Hc2. simpl in Hc1.
  apply Hk in Hrun as (evs & Hevs & Hb).
  exists (Emitted Forward g1 :: Emitted Forward g2
          :: Propagated cl1 columns :: Propagated cl2 columns :: evs). split.
  - by rewrite Hevs, Hc2, Hc1, <- !app_assoc.
  - unfold forward_cliffords, propagated_cliffords in *. simpl. rewrite Hg1, Hg2. simpl.
    by do 2 f_equal.
Qed.

Lemma balanced_propagate_emit_last g cl columns qc :
  clifford_of g = Some cl ->
  balanced (propagate cl columns ;; emit Forward g qc).
Proof.
  intros Hg s x s' Hrun. run_inv Hrun.
  apply propagate_Ok_inv in Hc. injection Hrun as _ <-.
  exists [Propagated cl columns; Emitted Forward g]. split.
  - simpl. by rewrite Hc, <- !app_assoc.
  - unfold forward_cliffords, propagated_cliffords. simpl. by rewrite Hg.
Qed.

Lemma balanced_ret X (x : X) : balanced (ret (S:=synth_state A) x).
Proof. apply balanced_read_only, read_only_ret. Qed.

Lemma balanced_update_gadget_single_column qc q p columns :
  balanced (update_gadget_single_column qc q p columns).
Proof.
  destruct p; simpl.
  - by apply balanced_read_only.
  - by apply balanced_propagate_emit_last.
  - by apply balanced_propagate_emit_last.
  - apply balanced_ret.
Qed.

Lemma balanced_update_single_qubits c qubits columns :
  balanced (update_single_qubits c qubits columns).
Proof.
  revert c. induction qubits as [|q qubits IH]; intros c; simpl; [apply balanced_ret|].
  apply balanced_bind; [by apply balanced_read_only|intros s].
  apply balanced_bind; [by apply balanced_read_only|intros p].
  apply balanced_bind; [|done].
  destruct p; [apply balanced_update_gadget_single_column|apply balanced_ret].
Qed.

Lemma balanced_update_pair_loop fuel G c qubit_pairs non_visited columns :
  balanced (update_pair_loop fuel G c qubit_pairs non_visited columns).
Proof.
  revert c qubit_pairs non_visited.
  induction fuel as [|fuel IH]; intros c qubit_pairs non_visited; simpl; [done|].
  destruct qubit_pairs as [[[p1 p2] [q_1 q_2]]|]; [|apply balanced_ret].
  destruct non_visited as [|q non_visited]; [apply balanced_ret|].
  apply balanced_bind;
    [apply balanced_read_only, (read_only_list_remove (A:=A))|intros nv1].
  apply balanced_bind;
    [apply balanced_read_only, (read_only_list_remove (A:=A))|intros nv2].
  apply balanced_bind; [apply balanced_update_gadget_single_column|intros c1].
  apply balanced_bind; [apply balanced_update_gadget_single_column|intros c2].
  apply balanced_propagate_emit; [done|intros c3].
  apply balanced_bind; [apply balanced_read_only, read_only_pick_best_pair|intros qp].
  apply IH.
Qed.

Lemma balanced_update_pair_qubits G c qubits columns :
  balanced (update_pair_qubits G c qubits columns).
Proof.
  unfold update_pair_qubits.
  apply balanced_bind; [apply balanced_read_only, read_only_pick_best_pair|intros qp].
  apply balanced_update_pair_loop.
Qed.

Lemma balanced_basis_change_forward qc row rec_type columns :
  balanced (basis_change_forward qc row rec_type columns).
Proof.
  destruct rec_type; simpl; try apply balanced_ret.
  - apply (balanced_emit_propagate _ _ _ _ _ (fun qc' => ret qc'));
      [done|intros; apply balanced_ret].
  - apply (balanced_emit_propagate _ _ _ _ _ (fun qc' => ret qc'));
      [done|intros; apply balanced_ret].
Qed.

Lemma balanced_basis_change_back qc row rec_type :
  balanced (basis_change_back (A:=A) qc row rec_type).
Proof. destruct rec_type; simpl; auto using balanced_ret, balanced_emit_undo. Qed.

Lemma balanced_rotations qc columns row : balanced (rotations (A:=A) qc columns row).
Proof.
  revert qc. induction columns as [|col columns IH]; intros qc; simpl; [apply balanced_ret|].
  apply balanced_bind; [apply balanced_read_only, (read_only_angle_at (A:=A))|intros a].
  apply balanced_bind; [apply balanced_emit_rotation|intros qc'].
  apply balanced_bind; [apply balanced_perm_append|done].
Qed.

Lemma balanced_apply_rotation columns row rec_type :
  balanced (apply_rotation (A:=A) columns row rec_type).
Proof.
  unfold apply_rotation.
  apply balanced_bind;
    [destruct rec_type; auto using balanced_ret, balanced_emit_rotation|intros qc].
  apply balanced_bind; [apply balanced_rotations|intros qc'].
  destruct rec_type; auto using balanced_ret, balanced_emit_rotation.
Qed.

Lemma balanced_columns_where_item row p columns :
  balanced (columns_where (fun col => pp_item_at col row) p columns).
Proof.
  apply balanced_read_only, read_only_columns_where. intros. apply read_only_pp_item_at.
Qed.

Section Helpers.
Variable rec : list nat -> list nat -> nat -> Pauli.t -> M (synth_state A) (list (gate A)).
Hypothesis balanced_rec :
  forall columns qubits row rec_type, balanced (rec columns qubits row rec_type).

Lemma balanced_check_identity columns remaining row row_next rec_type :
  balanced (check_identity rec columns remaining row row_next rec_type).
Proof using balanced_rec.
  destruct columns as [|col columns]; simpl; [apply balanced_ret|].
  apply balanced_bind; [apply balanced_basis_change_forward|intros qc].
  apply balanced_emit_emit_propagate; [done..|intros qc1].
  apply balanced_bind; [apply balanced_rec|intros qc_i].
  apply balanced_bind; [apply balanced_emit_undo|intros qc2].
  apply balanced_bind; [apply balanced_emit_undo|intros qc3].
  apply balanced_basis_change_back.
Qed.

Lemma balanced_simplify_twp_p columns remaining row rec_type row_next t1 t2 :
  balanced (simplify_twp_p rec columns remaining row rec_type row_next t1 t2).
Proof using balanced_rec.
  unfold simplify_twp_p. destruct columns as [|col columns]; [apply balanced_ret|].
  cbv beta iota. generalize (col :: columns). clear col columns. intros columns.
  apply balanced_bind; [apply balanced_basis_change_forward|intros qc].
  apply balanced_bind.
  { destruct t1, t2; try apply balanced_ret.
    - apply (balanced_emit_propagate _ _ _ _ _ (fun qc' => ret qc'));
        [done|intros; apply balanced_ret].
    - apply (balanced_emit_propagate _ _ _ _ _ (fun qc' => ret qc'));
        [done|intros; apply balanced_ret]. }
  intros qc1. apply balanced_emit_propagate; [done|intros qc2].
  apply balanced_bind; [apply balanced_columns_where_item|intros c1].
  apply balanced_bind; [apply balanced_columns_where_item|intros c2].
  apply balanced_bind; [apply balanced_rec|intros qc_z].
  apply balanced_bind; [apply balanced_rec|intros qc_y].
  apply balanced_bind; [apply balanced_emit_undo|intros qc3].
  apply balanced_bind; [apply balanced_basis_change_back|intros qc4].
  destruct t1, t2; auto using balanced_ret, balanced_emit_undo.
Qed.

Lemma balanced_simplify_one_p columns remaining row rec_type row_next t :
  balanced (simplify_one_p rec columns remaining row rec_type row_next t).
Proof using balanced_rec.
  destruct columns as [|col columns]; simpl; [apply balanced_ret|].
  apply balanced_bind; [apply balanced_basis_change_forward|intros qc].
  apply balanced_bind; [apply balanced_basis_change_forward|intros qc1].
  apply balanced_emit_propagate; [done|intros qc2].
  apply balanced_bind; [apply balanced_rec|intros qc_].
  apply balanced_bind; [apply balanced_emit_undo|intros qc3].
  apply balanced_bind; [apply balanced_basis_change_back|intros qc4].
  apply balanced_basis_change_back.
Qed.

End Helpers.

Lemma balanced_recurse fuel G :
  (forall columns qubits, balanced (identity_recurse fuel G columns qubits)) /\
  (forall columns qubits row rec_type,
     balanced (p_recurse fuel G columns qubits row rec_type)).
Proof.
  induction fuel as [|fuel [IHi IHp]]; [by split|]. split.
  - intros columns qubits. simpl.
    destruct columns as [|col columns]; [apply balanced_ret|].
    apply balanced_bind; [apply balanced_update_single_qubits|intros qc_diag].
    apply balanced_bind; [apply balanced_update_pair_qubits|intros qc_diag'].
    apply balanced_bind;
      [apply balanced_read_only, (read_only_pick_row (A:=A))|intros row].
    apply balanced_bind;
      [apply balanced_read_only, (read_only_partition (A:=A))
      |intros [[[pp_i pp_x] pp_y] pp_z]].
    apply balanced_bind;
      [destruct (without row qubits); [apply balanced_apply_rotation|apply IHi]
      |intros qc_i].
    do 3 (apply balanced_bind; [apply IHp|intros ?]). apply balanced_ret.
  - intros columns qubits row rec_type. simpl.
    destruct (Pauli.eqb rec_type Pauli.I); [done|].
    destruct columns as [|col columns]; [apply balanced_ret|].
    destruct qubits as [|q qubits]; [apply balanced_apply_rotation|].
    destruct (neighbors G _ row) as [|nb nbs]; [done|].
    apply balanced_bind;
      [apply balanced_read_only, (read_only_pick_row (A:=A))|intros row_next].
    apply balanced_bind;
      [apply balanced_read_only, (read_only_partition_ (A:=A))
      |intros [[[[[pp_i t1] t2] pp2] t_p1] pp1]].
    apply balanced_bind;
      [destruct (negb _); [apply IHi|by apply balanced_check_identity]|intros qc_i].
    apply balanced_bind; [by apply balanced_simplify_twp_p|intros qc_two].
    apply balanced_bind; [by apply balanced_simplify_one_p|intros qc_one].
    apply balanced_ret.
Qed.

Lemma balanced_synthesis fuel n G :
  balanced (pauli_polynomial_steiner_gray_nc fuel n G).
Proof.
  unfold pauli_polynomial_steiner_gray_nc.
  apply balanced_bind; [by apply balanced_read_only|intros s0].
  apply balanced_bind; [apply balanced_quiet; by intros s x s' [= _ <-]|intros _].
  apply balanced_bind; [apply balanced_recurse|intros circ_out].
  apply balanced_bind; [apply balanced_read_only, read_only_dict_values|intros perm].
  apply balanced_bind; [by apply balanced_read_only|intros s1]. apply balanced_ret.
Qed.

End Balance.

(** * Further properties *)

(** ** Gadgets: commutation and mutual legs *)

(** X1 — [PauliGadget.commutes] raises exactly when the two Pauli lists
    differ in length, gives the same answer (or the same exception) with
    its arguments exchanged, and says that every gadget commutes with
    itself. *)
Theorem gadget_commutes_symmetric {A} (g h : PauliGadget A) :
  commutes g h = commutes h g /\
  commutes g g = Ok true /\
  (commutes g h = Raise PaulisLengthMismatch <-> length (paulis g) <> length (paulis h)) /\
  (length (paulis g) = length (paulis h) -> exists c, commutes g h = Ok c).
Proof.
  unfold commutes. repeat split.
  - rewrite (Nat.eqb_sym (length (paulis h))), mismatchcount_sym. done.
  - by rewrite Nat.eqb_refl, mismatchcount_refl.
  - destruct (_ =? _) eqn:Heq; simpl; [done|]. by intros _ ?%Nat.eqb_neq.
  - intros Hne. apply Nat.eqb_neq in Hne. by rewrite Hne.
  - intros ->%Nat.eqb_eq. simpl. eauto.
Qed.

Lemma match_count_value ps qs :
  length ps = length qs ->
  match_count ps qs
  = (2 * Z.of_nat (length (List.filter
                     (fun pq : Pauli.t * Pauli.t =>
                        negb (Pauli.eqb pq.1 Pauli.I) && negb (Pauli.eqb pq.2 Pauli.I))
                     (zip ps qs)))
     - Z.of_nat (length ps))%Z.
Proof.
  revert qs. induction ps as [|p ps IH]; intros [|q qs] Hlen; simpl in *; try done.
  rewrite IH by lia. destruct (negb _ && negb _); simpl; lia.
Qed.

Lemma zip_self_legs ps :
  length (List.filter
            (fun pq : Pauli.t * Pauli.t =>
               negb (Pauli.eqb pq.1 Pauli.I) && negb (Pauli.eqb pq.2 Pauli.I))
            (zip ps ps))
  = length (List.filter (fun pauli => negb (Pauli.eqb pauli Pauli.I)) ps).
Proof.
  induction ps as [|p ps IH]; simpl; [done|].
  destruct (negb (Pauli.eqb p Pauli.I)); simpl; by rewrite IH.
Qed.

Lemma match_count_sym ps qs : match_count ps qs = match_count qs ps.
Proof.
  revert qs. induction ps as [|p ps IH]; intros [|q qs]; simpl; try done.
  rewrite IH. by rewrite andb_comm.
Qed.

(** X2 — [PauliGadget.mutual_legs] of two gadgets of equal length is twice
    the number of qubits on which both have a leg, minus the number of
    qubits (a qubit on which one of them is the identity counts [-1]); it
    is symmetric, and of a gadget with itself it is [2 * num_legs - len]. *)
Theorem mutual_legs_counts_both_legs {A} (g h : PauliGadget A) :
  mutual_legs g h
  = (if length (paulis g) =? length (paulis h)
     then Ok (2 * Z.of_nat (length (List.filter
                   (fun pq : Pauli.t * Pauli.t =>
                      negb (Pauli.eqb pq.1 Pauli.I) && negb (Pauli.eqb pq.2 Pauli.I))
                   (zip (paulis g) (paulis h))))
              - Z.of_nat (length (paulis g)))%Z
     else Raise PaulisLengthMismatch) /\
  mutual_legs g h = mutual_legs h g /\
  mutual_legs g g = Ok (2 * Z.of_nat (num_legs g) - Z.of_nat (length (paulis g)))%Z.
Proof.
  unfold mutual_legs. repeat split.
  - destruct (_ =? _) eqn:Heq; simpl; [|done].
    apply Nat.eqb_eq in Heq. by rewrite match_count_value.
  - by rewrite (Nat.eqb_sym (length (paulis h))), match_count_sym.
  - rewrite Nat.eqb_refl. simpl. rewrite match_count_value by done.
    by rewrite zip_self_legs.
Qed.

(** ** Gadgets: swapping rows *)

Lemma py_index_lt len i n : py_index len i = Some n -> n < len.
Proof.
  unfold py_index.
  destruct (0 <=? i)%Z eqn:H1, (i <? Z.of_nat len)%Z eqn:H2,
    (- Z.of_nat len <=? i)%Z eqn:H3, (i <? 0)%Z eqn:H4; simpl;
    rewrite ?Z.leb_le, ?Z.leb_gt, ?Z.ltb_lt, ?Z.ltb_ge in *;
    intros [= <-]; lia.
Qed.

Lemma py_index_None len i :
  py_index len i = None <-> (i < - Z.of_nat len \/ Z.of_nat len <= i)%Z.
Proof.
  unfold py_index.
  destruct (0 <=? i)%Z eqn:H1, (i <? Z.of_nat len)%Z eqn:H2,
    (- Z.of_nat len <=? i)%Z eqn:H3, (i <? 0)%Z eqn:H4; simpl;
    rewrite ?Z.leb_le, ?Z.leb_gt, ?Z.ltb_lt, ?Z.ltb_ge in *;
    split; intros; try done; lia.
Qed.

Lemma swap_items_Ok_inv {X} (l l' : list X) a b :
  swap_items l a b = Ok l' ->
  exists ia ib xa xb,
    py_index (length l) a = Some ia /\ py_index (length l) b = Some ib /\
    l !! ia = Some xa /\ l !! ib = Some xb /\
    l' = <[ib := xa]> (<[ia := xb]> l).
Proof.
  unfold swap_items.
  destruct (py_index _ b) as [ib|]; [|done]. destruct (py_index _ a) as [ia|]; [|done].
  destruct (l !! ib) as [xb|] eqn:Hb; [|done]. destruct (l !! ia) as [xa|] eqn:Ha; [|done].
  intros [= <-]. by exists ia, ib, xa, xb.
Qed.

Lemma swap_items_run {X} (l : list X) a b ia ib :
  py_index (length l) a = Some ia -> py_index (length l) b = Some ib ->
  exists xa xb, l !! ia = Some xa /\ l !! ib = Some xb /\
    swap_items l a b = Ok (<[ib := xa]> (<[ia := xb]> l)).
Proof.
  intros Ha Hb. unfold swap_items. rewrite Ha, Hb.
  destruct (lookup_lt_is_Some_2 l ia (py_index_lt _ _ _ Ha)) as [xa Hxa].
  destruct (lookup_lt_is_Some_2 l ib (py_index_lt _ _ _ Hb)) as [xb Hxb].
  rewrite Hxa, Hxb. eauto.
Qed.

Lemma insert_swap_back {X} (l : list X) ia ib xa xb :
  l !! ia = Some xa -> l !! ib = Some xb ->
  <[ib := xb]> (<[ia := xa]> (<[ib := xa]> (<[ia := xb]> l))) = l.
Proof.
  intros Ha Hb. apply list_eq. intros i.
  destruct (decide (i = ib)) as [->|Hib].
  - rewrite list_lookup_insert_eq by (rewrite !length_insert; by eapply lookup_lt_Some).
    done.
  - rewrite list_lookup_insert_ne by done.
    destruct (decide (i = ia)) as [->|Hia].
    + rewrite list_lookup_insert_eq by (rewrite !length_insert; by eapply lookup_lt_Some).
      done.
    + by rewrite !list_lookup_insert_ne by done.
Qed.

Lemma insert_move_perm {X} (l : list X) j x y :
  l !! j = Some y -> y :: <[j := x]> l ≡ₚ x :: l.
Proof.
  revert j. induction l as [|a l IH]; intros [|j] Hj; simpl in *; try done.
  - injection Hj as ->. apply perm_swap.
  - rewrite (perm_swap a y). rewrite (IH j Hj). apply perm_swap.
Qed.

Lemma insert_swap_perm {X} (l : list X) ia ib xa xb :
  l !! ia = Some xa -> l !! ib = Some xb ->
  <[ib := xa]> (<[ia := xb]> l) ≡ₚ l.
Proof.
  revert ia ib. induction l as [|a l IH]; intros [|ia] [|ib] Ha Hb; simpl in *; try done.
  - by injection Ha as ->.
  - injection Ha as ->. by apply insert_move_perm.
  - injection Hb as ->. by apply insert_move_perm.
  - by rewrite (IH ia ib).
Qed.

Lemma swap_items_perm {X} (l l' : list X) a b : swap_items l a b = Ok l' -> l' ≡ₚ l.
Proof.
  intros (ia & ib & xa & xb & _ & _ & Ha & Hb & ->)%swap_items_Ok_inv.
  by apply insert_swap_perm.
Qed.

Lemma swap_items_length {X} (l l' : list X) a b :
  swap_items l a b = Ok l' -> length l' = length l.
Proof. intros Hs%swap_items_perm. by rewrite Hs. Qed.

Lemma swap_items_sym {X} (l : list X) a b : swap_items l a b = swap_items l b a.
Proof.
  unfold swap_items.
  destruct (py_index _ b) as [ib|], (py_index _ a) as [ia|]; try done.
  destruct (l !! ib) as [xb|] eqn:Hb, (l !! ia) as [xa|] eqn:Ha; try done.
  f_equal. destruct (decide (ia = ib)) as [->|Hne].
  - by simplify_eq.
  - by apply list_insert_insert_ne.
Qed.

Lemma swap_items_twice {X} (l l' : list X) a b :
  swap_items l a b = Ok l' -> swap_items l' a b = Ok l.
Proof.
  intros Hs. pose proof (swap_items_length _ _ _ _ Hs) as Hlen.
  apply swap_items_Ok_inv in Hs as (ia & ib & xa & xb & Hia & Hib & Ha & Hb & ->).
  unfold swap_items. rewrite Hlen, Hia, Hib.
  assert (ia < length l) by (by eapply lookup_lt_Some).
  assert (ib < length l) by (by eapply lookup_lt_Some).
  rewrite list_lookup_insert_eq by (by rewrite length_insert).
  destruct (decide (ia = ib)) as [->|Hne].
  - rewrite list_lookup_insert_eq by (by rewrite length_insert).
    simplify_eq. f_equal. by apply insert_swap_back.
  - rewrite list_lookup_insert_ne by done.
    rewrite list_lookup_insert_eq by done. f_equal. by apply insert_swap_back.
Qed.

Lemma swap_items_raises {X} (l : list X) a b e :
  swap_items l a b = Raise e ->
  e = IndexError /\ (py_index (length l) a = None \/ py_index (length l) b = None).
Proof.
  unfold swap_items.
  destruct (py_index _ b) as [ib|] eqn:Hib; [|intros [= <-]; auto].
  destruct (py_index _ a) as [ia|] eqn:Hia; [|intros [= <-]; auto].
  destruct (lookup_lt_is_Some_2 l ia (py_index_lt _ _ _ Hia)) as [xa ->].
  destruct (lookup_lt_is_Some_2 l ib (py_index_lt _ _ _ Hib)) as [xb ->]. done.
Qed.

Lemma num_legs_perm (ps qs : list Pauli.t) :
  ps ≡ₚ qs ->
  length (List.filter (fun pauli => negb (Pauli.eqb pauli Pauli.I)) ps)
  = length (List.filter (fun pauli => negb (Pauli.eqb pauli Pauli.I)) qs).
Proof.
  induction 1 as [|x l l' _ IH|x y l|l l' l'' _ IH1 _ IH2]; simpl; try done.
  - destruct (negb _); simpl; by rewrite IH.
  - by destruct (negb (Pauli.eqb x _)), (negb (Pauli.eqb y _)).
  - by rewrite IH1.
Qed.

(** X3 — [PauliGadget.swap_rows] exchanges the two entries and nothing
    else: the angle and the number of legs stay, the new list is a
    rearrangement of the old one, and swapping the same rows again gives
    the gadget back. *)
Theorem swap_rows_is_an_involution {A} (g g' : PauliGadget A) row1 row2 :
  swap_rows g row1 row2 = Ok g' ->
  swap_rows g' row1 row2 = Ok g /\
  angle g' = angle g /\ paulis g' ≡ₚ paulis g /\ num_legs g' = num_legs g.
Proof.
  unfold swap_rows. destruct g as [a ps]. simpl.
  destruct (swap_items ps row1 row2) as [ps'| |] eqn:Hs; simpl; [|done..].
  intros [= <-]. simpl. rewrite (swap_items_twice _ _ _ _ Hs). simpl.
  pose proof (swap_items_perm _ _ _ _ Hs) as Hp.
  repeat split; [done|]. unfold num_legs. simpl. by apply num_legs_perm.
Qed.

Lemma swap_rows_is_an_involution_witness :
  swap_rows (mkGadget 1%Z [Pauli.X; Pauli.I; Pauli.Z]) 2 (-3)
  = Ok (mkGadget 1%Z [Pauli.Z; Pauli.I; Pauli.X]) /\
  swap_rows (mkGadget 1%Z [Pauli.Z; Pauli.I; Pauli.X]) 2 (-3)
  = Ok (mkGadget 1%Z [Pauli.X; Pauli.I; Pauli.Z]) /\
  1%Z = 1%Z /\ [Pauli.Z; Pauli.I; Pauli.X] ≡ₚ [Pauli.X; Pauli.I; Pauli.Z] /\
  num_legs (mkGadget 1%Z [Pauli.Z; Pauli.I; Pauli.X])
  = num_legs (mkGadget 1%Z [Pauli.X; Pauli.I; Pauli.Z]).
Proof.
  exact (conj eq_refl
           (swap_rows_is_an_involution (mkGadget 1%Z [Pauli.X; Pauli.I; Pauli.Z])
              (mkGadget 1%Z [Pauli.Z; Pauli.I; Pauli.X]) 2 (-3) eq_refl)).
Defined.

(** X4 — [PauliGadget.swap_rows] raises IndexError, and changes nothing,
    exactly when one of the two rows is outside [-len .. len - 1]; no other
    exception is raised. *)
Theorem swap_rows_raises_out_of_range {A} (g : PauliGadget A) row1 row2 :
  (swap_rows g row1 row2 = Raise IndexError <->
   (row1 < - Z.of_nat (length (paulis g)) \/ Z.of_nat (length (paulis g)) <= row1 \/
    row2 < - Z.of_nat (length (paulis g)) \/ Z.of_nat (length (paulis g)) <= row2)%Z) /\
  (forall e, swap_rows g row1 row2 = Raise e -> e = IndexError) /\
  swap_rows g row1 row2 <> OutOfFuel.
Proof.
  unfold swap_rows.
  destruct (swap_items (paulis g) row1 row2) as [ps'|e|] eqn:Hs; simpl.
  - split; [|done]. split; [done|]. intros Hrange.
    apply swap_items_Ok_inv in Hs as (ia & ib & xa & xb & Hia & Hib & _).
    assert (py_index (length (paulis g)) row1 = None \/
            py_index (length (paulis g)) row2 = None) as [Hn|Hn]
      by (rewrite !py_index_None; lia); congruence.
  - apply swap_items_raises in Hs as [-> Hn]. split; [|split; [by intros ? [= <-]|done]].
    split; [|done]. intros _. rewrite !py_index_None in Hn. lia.
  - exfalso. unfold swap_items in Hs.
    by repeat (destruct (py_index _ _) || destruct (_ !! _)).
Qed.

(** ** Gadgets: permute *)

Lemma permute_loop_perm items ps ps' : permute_loop items ps = Ok ps' -> ps' ≡ₚ ps.
Proof.
  revert ps. induction items as [|[k v] items IH]; intros ps; simpl.
  - by intros [= <-].
  - destruct (swap_items ps k v) as [ps1| |] eqn:Hs; simpl; [|done..].
    intros Hrest%IH. rewrite Hrest. by eapply swap_items_perm.
Qed.

(** X5 — [PauliGadget.permute] swaps once per item of the dict, one after
    the other: whatever the dict, the result is a rearrangement of the same
    Pauli values with the same angle; and for the dict of a transposition,
    [{a: b, b: a}], the two swaps cancel and the gadget is left as it was. *)
Theorem permute_transposition_is_identity {A} (g : PauliGadget A) :
  (forall permutation g',
     permute g permutation = Ok g' ->
     angle g' = angle g /\ paulis g' ≡ₚ paulis g /\ num_legs g' = num_legs g) /\
  (forall a b,
     (- Z.of_nat (length (paulis g)) <= a < Z.of_nat (length (paulis g)))%Z ->
     (- Z.of_nat (length (paulis g)) <= b < Z.of_nat (length (paulis g)))%Z ->
     permute g [(a, b); (b, a)] = Ok g).
Proof.
  split.
  - intros permutation g'. unfold permute.
    destruct (permute_loop _ _) as [ps'| |] eqn:Hp; simpl; [|done..].
    intros [= <-]. simpl. apply permute_loop_perm in Hp.
    repeat split; [done|]. unfold num_legs. simpl. by apply num_legs_perm.
  - intros a b Ha Hb. unfold permute. simpl.
    destruct (py_index (length (paulis g)) a) as [ia|] eqn:Hia.
    2:{ apply py_index_None in Hia. lia. }
    destruct (py_index (length (paulis g)) b) as [ib|] eqn:Hib.
    2:{ apply py_index_None in Hib. lia. }
    destruct (swap_items_run (paulis g) a b ia ib Hia Hib) as (xa & xb & _ & _ & Hs).
    rewrite Hs. simpl. rewrite swap_items_sym.
    rewrite (swap_items_twice _ _ _ _ Hs). simpl. by destruct g.
Qed.

Lemma permute_transposition_is_identity_witness :
  permute (mkGadget 1%Z [Pauli.X; Pauli.Y; Pauli.Z]) [(0, 2); (2, 0)]%Z
  = Ok (mkGadget 1%Z [Pauli.X; Pauli.Y; Pauli.Z]).
Proof.
  exact (proj2 (permute_transposition_is_identity
                  (mkGadget 1%Z [Pauli.X; Pauli.Y; Pauli.Z])) 0%Z 2%Z
           ltac:(simpl; lia) ltac:(simpl; lia)).
Defined.

(** ** Gadgets: decompose *)

Lemma elem_of_imap_pair {X} (l : list X) i x :
  (i, x) ∈ imap pair l <-> l !! i = Some x.
Proof.
  rewrite elem_of_lookup_imap. split.
  - by intros (j & y & [= -> ->] & Hl).
  - intros Hl. by exists i, x.
Qed.

(** X6 — [PauliGadget.decompose(q0)] returns [q0] itself and these gates:
    an [H] on exactly the X legs, a [V] on exactly the Y legs, and a
    [CX(q, q0)] for exactly the legs [q] other than [q0]; whether [q0] is a
    leg, or a qubit of the gadget at all, is not looked at. *)
Theorem decompose_gates {A} (g : PauliGadget A) (q0 : nat) :
  snd (decompose g q0) = q0 /\
  (forall q, Clifford.H q ∈ fst (decompose g q0) <-> paulis g !! q = Some Pauli.X) /\
  (forall q, Clifford.V q ∈ fst (decompose g q0) <-> paulis g !! q = Some Pauli.Y) /\
  (forall q t, Clifford.CX q t ∈ fst (decompose g q0) <->
     t = q0 /\ q <> q0 /\ exists p, paulis g !! q = Some p /\ p <> Pauli.I).
Proof.
  unfold decompose, basis_cliffords, leg_cliffords. simpl.
  split; [done|]. repeat split.
  - intros [Hin|Hin]%elem_of_app.
    + apply list_elem_of_omap in Hin as ([i p] & Hi%elem_of_imap_pair & Hp).
      destruct p; by simplify_eq.
    + apply list_elem_of_omap in Hin as ([i p] & _ & Hp).
      destruct (i =? q0); [done|]. by destruct (negb _).
  - intros Hq. apply elem_of_app. left. apply list_elem_of_omap.
    exists (q, Pauli.X). split; [by apply elem_of_imap_pair|done].
  - intros [Hin|Hin]%elem_of_app.
    + apply list_elem_of_omap in Hin as ([i p] & Hi%elem_of_imap_pair & Hp).
      destruct p; by simplify_eq.
    + apply list_elem_of_omap in Hin as ([i p] & _ & Hp).
      destruct (i =? q0); [done|]. by destruct (negb _).
  - intros Hq. apply elem_of_app. left. apply list_elem_of_omap.
    exists (q, Pauli.Y). split; [by apply elem_of_imap_pair|done].
  - apply elem_of_app in H as [Hin|Hin];
      apply list_elem_of_omap in Hin as ([i p] & Hi & Hp).
    + by destruct p.
    + destruct (i =? q0); [done|]. destruct (negb _); [|done]. by simplify_eq.
  - apply elem_of_app in H as [Hin|Hin];
      apply list_elem_of_omap in Hin as ([i p] & Hi & Hp).
    + by destruct p.
    + destruct (i =? q0) eqn:Hne; [done|]. destruct (negb _); [|done].
      apply Nat.eqb_neq in Hne. by simplify_eq.
  - apply elem_of_app in H as [Hin|Hin];
      apply list_elem_of_omap in Hin as ([i p] & Hi%elem_of_imap_pair & Hp).
    + by destruct p.
    + destruct (i =? q0); [done|]. destruct (negb _) eqn:Hleg; [|done].
      simplify_eq. exists p. split; [done|]. intros ->. done.
  - intros (-> & Hne & p & Hq & Hp). apply elem_of_app. right.
    apply list_elem_of_omap. exists (q, p). split; [by apply elem_of_imap_pair|].
    apply Nat.eqb_neq in Hne. rewrite Hne. by destruct p.
Qed.

(** ** CX ladders along a path *)

Lemma ladder_loop_adjacent (path pre : list nat) prev rest suffix acc :
  path = pre ++ prev :: rest ++ suffix ->
  (forall a b, (a, b) ∈ acc ->
     exists i, (path !! i = Some a /\ path !! S i = Some b) \/
               (path !! i = Some b /\ path !! S i = Some a)) ->
  forall a b, (a, b) ∈ ladder_loop prev rest acc ->
    exists i, (path !! i = Some a /\ path !! S i = Some b) \/
              (path !! i = Some b /\ path !! S i = Some a).
Proof.
  revert pre prev acc. induction rest as [|c rest IH]; intros pre prev acc Hpath Hacc;
    simpl; [done|].
  apply (IH (pre ++ [prev]) c).
  - by rewrite Hpath, <- app_assoc.
  - assert (path !! length pre = Some prev /\ path !! S (length pre) = Some c) as [H0 H1].
    { rewrite Hpath. split.
      - by rewrite lookup_app_r, Nat.sub_diag by lia.
      - rewrite lookup_app_r by lia. by replace (S (length pre) - length pre) with 1 by lia. }
    intros a b [Hin|Hin]%elem_of_app; [by apply Hacc|].
    exists (length pre).
    apply elem_of_cons in Hin as [[= -> ->]|Hin]; [by right|].
    apply list_elem_of_singleton in Hin as [= -> ->]. by left.
Qed.

Lemma decompose_cnot_ladder_z_on_path ctrl trg arch :
  2 <= length (shortest_path arch ctrl trg) ->
  shortest_path arch ctrl trg !! 0 = Some ctrl ->
  last (shortest_path arch ctrl trg) = Some trg ->
  exists before segment,
    decompose_cnot_ladder_z ctrl trg arch = Ok ((before, trg) :: segment) /\
    length ((before, trg) :: segment) = 2 * length (shortest_path arch ctrl trg) - 3 /\
    forall a b, (a, b) ∈ (before, trg) :: segment ->
      exists i,
        (shortest_path arch ctrl trg !! i = Some a /\
         shortest_path arch ctrl trg !! S i = Some b) \/
        (shortest_path arch ctrl trg !! i = Some b /\
         shortest_path arch ctrl trg !! S i = Some a).
Proof.
  intros Hlen Hfirst Hlast.
  destruct (decompose_cnot_ladder_z_length ctrl trg arch Hlen) as (seg & Hrun & Hseg).
  unfold decompose_cnot_ladder_z in *.
  set (path := shortest_path arch ctrl trg) in *.
  unfold second_to_last in *.
  destruct (length path <? 2) eqn:Hlt; [apply Nat.ltb_lt in Hlt; lia|].
  destruct (path !! (length path - 2)) as [x|] eqn:Hx; [|done]. simpl in *.
  rewrite rev_app_distr in *. simpl in *. injection Hrun as <-.
  exists x, (rev (ladder_loop ctrl (inner_path path) [])). split; [done|].
  split; [unfold segment_length in Hseg; fold path in Hseg; simpl in Hseg |- *; lia|].
  assert (exists mid, path = ctrl :: mid ++ [trg] /\ inner_path path = mid)
    as (mid & Hpath & Hinner).
  { destruct path as [|c rest]; [done|]. injection Hfirst as ->.
    destruct rest as [|r rest _] using rev_ind; [simpl in Hlen; lia|].
    rewrite app_comm_cons, last_snoc in Hlast. injection Hlast as ->.
    exists rest. split; [done|]. unfold inner_path. simpl. by rewrite removelast_last. }
  intros a b [[= -> ->]|Hin]%elem_of_cons.
  - exists (length path - 2). left. split; [done|].
    replace (S (length path - 2)) with (length path - 1) by lia.
    rewrite Hpath. rewrite app_comm_cons, lookup_app_r; rewrite length_app; simpl; [|lia].
    by replace (_ - _) with 0 by lia.
  - apply list_elem_of_In, in_rev, list_elem_of_In in Hin. rewrite Hinner in Hin.
    apply (ladder_loop_adjacent path [] ctrl mid [trg] []); [done| |done].
    intros ? ? Hnil. by apply elem_of_nil in Hnil.
Qed.

(** X7 — [decompose_cnot_ladder_z(ctrl, trg, arch)] raises IndexError when
    the shortest path has fewer than two qubits; on a path of [len >= 2]
    qubits from [ctrl] to [trg] it returns [2 * len - 3] pairs, the first
    one ending in [trg], and every pair joins two consecutive qubits of the
    path. *)
Theorem cnot_ladder_follows_path ctrl trg arch :
  (length (shortest_path arch ctrl trg) < 2 ->
   decompose_cnot_ladder_z ctrl trg arch = Raise IndexError) /\
  (2 <= length (shortest_path arch ctrl trg) ->
   shortest_path arch ctrl trg !! 0 = Some ctrl ->
   last (shortest_path arch ctrl trg) = Some trg ->
   exists before segment,
     decompose_cnot_ladder_z ctrl trg arch = Ok ((before, trg) :: segment) /\
     length ((before, trg) :: segment) = 2 * length (shortest_path arch ctrl trg) - 3 /\
     forall a b, (a, b) ∈ (before, trg) :: segment ->
       exists i,
         (shortest_path arch ctrl trg !! i = Some a /\
          shortest_path arch ctrl trg !! S i = Some b) \/
         (shortest_path arch ctrl trg !! i = Some b /\
          shortest_path arch ctrl trg !! S i = Some a)).
Proof.
  split; [apply decompose_cnot_ladder_z_short|apply decompose_cnot_ladder_z_on_path].
Qed.

Lemma cnot_ladder_follows_path_witness :
  exists before segment,
    decompose_cnot_ladder_z 0 3 line_topology = Ok ((before, 3) :: segment) /\
    length ((before, 3) :: segment) = 2 * length (shortest_path line_topology 0 3) - 3 /\
    forall a b, (a, b) ∈ (before, 3) :: segment ->
      exists i,
        (shortest_path line_topology 0 3 !! i = Some a /\
         shortest_path line_topology 0 3 !! S i = Some b) \/
        (shortest_path line_topology 0 3 !! i = Some b /\
         shortest_path line_topology 0 3 !! S i = Some a).
Proof.
  exact (proj2 (cnot_ladder_follows_path 0 3 line_topology)
           ltac:(vm_compute; lia) eq_refl eq_refl).
Defined.

(** ** Gadgets: the leg pattern, its root and the two-qubit count *)

Lemma legs_is_binary (ps : list Pauli.t) :
  is_binary (map (fun p => if negb (Pauli.eqb p Pauli.I) then 1%Z else 0%Z) ps) = true.
Proof. induction ps as [|p ps IH]; simpl; [done|]. rewrite IH. by destruct p. Qed.

Lemma active_qubits_snoc column v :
  active_qubits (column ++ [v])
  = active_qubits column ++ (if negb (v =? 0)%Z then [length column] else []).
Proof.
  unfold active_qubits. rewrite length_app. simpl.
  rewrite Nat.add_1_r, seq_S, List.filter_app. simpl. f_equal.
  - apply List.filter_ext_in. intros i Hi%in_seq. unfold column_at.
    by rewrite app_nth1 by lia.
  - unfold column_at. rewrite app_nth2, Nat.sub_diag by lia. simpl.
    by destruct (negb _).
Qed.

Lemma active_qubits_count column :
  length (active_qubits column)
  = length (List.filter (fun v => negb (v =? 0)%Z) column).
Proof.
  induction column as [|v column IH] using rev_ind; [done|].
  rewrite active_qubits_snoc, List.filter_app, !length_app, IH. simpl.
  by destruct (negb _).
Qed.

Lemma active_legs_count (ps : list Pauli.t) :
  length (active_qubits
            (map (fun p => if negb (Pauli.eqb p Pauli.I) then 1%Z else 0%Z) ps))
  = length (List.filter (fun pauli => negb (Pauli.eqb pauli Pauli.I)) ps).
Proof.
  rewrite active_qubits_count. induction ps as [|p ps IH]; simpl; [done|].
  destruct (negb (Pauli.eqb p Pauli.I)); simpl; by rewrite IH.
Qed.

Lemma argmax_from_top best i column :
  is_binary column = true -> argmax_from best 1%Z i column = best.
Proof.
  revert i. induction column as [|v column IH]; intros i Hbin; simpl in *; [done|].
  apply andb_prop in Hbin as [Hv Hbin].
  assert ((1 <? v)%Z = false) as ->; [|by apply IH].
  apply orb_prop in Hv as [?%Z.eqb_eq|?%Z.eqb_eq]; subst; done.
Qed.

Lemma argmax_from_first best i column :
  is_binary column = true ->
  (argmax_from best 0%Z i column = best /\ Forall (fun v => v = 0%Z) column) \/
  (exists k, argmax_from best 0%Z i column = i + k /\ column !! k = Some 1%Z /\
             forall j, j < k -> column !! j = Some 0%Z).
Proof.
  revert i. induction column as [|v column IH]; intros i Hbin; simpl in *; [by left|].
  apply andb_prop in Hbin as [Hv Hbin].
  apply orb_prop in Hv as [->%Z.eqb_eq| ->%Z.eqb_eq]; simpl.
  - destruct (IH (S i) Hbin) as [[-> Hall]|(k & -> & Hk & Hbefore)].
    + left. split; [done|]. by constructor.
    + right. exists (S k). split; [lia|]. split; [done|].
      intros [|j] Hj; [done|]. apply Hbefore. lia.
  - right. exists 0. rewrite argmax_from_top by done. split; [lia|]. split; [done|]. lia.
Qed.

(** The root that [np.argmax] picks in a 0/1 column that has a 1 is its
    first 1. *)
Lemma argmax_first_active column q0 :
  is_binary column = true -> argmax column = Ok q0 ->
  (exists v, v ∈ column /\ v <> 0%Z) ->
  column !! q0 = Some 1%Z /\ forall j, j < q0 -> column !! j = Some 0%Z.
Proof.
  destruct column as [|v column]; [done|]. simpl. intros Hbin [= <-] (w & Hw & Hw0).
  apply andb_prop in Hbin as [Hv Hbin].
  apply orb_prop in Hv as [->%Z.eqb_eq| ->%Z.eqb_eq].
  - destruct (argmax_from_first 0 1 column Hbin) as [[_ Hall]|(k & -> & Hk & Hbefore)].
    + apply elem_of_cons in Hw as [->|Hw]; [done|].
      rewrite Forall_forall in Hall. by apply Hall in Hw.
    + split; [done|]. intros [|j] Hj; [done|]. apply Hbefore. simpl in Hj. lia.
  - rewrite argmax_from_top by done. split; [done|]. lia.
Qed.

Lemma paths_connect_complete root branches tree :
  grow [root] branches = Some tree -> paths_connect complete_topology branches = true.
Proof.
  intros Hgrow. unfold paths_connect. apply forallb_forall. intros [u v] Hin%list_elem_of_In.
  destruct (grow_branch _ _ _ _ _ Hgrow Hin) as (_ & _ & _ & Hne). simpl.
  destruct (v =? u) eqn:Heq; [apply Nat.eqb_eq in Heq; congruence|done].
Qed.

Section GadgetCounts.
Context `{NetworkX} {A : Type}.
Implicit Types (g : PauliGadget A).

(** X8 — on the complete topology, for a gadget with [k >= 1] legs whose
    leg graph the library call answers with a spanning tree of the legs,
    [PauliGadget.two_qubit_count] is [2 * (k - 1)]. *)
Theorem two_qubit_count_on_complete_topology fuel g root branches :
  argmax (map (fun p => if negb (Pauli.eqb p Pauli.I) then 1%Z else 0%Z) (paulis g))
  = Ok root ->
  spanning_tree_of
    (map (fun p => if negb (Pauli.eqb p Pauli.I) then 1%Z else 0%Z) (paulis g)) root
    (minimum_spanning_edges
       (build_graph
          (map (fun p => if negb (Pauli.eqb p Pauli.I) then 1%Z else 0%Z) (paulis g))
          complete_topology))
    branches = true ->
  length (paulis g) < fuel ->
  two_qubit_count fuel g complete_topology = Ok (2 * (num_legs g - 1)).
Proof.
  intros Hroot Hspan Hfuel. unfold two_qubit_count.
  set (col := map _ (paulis g)) in *.
  assert (exists tree, grow [root] branches = Some tree) as [tree Hgrow].
  { unfold spanning_tree_of in Hspan. apply andb_prop in Hspan as [_ Hspan].
    destruct (grow [root] branches); [eauto|done]. }
  destruct (cx_assignment_on_tree fuel col complete_topology None root branches)
    as (ladder & -> & Hlen & Hk).
  - apply legs_is_binary.
  - done.
  - done.
  - by eapply paths_connect_complete.
  - unfold col. by rewrite length_map.
  - simpl. rewrite Hlen, sum_segments_complete.
    unfold col in Hk. rewrite active_legs_count in Hk. unfold num_legs.
    f_equal. lia.
Qed.

End GadgetCounts.

Lemma two_qubit_count_on_complete_topology_witness :
  two_qubit_count (H:=prim_networkx) 10
    (mkGadget 7%Z [Pauli.X; Pauli.I; Pauli.Z; Pauli.Y]) complete_topology
  = Ok (2 * (num_legs (mkGadget 7%Z [Pauli.X; Pauli.I; Pauli.Z; Pauli.Y]) - 1)).
Proof.
  exact (two_qubit_count_on_complete_topology (H:=prim_networkx) 10
           (mkGadget 7%Z [Pauli.X; Pauli.I; Pauli.Z; Pauli.Y]) 0 [(0, 2); (0, 3)]
           eq_refl ltac:(vm_compute; reflexivity) ltac:(simpl; lia)).
Defined.

(** ** Gadgets: circuits *)

Lemma legs_column_eq (ps : list Pauli.t) :
  map (fun p => if Pauli.eqb p Pauli.I then 0%Z else 1%Z) ps
  = map (fun p => if negb (Pauli.eqb p Pauli.I) then 1%Z else 0%Z) ps.
Proof. apply map_ext. intros p. by destruct p. Qed.

Lemma legs_all_zero (ps : list Pauli.t) :
  forallb (fun v => (v =? 0)%Z)
    (map (fun p => if negb (Pauli.eqb p Pauli.I) then 1%Z else 0%Z) ps)
  = (length (List.filter (fun pauli => negb (Pauli.eqb pauli Pauli.I)) ps) =? 0).
Proof.
  induction ps as [|p ps IH]; simpl; [done|]. destruct p; simpl; by rewrite ?IH.
Qed.

Lemma legs_column_lookup (ps : list Pauli.t) q :
  map (fun p => if negb (Pauli.eqb p Pauli.I) then 1%Z else 0%Z) ps !! q
  = (fun p => if negb (Pauli.eqb p Pauli.I) then 1%Z else 0%Z) <$> ps !! q.
Proof. apply list_lookup_fmap. Qed.

Lemma cx_count_app {A} (qc1 qc2 : list (gate A)) :
  cx_count (qc1 ++ qc2) = cx_count qc1 + cx_count qc2.
Proof. unfold cx_count. by rewrite List.filter_app, length_app. Qed.

Lemma cx_count_ladder_gates {A} ladder : cx_count (ladder_gates (A:=A) ladder) = length ladder.
Proof.
  unfold cx_count, ladder_gates. induction ladder as [|[c t] ladder IH]; simpl; [done|].
  by rewrite IH.
Qed.

Lemma cx_count_cons {A} (x : gate A) qc : cx_count (x :: qc) = cx_count [x] + cx_count qc.
Proof. apply (cx_count_app [x] qc). Qed.

Lemma cx_count_basis_gates {A} (y_gate : nat -> gate A) ps :
  (forall q, cx_count [y_gate q] = 0) -> cx_count (basis_gates y_gate ps) = 0.
Proof.
  intros Hy. unfold basis_gates. generalize (imap pair ps). intros l.
  induction l as [|[i p] l IH]; [done|].
  specialize (Hy i). unfold cx_count in *.
  destruct p; simpl; try exact IH. destruct (y_gate i); simpl in *; done.
Qed.

Section GadgetCircuits.
Context `{NetworkX} {A : Type}.
Implicit Types (g : PauliGadget A).

Lemma find_minimal_cx_assignment_root fuel column arch ladder q0 :
  find_minimal_cx_assignment fuel column arch None = Ok (ladder, q0) ->
  argmax column = Ok q0.
Proof.
  unfold find_minimal_cx_assignment. destruct (negb _); [done|].
  destruct (fill_incident _ _); simpl; [|done..].
  destruct (argmax column) as [root| |]; simpl; [|done..].
  destruct (bfs _ _ _ _ _ _); simpl; [|done..]. by intros [= _ <-].
Qed.

Lemma to_circuit_without_legs fuel g topology :
  num_legs g = 0 -> to_circuit fuel g topology = Ok (mkCircuit [] [angle g]).
Proof.
  unfold to_circuit, num_legs. rewrite legs_column_eq, legs_all_zero. by intros ->.
Qed.

Lemma to_circuit_with_legs fuel g topology circ :
  0 < num_legs g -> to_circuit fuel g topology = Ok circ ->
  exists ladder q0,
    find_minimal_cx_assignment fuel
      (map (fun p => if negb (Pauli.eqb p Pauli.I) then 1%Z else 0%Z) (paulis g))
      (default complete_topology topology) None = Ok (ladder, q0) /\
    (exists p, paulis g !! q0 = Some p /\ p <> Pauli.I) /\
    (forall j, j < q0 -> paulis g !! j = Some Pauli.I) /\
    circ = mkCircuit
             (basis_gates gate_v (paulis g) ++ ladder_gates (rev ladder)
              ++ [gate_rz (angle g) q0] ++ ladder_gates ladder
              ++ basis_gates gate_vdg (paulis g)) [].
Proof.
  unfold to_circuit, num_legs. rewrite legs_column_eq, legs_all_zero.
  intros Hlegs. destruct (_ =? 0) eqn:Hz; [apply Nat.eqb_eq in Hz; lia|].
  set (col := map _ (paulis g)).
  destruct (find_minimal_cx_assignment _ _ _ _) as [[ladder q0]| |] eqn:Hrun;
    simpl; [|done..].
  pose proof (find_minimal_cx_assignment_root _ _ _ _ _ Hrun) as Hroot.
  intros Hcirc. exists ladder, q0. split; [done|].
  destruct (argmax_first_active col q0) as [Hq0 Hbefore]; [apply legs_is_binary|done| |].
  { destruct (List.filter _ (paulis g)) as [|p ps'] eqn:Hf; [simpl in Hlegs; lia|].
    assert (p ∈ List.filter (fun pauli => negb (Pauli.eqb pauli Pauli.I)) (paulis g))
      as Hin by (rewrite Hf; left).
    apply list_elem_of_In, filter_In in Hin as [Hin%list_elem_of_In Hp].
    exists 1%Z. split; [|done]. unfold col. apply list_elem_of_fmap.
    exists p. by rewrite Hp. }
  unfold col in Hq0, Hbefore. rewrite legs_column_lookup in Hq0.
  split; [|split].
  - destruct (paulis g !! q0) as [p|]; [|done]. exists p. split; [done|].
    intros ->. done.
  - intros j Hj. specialize (Hbefore j Hj). rewrite legs_column_lookup in Hbefore.
    destruct (paulis g !! j) as [p|]; [|done]. by destruct p.
  - destruct ladder as [|e ladder].
    + rewrite Hroot in Hcirc. simpl in Hcirc. by injection Hcirc as <-.
    + simpl in Hcirc. injection Hcirc as <-. by rewrite <- !app_assoc.
Qed.

(** X9 — [PauliGadget.to_circuit]: a gadget without legs gives no gate and
    its angle as global phase, whatever the topology.  Otherwise the
    circuit is the basis changes ([h] on X legs, [v] on Y legs), the ladder
    of [find_minimal_cx_assignment] backwards, one [rz] by the gadget's
    angle on the first leg, the ladder forwards, and the basis changes
    again with [vdg] for [v]; the global phase is untouched. *)
Theorem to_circuit_structure fuel g topology :
  (num_legs g = 0 -> to_circuit fuel g topology = Ok (mkCircuit [] [angle g])) /\
  (forall circ,
     0 < num_legs g -> to_circuit fuel g topology = Ok circ ->
     exists ladder q0,
       find_minimal_cx_assignment fuel
         (map (fun p => if negb (Pauli.eqb p Pauli.I) then 1%Z else 0%Z) (paulis g))
         (default complete_topology topology) None = Ok (ladder, q0) /\
       (exists p, paulis g !! q0 = Some p /\ p <> Pauli.I) /\
       (forall j, j < q0 -> paulis g !! j = Some Pauli.I) /\
       circ = mkCircuit
                (basis_gates gate_v (paulis g) ++ ladder_gates (rev ladder)
                 ++ [gate_rz (angle g) q0] ++ ladder_gates ladder
                 ++ basis_gates gate_vdg (paulis g)) []).
Proof.
  split; [apply to_circuit_without_legs|]. intros circ. apply to_circuit_with_legs.
Qed.

(** X10 — the estimate agrees with the circuit: for a gadget with a leg,
    the number of [cx] gates of the circuit [to_circuit] builds on a
    topology is what [two_qubit_count] returns for it. *)
Theorem to_circuit_cx_count_is_two_qubit_count fuel g topology circ :
  0 < num_legs g ->
  to_circuit fuel g (Some topology) = Ok circ ->
  two_qubit_count fuel g topology = Ok (cx_count (circ_gates circ)).
Proof.
  intros Hlegs Hcirc.
  destruct (to_circuit_with_legs fuel g (Some topology) circ Hlegs Hcirc)
    as (ladder & q0 & Hrun & _ & _ & ->).
  unfold two_qubit_count. simpl in Hrun. rewrite Hrun. simpl.
  rewrite cx_count_app, cx_count_app, cx_count_cons, cx_count_app.
  rewrite !cx_count_ladder_gates, length_rev.
  rewrite !cx_count_basis_gates by done. f_equal.
Qed.

End GadgetCircuits.

Lemma to_circuit_structure_witness :
  exists ladder q0,
    find_minimal_cx_assignment (H:=prim_networkx) 10
      (map (fun p => if negb (Pauli.eqb p Pauli.I) then 1%Z else 0%Z)
         (paulis (mkGadget 7%Z [Pauli.X; Pauli.I; Pauli.Z; Pauli.Y])))
      (default complete_topology (Some line_topology)) None = Ok (ladder, q0) /\
    (exists p, paulis (mkGadget 7%Z [Pauli.X; Pauli.I; Pauli.Z; Pauli.Y]) !! q0 = Some p
               /\ p <> Pauli.I) /\
    (forall j, j < q0 ->
       paulis (mkGadget 7%Z [Pauli.X; Pauli.I; Pauli.Z; Pauli.Y]) !! j = Some Pauli.I) /\
    mkCircuit
      [gate_h 0; gate_v 3; gate_cx 3 2; gate_cx 1 2; gate_cx 2 1; gate_cx 1 0;
       gate_rz 7%Z 0; gate_cx 1 0; gate_cx 2 1; gate_cx 1 2; gate_cx 3 2;
       gate_h 0; gate_vdg 3] []
    = mkCircuit
        (basis_gates gate_v (paulis (mkGadget 7%Z [Pauli.X; Pauli.I; Pauli.Z; Pauli.Y]))
         ++ ladder_gates (rev ladder) ++ [gate_rz 7%Z q0] ++ ladder_gates ladder
         ++ basis_gates gate_vdg
              (paulis (mkGadget 7%Z [Pauli.X; Pauli.I; Pauli.Z; Pauli.Y]))) [].
Proof.
  exact (proj2 (to_circuit_structure (H:=prim_networkx) 10
                  (mkGadget 7%Z [Pauli.X; Pauli.I; Pauli.Z; Pauli.Y]) (Some line_topology))
           _ ltac:(vm_compute; lia) ltac:(vm_compute; reflexivity)).
Defined.

Lemma to_circuit_cx_count_is_two_qubit_count_witness :
  two_qubit_count (H:=prim_networkx) 10
    (mkGadget 7%Z [Pauli.X; Pauli.I; Pauli.Z; Pauli.Y]) line_topology
  = Ok (cx_count
          [gate_h 0; gate_v 3; gate_cx 3 2; gate_cx 1 2; gate_cx 2 1; gate_cx 1 0;
           gate_rz 7%Z 0; gate_cx 1 0; gate_cx 2 1; gate_cx 1 2; gate_cx 3 2;
           gate_h 0; gate_vdg 3]).
Proof.
  exact (to_circuit_cx_count_is_two_qubit_count (H:=prim_networkx) 10
           (mkGadget 7%Z [Pauli.X; Pauli.I; Pauli.Z; Pauli.Y]) line_topology
           (mkCircuit
              [gate_h 0; gate_v 3; gate_cx 3 2; gate_cx 1 2; gate_cx 2 1; gate_cx 1 0;
               gate_rz 7%Z 0; gate_cx 1 0; gate_cx 2 1; gate_cx 1 2; gate_cx 3 2;
               gate_h 0; gate_vdg 3] [])
           ltac:(vm_compute; lia) ltac:(vm_compute; reflexivity)).
Defined.

(** ** Polynomials: the two-qubit count and its cache *)

Section PolyCounts.
Context `{NetworkX} {A : Type}.
Implicit Types (g : PauliGadget A) (leg_cache : gmap (list Z) nat).

Lemma two_qubit_count_cached_run fuel g topology leg_cache n :
  cache_holds_counts fuel topology leg_cache ->
  two_qubit_count fuel g topology = Ok n ->
  exists leg_cache',
    two_qubit_count_cached fuel g topology leg_cache = (Ok n, leg_cache') /\
    cache_holds_counts fuel topology leg_cache'.
Proof.
  intros Hcache Hcount. unfold two_qubit_count_cached, bind, get. simpl.
  set (col := map _ (paulis g)) in *.
  destruct (leg_cache !! col) as [m|] eqn:Hhit.
  - exists leg_cache. split; [|done]. apply Hcache in Hhit.
    change (two_qubit_count fuel g topology) with (count_of_pattern fuel col topology)
      in Hcount.
    rewrite Hhit in Hcount. by injection Hcount as ->.
  - unfold two_qubit_count in Hcount. fold col in Hcount. unfold lift.
    destruct (find_minimal_cx_assignment fuel col topology None)
      as [[ladder q0]| |] eqn:Hrun; simpl in *; [|done..].
    injection Hcount as <-. eexists. split; [done|].
    intros key m. destruct (decide (key = col)) as [->|Hne].
    + rewrite lookup_insert_eq. intros [= <-]. unfold count_of_pattern. by rewrite Hrun.
    + rewrite lookup_insert_ne by done. apply Hcache.
Qed.

Lemma poly_count_loop_run fuel gadgets topology count leg_cache ns :
  cache_holds_counts fuel topology leg_cache ->
  Forall2 (fun g n => two_qubit_count fuel g topology = Ok n) gadgets ns ->
  exists leg_cache',
    poly_count_loop fuel gadgets topology count leg_cache
    = (Ok (count + sum_list ns), leg_cache') /\
    cache_holds_counts fuel topology leg_cache'.
Proof.
  intros Hcache Hall. revert count leg_cache Hcache.
  induction Hall as [|g n gadgets ns Hg _ IH]; intros count leg_cache Hcache; simpl.
  - exists leg_cache. by rewrite Nat.add_0_r.
  - destruct (two_qubit_count_cached_run fuel g topology leg_cache n Hcache Hg)
      as (cache1 & Hrun & Hcache1).
    rewrite (bind_ok _ _ _ _ _ Hrun).
    destruct (IH (count + n) cache1 Hcache1) as (cache2 & Hrest & Hcache2).
    exists cache2. by rewrite Hrest, Nat.add_assoc.
Qed.

(** X11 — the cache of [two_qubit_count] does not change the count: when
    the count of every gadget of a polynomial is defined,
    [PauliPolynomial.two_qubit_count] without a cache, or with a cache that
    holds counts made for the same topology, is the sum of the counts of
    its gadgets, each computed on its own. *)
Theorem poly_two_qubit_count_is_the_sum fuel gadgets topology ns :
  Forall2 (fun g n => two_qubit_count fuel g topology = Ok n) gadgets ns ->
  poly_two_qubit_count fuel gadgets topology None = Ok (sum_list ns) /\
  (forall leg_cache,
     cache_holds_counts fuel topology leg_cache ->
     poly_two_qubit_count fuel gadgets topology (Some leg_cache) = Ok (sum_list ns)).
Proof.
  intros Hall. unfold poly_two_qubit_count. simpl. split.
  - destruct (poly_count_loop_run fuel gadgets topology 0 ∅ ns) as (c & -> & _);
      [|done..]. intros key n Hkey. by rewrite lookup_empty in Hkey.
  - intros leg_cache Hcache.
    by destruct (poly_count_loop_run fuel gadgets topology 0 leg_cache ns Hcache Hall)
      as (c & -> & _).
Qed.

End PolyCounts.

Lemma poly_two_qubit_count_is_the_sum_witness :
  poly_two_qubit_count (H:=prim_networkx) 10
    [mkGadget 7%Z [Pauli.X; Pauli.I; Pauli.Z; Pauli.Y];
     mkGadget 1%Z [Pauli.Z; Pauli.I; Pauli.X; Pauli.X];
     mkGadget 2%Z [Pauli.I; Pauli.I; Pauli.X; Pauli.X]] line_topology None
  = Ok (sum_list [8; 8; 2]) /\
  (forall leg_cache,
     cache_holds_counts (H:=prim_networkx) 10 line_topology leg_cache ->
     poly_two_qubit_count (H:=prim_networkx) 10
       [mkGadget 7%Z [Pauli.X; Pauli.I; Pauli.Z; Pauli.Y];
        mkGadget 1%Z [Pauli.Z; Pauli.I; Pauli.X; Pauli.X];
        mkGadget 2%Z [Pauli.I; Pauli.I; Pauli.X; Pauli.X]] line_topology (Some leg_cache)
     = Ok (sum_list [8; 8; 2])).
Proof.
  apply (poly_two_qubit_count_is_the_sum (H:=prim_networkx) 10).
  repeat constructor; vm_compute; reflexivity.
Defined.

(** ** Polynomials: [>>] *)

Section Rshift.
Context {A : Type}.
Implicit Types (s : store A).

Lemma read_poly_ok s pp p : poly_heap s !! pp = Some p -> read_poly pp s = (Ok p, s).
Proof. intros Hp. unfold read_poly. by rewrite Hp. Qed.

Lemma rshift_loop_other fuel self other s n acc m gadgets position :
  self <> other ->
  poly_heap s !! self = Some (mkPoly n acc) ->
  poly_heap s !! other = Some (mkPoly m gadgets) ->
  length gadgets - position < fuel ->
  rshift_loop fuel self other position s
  = (Ok tt, mkStore (gadget_heap s)
              (<[self := mkPoly n (acc ++ drop position gadgets)]> (poly_heap s))).
Proof.
  intros Hne. revert s acc position.
  induction fuel as [|fuel IH]; intros s acc position Hself Hother Hfuel; [lia|].
  simpl. rewrite (bind_ok _ _ _ _ _ (read_poly_ok _ _ _ Hother)). simpl.
  destruct (gadgets !! position) as [gadget|] eqn:Hg.
  - rewrite (bind_ok _ _ _ _ _ (read_poly_ok _ _ _ Hself)). simpl.
    unfold bind at 1, modify. simpl.
    rewrite IH with (acc := acc ++ [gadget]).
    + simpl. rewrite list_insert_insert_eq, <- app_assoc. simpl.
      by rewrite (drop_S _ _ _ Hg).
    + simpl. rewrite list_lookup_insert_eq; [done|]. by eapply lookup_lt_Some.
    + simpl. by rewrite list_lookup_insert_ne.
    + apply lookup_lt_Some in Hg. lia.
  - apply lookup_ge_None in Hg. rewrite drop_ge, app_nil_r by done.
    unfold ret. destruct s as [gh ph]. simpl in *. by rewrite list_insert_id.
Qed.

Lemma rshift_loop_self fuel self s n gadgets position :
  poly_heap s !! self = Some (mkPoly n gadgets) ->
  position < length gadgets ->
  fst (rshift_loop fuel self self position s) = OutOfFuel.
Proof.
  revert s gadgets position.
  induction fuel as [|fuel IH]; intros s gadgets position Hself Hpos; [done|].
  simpl. rewrite (bind_ok _ _ _ _ _ (read_poly_ok _ _ _ Hself)). simpl.
  destruct (lookup_lt_is_Some_2 gadgets position Hpos) as [gadget Hg]. rewrite Hg.
  rewrite (bind_ok _ _ _ _ _ (read_poly_ok _ _ _ Hself)). simpl.
  unfold bind at 1, modify. simpl.
  apply (IH _ (gadgets ++ [gadget])).
  - simpl. rewrite list_lookup_insert_eq; [done|]. by eapply lookup_lt_Some.
  - rewrite length_app. simpl. lia.
Qed.

(** X12 — [self >> other], for two different polynomials, appends the
    gadget objects of [other] to the list of [self], in order, and returns
    [self]: the qubit counts are not compared, no gadget is copied, and
    [other] is left as it was. *)
Theorem rshift_appends_without_check fuel self other s n acc m gadgets :
  self <> other ->
  poly_heap s !! self = Some (mkPoly n acc) ->
  poly_heap s !! other = Some (mkPoly m gadgets) ->
  length gadgets < fuel ->
  rshift fuel self other s
  = (Ok self, mkStore (gadget_heap s)
                (<[self := mkPoly n (acc ++ gadgets)]> (poly_heap s))) /\
  poly_heap (snd (rshift fuel self other s)) !! other = Some (mkPoly m gadgets).
Proof.
  intros Hne Hself Hother Hfuel. unfold rshift.
  rewrite (bind_ok _ _ _ _ _
             (rshift_loop_other fuel self other s n acc m gadgets 0 Hne Hself Hother
                ltac:(lia))).
  rewrite drop_0. split; [done|]. simpl. by rewrite list_lookup_insert_ne.
Qed.

(** X13 — [pp >> pp] on a polynomial that has a gadget never finishes:
    every step appends a gadget to the very list the loop runs over, so the
    end of the list is never reached. *)
Theorem rshift_onto_itself_never_returns fuel self s n gadget gadgets :
  poly_heap s !! self = Some (mkPoly n (gadget :: gadgets)) ->
  fst (rshift fuel self self s) = OutOfFuel.
Proof.
  intros Hself. unfold rshift, bind.
  pose proof (rshift_loop_self fuel self s n (gadget :: gadgets) 0 Hself
                ltac:(simpl; lia)) as Hloop.
  destruct (rshift_loop fuel self self 0 s) as [r s']. simpl in Hloop. by subst.
Qed.

End Rshift.

Lemma rshift_appends_without_check_witness :
  rshift 5 1 0 (mkStore [mkGadget 1%Z [Pauli.Z; Pauli.Z]; mkGadget 3%Z [Pauli.X]]
                        [mkPoly 2 [0]; mkPoly 1 [1]])
  = (Ok 1, mkStore [mkGadget 1%Z [Pauli.Z; Pauli.Z]; mkGadget 3%Z [Pauli.X]]
             (<[1 := mkPoly 1 ([1] ++ [0])]> [mkPoly 2 [0]; mkPoly 1 [1]])) /\
  poly_heap (snd (rshift 5 1 0
                    (mkStore [mkGadget 1%Z [Pauli.Z; Pauli.Z]; mkGadget 3%Z [Pauli.X]]
                             [mkPoly 2 [0]; mkPoly 1 [1]]))) !! 0
  = Some (mkPoly 2 [0]).
Proof.
  exact (rshift_appends_without_check 5 1 0
           (mkStore [mkGadget 1%Z [Pauli.Z; Pauli.Z]; mkGadget 3%Z [Pauli.X]]
                    [mkPoly 2 [0]; mkPoly 1 [1]])
           1 [1] 2 [0] ltac:(lia) eq_refl eq_refl ltac:(simpl; lia)).
Defined.

Lemma rshift_onto_itself_never_returns_witness :
  fst (rshift 100 0 0 merge_store) = OutOfFuel.
Proof.
  exact (rshift_onto_itself_never_returns 100 0 merge_store 2 0 [1; 2] eq_refl).
Defined.

(** ** Polynomials: copy and swap_gadgets *)

Section PolyCopy.
Context {A : Type} `{AngleOps A}.
Implicit Types (s : store A) (vs : list (PauliGadget A)).

Lemma poly_copy_loop s pp_ n acc refs vs :
  poly_heap s !! pp_ = Some (mkPoly n acc) ->
  Forall2 (fun r g => gadget_heap s !! r = Some g) refs vs ->
  all_of_size n vs = true ->
  for_each refs (fun gadget => let* c := gadget_copy gadget in irshift pp_ c) s
  = (Ok tt,
     mkStore (gadget_heap s ++ vs)
       (<[pp_ := mkPoly n (acc ++ seq (length (gadget_heap s)) (length refs))]>
          (poly_heap s))).
Proof.
  intros Hpp Hrefs. revert s acc vs Hpp Hrefs.
  induction refs as [|r refs IH]; intros s acc vs Hpp Hrefs Hsize.
  - apply Forall2_nil_inv_l in Hrefs as ->. simpl. rewrite !app_nil_r.
    unfold ret. destruct s as [gh ph]. simpl in *. by rewrite list_insert_id.
  - apply Forall2_cons_inv_l in Hrefs as (g & vs' & Hr & Hrefs & ->).
    simpl in Hsize. apply andb_prop in Hsize as [Hg Hsize]. destruct g as [a ps].
    simpl. unfold bind at 1, bind at 1, gadget_copy, bind at 1.
    rewrite (read_gadget_ok _ _ _ Hr). unfold new_gadget. simpl.
    erewrite irshift_run; [..|simpl; apply lookup_app_Some; right; split;
                                [done|by rewrite Nat.sub_diag]]; [|exact Hpp].
    simpl in Hg |- *. rewrite Hg.
    rewrite (IH _ (acc ++ [length (gadget_heap s)]) vs'); simpl.
    + rewrite list_insert_insert_eq, length_app, <- !app_assoc. simpl.
      by rewrite Nat.add_1_r.
    + rewrite list_lookup_insert_eq; [done|]. by eapply lookup_lt_Some.
    + eapply Forall2_impl; [done|]. simpl. intros r' g' Hr'.
      by apply lookup_app_l_Some.
    + done.
Qed.

(** X14 — [PauliPolynomial.copy], on a polynomial all of whose gadgets
    have [num_qubits] entries, returns a new polynomial with the same
    qubit count and the same gadgets in the same order, every one of them
    a newly made object; the polynomial copied and all objects that
    existed before are unchanged. *)
Theorem poly_copy_is_deep s pp n vs :
  poly_value s pp = Some (n, vs) ->
  all_of_size n vs = true ->
  exists refs',
    poly_copy pp s
    = (Ok (length (poly_heap s)),
       mkStore (gadget_heap s ++ vs) (poly_heap s ++ [mkPoly n refs'])) /\
    Forall (fun r => length (gadget_heap s) <= r) refs' /\
    NoDup refs' /\
    poly_value (snd (poly_copy pp s)) (length (poly_heap s)) = Some (n, vs) /\
    poly_value (snd (poly_copy pp s)) pp = Some (n, vs).
Proof.
  intros Hval Hsize.
  pose proof Hval as (p & Hp & <- & Hrefs)%poly_value_inv.
  exists (seq (length (gadget_heap s)) (length (pauli_gadgets p))).
  assert (poly_copy pp s
          = (Ok (length (poly_heap s)),
             mkStore (gadget_heap s ++ vs)
               (poly_heap s
                ++ [mkPoly (num_qubits p)
                      (seq (length (gadget_heap s)) (length (pauli_gadgets p)))])))
    as Hrun.
  { unfold poly_copy. rewrite (bind_ok _ _ _ _ _ (read_poly_ok _ _ _ Hp)).
    unfold bind at 1, new_poly.
    assert (poly_heap (mkStore (gadget_heap s) (poly_heap s ++ [mkPoly (num_qubits p) []]))
              !! length (poly_heap s) = Some (mkPoly (num_qubits p) [])) as Hnew
      by (simpl; by rewrite lookup_app_r, Nat.sub_diag by lia).
    rewrite (bind_ok _ _ _ _ _
               (poly_copy_loop _ _ (num_qubits p) [] (pauli_gadgets p) vs Hnew Hrefs Hsize)).
    unfold ret. simpl. do 3 f_equal.
    replace (length (poly_heap s)) with (length (poly_heap s) + 0) at 1 by lia.
    by rewrite insert_app_r. }
  rewrite Hrun. simpl. split; [done|]. split; [|split; [apply NoDup_seq|]].
  - apply Forall_forall. intros r Hr%elem_of_seq. lia.
  - assert (gadget_values
              (mkStore (gadget_heap s ++ vs)
                 (poly_heap s
                  ++ [mkPoly (num_qubits p)
                        (seq (length (gadget_heap s)) (length (pauli_gadgets p)))]))
              (seq (length (gadget_heap s)) (length (pauli_gadgets p)))
            = Some vs) as Hnew.
    { unfold gadget_values. apply mapM_Some. simpl.
      rewrite (Forall2_length _ _ _ Hrefs).
      apply Forall2_lookup. intros i.
      destruct (vs !! i) as [g|] eqn:Hg.
      - rewrite lookup_seq_lt by (by eapply lookup_lt_Some). constructor.
        by rewrite lookup_app_r, Nat.add_comm, Nat.add_sub by lia.
      - rewrite lookup_seq_ge by (by apply lookup_ge_None). constructor. }
    split.
    + unfold poly_value. simpl. rewrite lookup_app_r, Nat.sub_diag by lia. simpl.
      by rewrite Hnew.
    + unfold poly_value. simpl. rewrite (lookup_app_l_Some _ _ _ _ Hp).
      assert (gadget_values
                (mkStore (gadget_heap s ++ vs)
                   (poly_heap s
                    ++ [mkPoly (num_qubits p)
                          (seq (length (gadget_heap s)) (length (pauli_gadgets p)))]))
                (pauli_gadgets p) = Some vs) as ->; [|done].
      unfold gadget_values. apply mapM_Some. simpl.
      eapply Forall2_impl; [done|]. simpl. intros r g Hr. by apply lookup_app_l_Some.
Qed.

End PolyCopy.

Lemma poly_copy_is_deep_witness :
  exists refs',
    poly_copy 0 merge_store
    = (Ok (length (poly_heap merge_store)),
       mkStore (gadget_heap merge_store
                ++ [mkGadget 1%Z [Pauli.Z; Pauli.Z]; mkGadget 3%Z [Pauli.Z; Pauli.I];
                    mkGadget 5%Z [Pauli.Z; Pauli.Z]])
               (poly_heap merge_store ++ [mkPoly 2 refs'])) /\
    Forall (fun r => length (gadget_heap merge_store) <= r) refs' /\
    NoDup refs' /\
    poly_value (snd (poly_copy 0 merge_store)) (length (poly_heap merge_store))
    = Some (2, [mkGadget 1%Z [Pauli.Z; Pauli.Z]; mkGadget 3%Z [Pauli.Z; Pauli.I];
                mkGadget 5%Z [Pauli.Z; Pauli.Z]]) /\
    poly_value (snd (poly_copy 0 merge_store)) 0
    = Some (2, [mkGadget 1%Z [Pauli.Z; Pauli.Z]; mkGadget 3%Z [Pauli.Z; Pauli.I];
                mkGadget 5%Z [Pauli.Z; Pauli.Z]]).
Proof.
  exact (poly_copy_is_deep merge_store 0 2
           [mkGadget 1%Z [Pauli.Z; Pauli.Z]; mkGadget 3%Z [Pauli.Z; Pauli.I];
            mkGadget 5%Z [Pauli.Z; Pauli.Z]] eq_refl eq_refl).
Defined.

Section SwapGadgets.
Context {A : Type}.
Implicit Types (s : store A).

(** X15 — [PauliPolynomial.swap_gadgets(col1, col2)] rearranges the list
    of the polynomial and touches nothing else: no gadget object and no
    other polynomial changes, the qubit count stays, and the same call
    again restores the store exactly.  A column outside [-len .. len - 1]
    raises IndexError and leaves the store as it was. *)
Theorem swap_gadgets_is_an_involution s pp p col1 col2 :
  poly_heap s !! pp = Some p ->
  match swap_items (pauli_gadgets p) col1 col2 with
  | Ok gadgets =>
      swap_gadgets pp col1 col2 s
      = (Ok tt, mkStore (gadget_heap s)
                  (<[pp := mkPoly (num_qubits p) gadgets]> (poly_heap s))) /\
      gadgets ≡ₚ pauli_gadgets p /\
      swap_gadgets pp col1 col2 (snd (swap_gadgets pp col1 col2 s)) = (Ok tt, s)
  | _ =>
      swap_gadgets pp col1 col2 s = (Raise IndexError, s) /\
      ((col1 < - Z.of_nat (length (pauli_gadgets p)))%Z \/
       (Z.of_nat (length (pauli_gadgets p)) <= col1)%Z \/
       (col2 < - Z.of_nat (length (pauli_gadgets p)))%Z \/
       (Z.of_nat (length (pauli_gadgets p)) <= col2)%Z)
  end.
Proof.
  intros Hp. unfold swap_gadgets.
  rewrite !(bind_ok _ _ _ _ _ (read_poly_ok _ _ _ Hp)).
  destruct (swap_items (pauli_gadgets p) col1 col2) as [gadgets|e|] eqn:Hs.
  - split; [done|]. split; [by eapply swap_items_perm|].
    unfold bind at 2, lift, modify. simpl.
    assert (poly_heap
              (mkStore (gadget_heap s)
                 (<[pp := mkPoly (num_qubits p) gadgets]> (poly_heap s))) !! pp
            = Some (mkPoly (num_qubits p) gadgets)) as Hp'.
    { simpl. rewrite list_lookup_insert_eq; [done|]. by eapply lookup_lt_Some. }
    rewrite (bind_ok _ _ _ _ _ (read_poly_ok _ _ _ Hp')). simpl.
    rewrite (swap_items_twice _ _ _ _ Hs). unfold bind, lift, modify. simpl.
    rewrite list_insert_insert_eq. destruct s as [gh ph], p as [n l]. simpl in *.
    by rewrite list_insert_id.
  - apply swap_items_raises in Hs as [-> Hn]. split; [done|].
    rewrite !py_index_None in Hn. lia.
  - exfalso. unfold swap_items in Hs.
    by repeat (destruct (py_index _ _) || destruct (_ !! _)).
Qed.

End SwapGadgets.

Lemma swap_gadgets_is_an_involution_witness :
  swap_gadgets 0 0 (-1) merge_store
  = (Ok tt, mkStore (gadget_heap merge_store)
              (<[0 := mkPoly 2 [2; 1; 0]]> (poly_heap merge_store))) /\
  [2; 1; 0] ≡ₚ [0; 1; 2] /\
  swap_gadgets 0 0 (-1) (snd (swap_gadgets 0 0 (-1) merge_store)) = (Ok tt, merge_store).
Proof.
  exact (swap_gadgets_is_an_involution merge_store 0 (mkPoly 2 [0; 1; 2]) 0 (-1) eq_refl).
Defined.

(** ** Simplification: the search for a matching gadget *)

Section FindMatching.
Context {A : Type} `{AngleOps A}.
Implicit Types (s : store A) (vs : list (PauliGadget A)).

Lemma find_right_v_spec (gadget : PauliGadget A) idx k tail :
  match find_right_v gadget idx k tail with
  | Some j =>
      exists i g', j = idx + k + i + 1 /\ tail !! i = Some g' /\
        zip_all_eq (paulis gadget) (paulis g') = true /\
        forall i' g'', i' < i -> tail !! i' = Some g'' ->
          zip_all_eq (paulis gadget) (paulis g'') = false
  | None =>
      forall i g', tail !! i = Some g' -> zip_all_eq (paulis gadget) (paulis g') = false
  end.
Proof.
  revert k. induction tail as [|g' tail IH]; intros k; simpl; [done|].
  destruct (zip_all_eq (paulis gadget) (paulis g')) eqn:Hz.
  - exists 0, g'. split; [lia|]. split; [done|]. split; [done|]. lia.
  - specialize (IH (S k)). destruct (find_right_v gadget idx (S k) tail) as [j|].
    + destruct IH as (i & g2 & -> & Hi & Hz2 & Hfirst).
      exists (S i), g2. split; [lia|]. split; [done|]. split; [done|].
      intros [|i'] g3 Hlt Hg3; simpl in Hg3; [by simplify_eq|].
      eapply Hfirst; [|done]. lia.
    + intros [|i] g2 Hg2; simpl in Hg2; [by simplify_eq|]. by eapply IH.
Qed.

(** X16 — [find_machting_parity_right(idx, remaining_poly)] returns the
    position of the first gadget to the right of [idx] whose Pauli list
    equals that of the gadget at [idx], and None when there is none; it
    raises IndexError when [idx] is not a position of the list, and it
    changes nothing. *)
Theorem find_matching_is_first_to_the_right s refs vs idx :
  denotes s refs vs ->
  match vs !! idx with
  | None => find_machting_parity_right idx refs s = (Raise IndexError, s)
  | Some g =>
      exists r, find_machting_parity_right idx refs s = (Ok r, s) /\
        match r with
        | Some j =>
            idx < j /\
            (exists gj, vs !! j = Some gj /\ zip_all_eq (paulis g) (paulis gj) = true) /\
            (forall k gk, idx < k < j -> vs !! k = Some gk ->
               zip_all_eq (paulis g) (paulis gk) = false)
        | None =>
            forall k gk, idx < k -> vs !! k = Some gk ->
              zip_all_eq (paulis g) (paulis gk) = false
        end
  end.
Proof.
  intros Hden. rewrite (find_sim s refs vs idx Hden).
  unfold find_machting_parity_right_v. destruct (vs !! idx) as [g|] eqn:Hg; [|done].
  eexists. split; [done|].
  pose proof (find_right_v_spec g idx 0 (drop (S idx) vs)) as Hspec.
  destruct (find_right_v g idx 0 (drop (S idx) vs)) as [j|].
  - destruct Hspec as (i & gj & -> & Hi & Hz & Hfirst). rewrite lookup_drop in Hi.
    split; [lia|]. split.
    + exists gj. split; [|done]. rewrite <- Hi. f_equal. lia.
    + intros k gk Hk Hgk. apply (Hfirst (k - S idx) gk); [lia|].
      rewrite lookup_drop, <- Hgk. f_equal. lia.
  - intros k gk Hk Hgk. apply (Hspec (k - S idx) gk).
    rewrite lookup_drop, <- Hgk. f_equal. lia.
Qed.

End FindMatching.

Lemma find_matching_is_first_to_the_right_witness :
  exists r, find_machting_parity_right 0 [0; 1; 2] merge_store = (Ok r, merge_store) /\
    match r with
    | Some j =>
        0 < j /\
        (exists gj, gadget_heap merge_store !! j = Some gj /\
                    zip_all_eq [Pauli.Z; Pauli.Z] (paulis gj) = true) /\
        (forall k gk, 0 < k < j -> gadget_heap merge_store !! k = Some gk ->
           zip_all_eq [Pauli.Z; Pauli.Z] (paulis gk) = false)
    | None =>
        forall k gk, 0 < k -> gadget_heap merge_store !! k = Some gk ->
          zip_all_eq [Pauli.Z; Pauli.Z] (paulis gk) = false
    end.
Proof.
  assert (denotes merge_store [0; 1; 2] (gadget_heap merge_store)) as Hden
    by (split; [repeat constructor|apply (NoDup_seq 0 3)]).
  exact (find_matching_is_first_to_the_right merge_store [0; 1; 2]
           (gadget_heap merge_store) 0 Hden).
Defined.

(** ** Simplification: it terminates, and what it keeps *)

Section SimplifyTerminates.
Context {A : Type} `{AngleOps A}.
Implicit Types (vs : list (PauliGadget A)).

Lemma all_of_size_lookup n vs i g :
  all_of_size n vs = true -> vs !! i = Some g -> length (paulis g) = n.
Proof.
  unfold all_of_size. rewrite forallb_forall. intros Hall Hg.
  apply Nat.eqb_eq, Hall, list_elem_of_In. by eapply list_elem_of_lookup_2.
Qed.

Lemma all_of_size_paulis n vs vs' :
  map paulis vs' = map paulis vs -> all_of_size n vs = all_of_size n vs'.
Proof.
  revert vs'. induction vs as [|g vs IH]; intros [|g' vs'] Heq; simpl in *; try done.
  injection Heq as Hg Heq. by rewrite Hg, (IH vs').
Qed.

Lemma paulis_insert vs i g a :
  vs !! i = Some g -> map paulis (<[i := mkGadget a (paulis g)]> vs) = map paulis vs.
Proof.
  intros Hg. change (map paulis) with (fmap (M:=list) (paulis (A:=A))).
  rewrite list_fmap_insert. simpl. apply list_insert_id. by rewrite list_lookup_fmap, Hg.
Qed.

Lemma merge_v_spec idx idx_right vs g_left g_right :
  idx < idx_right -> vs !! idx = Some g_left -> vs !! idx_right = Some g_right ->
  map paulis (merge_v idx idx_right vs) = map paulis vs /\
  merge_v idx idx_right vs !! idx = Some (mkGadget angle_zero (paulis g_left)) /\
  forall i, i < idx -> merge_v idx idx_right vs !! i = vs !! i.
Proof.
  intros Hlt Hl Hr. unfold merge_v. rewrite Hl, Hr.
  rewrite list_lookup_insert_ne by lia. rewrite Hl.
  split; [|split].
  - rewrite paulis_insert by (by rewrite list_lookup_insert_ne by lia).
    by apply paulis_insert.
  - rewrite list_lookup_insert_eq; [done|].
    rewrite length_insert. by eapply lookup_lt_Some.
  - intros i Hi. by rewrite !list_lookup_insert_ne by lia.
Qed.

Lemma commuting_loop_v_total n idx ks vs :
  all_of_size n vs = true -> idx < length vs ->
  Forall (fun k => k < length vs) ks ->
  exists c, commuting_loop_v idx ks vs = Ok c.
Proof.
  intros Hsize Hidx Hks. induction Hks as [|k ks Hk _ IH]; simpl; [eauto|].
  destruct (lookup_lt_is_Some_2 vs idx Hidx) as [g Hg].
  destruct (lookup_lt_is_Some_2 vs k Hk) as [gk Hgk]. rewrite Hg, Hgk.
  unfold commutes.
  rewrite (all_of_size_lookup _ _ _ _ Hsize Hg), (all_of_size_lookup _ _ _ _ Hsize Hgk).
  rewrite Nat.eqb_refl. simpl. destruct (negb _); eauto.
Qed.

Lemma propagate_step_v_total n idx vs :
  all_of_size n vs = true -> idx < length vs ->
  exists merged vs',
    propagate_step_v idx vs = Ok (merged, vs') /\
    map paulis vs' = map paulis vs /\
    (forall i, i < idx -> vs' !! i = vs !! i) /\
    (merged = true -> exists g, vs' !! idx = Some g /\ angle g = angle_zero).
Proof.
  intros Hsize Hidx. unfold propagate_step_v, find_machting_parity_right_v.
  destruct (lookup_lt_is_Some_2 vs idx Hidx) as [g Hg]. rewrite Hg.
  pose proof (find_right_v_spec g idx 0 (drop (S idx) vs)) as Hspec.
  destruct (find_right_v g idx 0 (drop (S idx) vs)) as [j|].
  2:{ exists false, vs. by repeat split. }
  destruct Hspec as (i & gj & -> & Hi & _). rewrite lookup_drop in Hi.
  replace (S idx + i) with (idx + 0 + i + 1) in Hi by lia.
  destruct (commuting_loop_v_total n idx (seq idx (idx + 0 + i + 1 - idx)) vs)
    as [c Hc]; [done..| |].
  { apply Forall_forall. intros k Hk%elem_of_seq. apply lookup_lt_Some in Hi. lia. }
  unfold is_commuting_region_v. rewrite Hc.
  destruct c; simpl.
  - rewrite Hi.
    destruct (merge_v_spec idx (idx + 0 + i + 1) vs g gj) as (Hp & Hz & Hbelow);
      [lia|done..|].
    exists true, (merge_v idx (idx + 0 + i + 1) vs). repeat split; try done.
    intros _. eauto.
  - exists false, vs. by repeat split.
Qed.

Lemma propagate_loop_v_total n m k vs converged :
  all_of_size n vs = true -> k + m <= length vs ->
  exists converged' vs',
    propagate_loop_v (seq k m) vs converged = Ok (converged', vs') /\
    map paulis vs' = map paulis vs /\
    (forall i, i < k -> vs' !! i = vs !! i) /\
    (converged' = false ->
     converged = false \/ exists i g, vs' !! i = Some g /\ angle g = angle_zero).
Proof.
  revert k vs converged. induction m as [|m IH]; intros k vs converged Hsize Hlen; simpl.
  - exists converged, vs. repeat split; try done. intros ->. by left.
  - destruct (propagate_step_v_total n k vs Hsize) as (merged & vs1 & -> & Hp1 & Hb1 & Hz1);
      [lia|].
    destruct (IH (S k) vs1 (if merged then false else converged))
      as (conv' & vs' & -> & Hp & Hb & Hz).
    { by rewrite <- (all_of_size_paulis n vs vs1). }
    { apply (f_equal length) in Hp1. rewrite !length_map in Hp1. lia. }
    exists conv', vs'. split; [done|]. split; [congruence|]. split.
    + intros i Hi. rewrite Hb by lia. apply Hb1. lia.
    + intros Hconv. destruct (Hz Hconv) as [Hm|Hex]; [|by right].
      destruct merged; [|by left]. right.
      destruct (Hz1 eq_refl) as (g & Hg & Ha). exists k, g. split; [|done].
      rewrite Hb by lia. done.
Qed.

Lemma remove_collapsed_v_length vs :
  length (remove_collapsed_v vs) <= length vs.
Proof. apply List.filter_length_le. Qed.

Lemma remove_collapsed_v_shrinks vs i g :
  not_collapsed angle_zero = false ->
  vs !! i = Some g -> angle g = angle_zero ->
  length (remove_collapsed_v vs) < length vs.
Proof.
  intros Hzero. revert i. unfold remove_collapsed_v.
  induction vs as [|g' vs IH]; intros [|i] Hg Ha; simpl in *; try done.
  - injection Hg as ->. rewrite Ha, Hzero.
    pose proof (List.filter_length_le (fun x => not_collapsed (angle x)) vs). lia.
  - specialize (IH i Hg Ha). destruct (not_collapsed (angle g')); simpl; lia.
Qed.

Lemma remove_collapsed_v_paulis vs :
  sublist (map paulis (remove_collapsed_v vs)) (map paulis vs).
Proof.
  unfold remove_collapsed_v. induction vs as [|g vs IH]; simpl; [constructor|].
  destruct (not_collapsed _); simpl; by constructor.
Qed.

Lemma remove_collapsed_v_size n vs :
  all_of_size n vs = true -> all_of_size n (remove_collapsed_v vs) = true.
Proof.
  unfold all_of_size, remove_collapsed_v. rewrite !forallb_forall.
  intros Hall g [Hg _]%filter_In. by apply Hall.
Qed.

Lemma simplify_loop_v_total n fuel vs :
  not_collapsed angle_zero = false ->
  all_of_size n vs = true ->
  length (remove_collapsed_v vs) < fuel ->
  exists vs',
    simplify_loop_v fuel vs = Ok vs' /\
    all_of_size n vs' = true /\
    sublist (map paulis vs') (map paulis vs).
Proof.
  intros Hzero. revert vs. induction fuel as [|fuel IH]; intros vs Hsize Hfuel; [lia|].
  simpl. pose proof (remove_collapsed_v_size n vs Hsize) as Hsize0.
  destruct (propagate_loop_v_total n (length (remove_collapsed_v vs)) 0
              (remove_collapsed_v vs) true Hsize0)
    as (conv & vs1 & Hrun & Hp & _ & Hz); [lia|].
  unfold propagate_phase_gadegts_v. rewrite Hrun.
  assert (all_of_size n vs1 = true) as Hsize1
    by (by rewrite <- (all_of_size_paulis n (remove_collapsed_v vs) vs1)).
  destruct conv.
  - exists vs1. split; [done|]. split; [done|].
    rewrite Hp. apply remove_collapsed_v_paulis.
  - destruct (Hz eq_refl) as [?|(i & g & Hg & Ha)]; [done|].
    pose proof (remove_collapsed_v_shrinks vs1 i g Hzero Hg Ha) as Hshrink.
    apply (f_equal length) in Hp as Hlen. rewrite !length_map in Hlen.
    destruct (IH vs1 Hsize1) as (vs' & Hrec & Hsize' & Hsub); [lia|].
    exists vs'. split; [done|]. split; [done|].
    etrans; [exact Hsub|]. rewrite Hp. apply remove_collapsed_v_paulis.
Qed.

End SimplifyTerminates.

Section SimplifyReturns.
Context {A : Type} `{AngleOps A}.
Implicit Types (s : store A) (vs : list (PauliGadget A)).

(** X17 — [simplify_pauli_polynomial] returns: on a polynomial whose
    gadgets all have [num_qubits] entries, and with angles for which
    [0.0 != 0] is false, the loop ends after at most one pass more than
    there are gadgets (every pass that merges leaves a gadget with angle
    [0.0], which the next pass removes), and no exception is raised.  The
    Pauli lists of the result are a subsequence of those of the input:
    gadgets are dropped, never added, reordered or rewritten. *)
Theorem simplify_pauli_polynomial_returns fuel s pp n vs :
  poly_value s pp = Some (n, vs) ->
  all_of_size n vs = true ->
  not_collapsed angle_zero = false ->
  length vs < fuel ->
  exists pp1 s1 vs',
    simplify_pauli_polynomial fuel pp s = (Ok pp1, s1) /\
    poly_value s1 pp1 = Some (n, vs') /\
    sublist (map paulis vs') (map paulis vs) /\
    length vs' <= length vs.
Proof.
  intros Hval Hsize Hzero Hfuel.
  pose proof Hval as (p & Hp & <- & Hrefs)%poly_value_inv.
  destruct (simplify_loop_v_total (num_qubits p) fuel vs Hzero Hsize)
    as (vs' & Hloop & Hsize' & Hsub).
  { pose proof (remove_collapsed_v_length vs). lia. }
  destruct (simplify_sim fuel s pp p vs Hp Hrefs) as [_ Hsim].
  unfold simplify_v in Hsim. rewrite Hloop, Hsize' in Hsim.
  destruct Hsim as (Hfst & Hval' & _).
  destruct (simplify_pauli_polynomial fuel pp s) as [r s1] eqn:Hrun. simpl in *. subst r.
  exists (length (poly_heap s)), s1, vs'. repeat split; try done.
  apply sublist_length in Hsub. by rewrite !length_map in Hsub.
Qed.

End SimplifyReturns.

Lemma simplify_pauli_polynomial_returns_witness :
  exists pp1 s1 vs',
    simplify_pauli_polynomial 4 0 merge_store = (Ok pp1, s1) /\
    poly_value s1 pp1 = Some (2, vs') /\
    sublist (map paulis vs')
      (map paulis [mkGadget 1%Z [Pauli.Z; Pauli.Z]; mkGadget 3%Z [Pauli.Z; Pauli.I];
                   mkGadget 5%Z [Pauli.Z; Pauli.Z]]) /\
    length vs' <= length [mkGadget 1%Z [Pauli.Z; Pauli.Z]; mkGadget 3%Z [Pauli.Z; Pauli.I];
                          mkGadget 5%Z [Pauli.Z; Pauli.Z]].
Proof.
  exact (simplify_pauli_polynomial_returns 4 merge_store 0 2
           [mkGadget 1%Z [Pauli.Z; Pauli.Z]; mkGadget 3%Z [Pauli.Z; Pauli.I];
            mkGadget 5%Z [Pauli.Z; Pauli.Z]]
           eq_refl eq_refl eq_refl ltac:(simpl; lia)).
Defined.

(** ** clamp *)

Lemma py_mod_two_range phase : (0 <= py_mod_two phase < 2)%Q.
Proof.
  unfold py_mod_two.
  pose proof (Qfloor_le (phase / 2)) as Hle.
  pose proof (Qlt_floor (phase / 2)) as Hlt.
  rewrite inject_Z_plus in Hlt.
  assert (2 * (phase / 2) == phase)%Q as Hy by (apply Qmult_div_r; discriminate).
  set (y := (phase / 2)%Q) in *. set (k := inject_Z (Qfloor y)) in *.
  change (inject_Z 1) with 1%Q in Hlt.
  split; lra.
Qed.

(** X18 — for a phase in exact arithmetic (a Python [int] or [Fraction];
    a float, whose [%] rounds, is not covered): [clamp(phase)] changes the
    phase only when its remainder modulo 2 is above 1, and then returns
    that remainder minus 2, a value strictly between -1 and 0 that differs
    from the phase by an even integer.  A phase whose remainder is at most 1
    is returned as it is, also when it lies outside [(-1, 1]]:
    [clamp(Fraction(5, 2))] is [Fraction(5, 2)]. *)
Theorem clamp_changes_upper_half_only (phase : Q) :
  (0 <= py_mod_two phase < 2)%Q /\
  ((py_mod_two phase <= 1)%Q -> clamp phase = phase) /\
  ((1 < py_mod_two phase)%Q ->
   (-1 < clamp phase < 0)%Q /\
   (clamp phase == phase - 2 * inject_Z (Qfloor (phase / 2) + 1))%Q) /\
  clamp (5 # 2) = (5 # 2)%Q.
Proof.
  pose proof (py_mod_two_range phase) as [H0 H2]. split; [done|]. split; [|split].
  - intros Hle. unfold clamp. destruct (Qlt_le_dec 1 (py_mod_two phase)); [lra|done].
  - intros Hr. unfold clamp.
    destruct (Qlt_le_dec 1 (py_mod_two phase)) as [_|Hle]; [|lra].
    split; [lra|]. unfold py_mod_two. rewrite inject_Z_plus.
    change (inject_Z 1) with 1%Q. lra.
  - reflexivity.
Qed.

(** ** Synthesis with any polynomial class: no gadget is rotated twice *)

Lemma rotates_within_nil {A} (s : synth_state A) columns : rotates_within columns s [] s.
Proof.
  exists []. rewrite app_nil_r. split; [done|]. split; [apply submseteq_nil_l|done].
Qed.

Lemma rotates_within_app {A} c1 c2 (s s1 s2 : synth_state A) qc1 qc2 :
  rotates_within c1 s qc1 s1 -> rotates_within c2 s1 qc2 s2 ->
  rotates_within (c1 ++ c2) s (qc1 ++ qc2) s2.
Proof.
  intros (l1 & Hl1 & Hs1 & Hr1) (l2 & Hl2 & Hs2 & Hr2). exists (l1 ++ l2).
  split; [by rewrite Hl2, Hl1, <- app_assoc|]. split; [by apply submseteq_app|].
  unfold rz_angles in *. rewrite omap_app, !length_app. lia.
Qed.

Lemma rotates_within_mono {A} c c' (s s' : synth_state A) qc :
  c ⊆+ c' -> rotates_within c s qc s' -> rotates_within c' s qc s'.
Proof.
  intros Hc (l & Hl & Hs & Hr). exists l. split; [done|]. split; [by etrans|done].
Qed.

(** Gates around a run that are no rotations, appended by steps that leave
    [perm_gadgets] alone. *)
Lemma rotates_within_frame {A} c (s0 s s' s1 : synth_state A) before qc after :
  perm_gadgets s = perm_gadgets s0 -> perm_gadgets s1 = perm_gadgets s' ->
  rz_angles before = [] -> rz_angles after = [] ->
  rotates_within c s qc s' ->
  rotates_within c s0 (before ++ qc ++ after) s1.
Proof.
  intros H0 H1 Hb Ha (l & Hl & Hs & Hr). exists l. split; [congruence|]. split; [done|].
  unfold rz_angles in *. rewrite !omap_app, Hb, Ha, app_nil_r. done.
Qed.

Lemma rz_angles_inverse {A} `{Collaborators A} (qc : list (gate A)) :
  rz_angles qc = [] -> rz_angles (inverse qc) = [].
Proof.
  unfold inverse. induction qc as [|g qc IH]; simpl; [done|].
  intros Hg. unfold rz_angles in *. rewrite omap_app. simpl in *.
  destruct g; simpl in *; try done; rewrite IH by done; done.
Qed.

Section RotatesOnce.
Context {A : Type} `{Collaborators A}.
Implicit Types (s : synth_state A) (qc c : list (gate A)).

Lemma propagate_perm g columns s u s' :
  propagate g columns s = (Ok u, s') -> perm_gadgets s' = perm_gadgets s.
Proof.
  unfold propagate. destruct (call_propagate _ _ _); [|done..]. by intros [= _ <-].
Qed.

Lemma update_gadget_single_column_quiet qc q p columns s qc' s' :
  update_gadget_single_column qc q p columns s = (Ok qc', s') ->
  perm_gadgets s' = perm_gadgets s /\ rz_angles qc' = rz_angles qc.
Proof.
  destruct p; simpl; intros Hrun.
  - done.
  - run_inv Hrun. apply propagate_perm in Hc. injection Hrun as <- <-. simpl.
    split; [done|]. by rewrite rz_angles_app, app_nil_r.
  - run_inv Hrun. apply propagate_perm in Hc. injection Hrun as <- <-. simpl.
    split; [done|]. by rewrite rz_angles_app, app_nil_r.
  - by apply ret_Ok_inv in Hrun as [-> ->].
Qed.

Lemma update_single_qubits_quiet c qubits columns s c' s' :
  update_single_qubits c qubits columns s = (Ok c', s') ->
  perm_gadgets s' = perm_gadgets s /\ rz_angles c' = rz_angles c.
Proof.
  revert c s. induction qubits as [|q qubits IH]; intros c s Hrun; simpl in Hrun.
  - by apply ret_Ok_inv in Hrun as [-> ->].
  - run_inv Hrun. apply lift_Ok_inv in Hc as [_ ->].
    apply IH in Hrun as [-> ->]. destruct x as [p|].
    + by apply update_gadget_single_column_quiet in Hc0.
    + by apply ret_Ok_inv in Hc0 as [-> ->].
Qed.

Lemma update_pair_loop_quiet fuel G c qubit_pairs non_visited columns s c' s' :
  update_pair_loop fuel G c qubit_pairs non_visited columns s = (Ok c', s') ->
  perm_gadgets s' = perm_gadgets s /\ rz_angles c' = rz_angles c.
Proof.
  revert c qubit_pairs non_visited s.
  induction fuel as [|fuel IH]; intros c qubit_pairs non_visited s; simpl; [done|].
  destruct qubit_pairs as [[[p1 p2] [q_1 q_2]]|];
    [|by intros [-> ->]%ret_Ok_inv].
  destruct non_visited as [|q non_visited]; [by intros [-> ->]%ret_Ok_inv|].
  intros Hrun. run_inv Hrun.
  apply (read_only_run _ _ _ _ (read_only_list_remove (A:=A) _ _)) in Hc as ->.
  apply (read_only_run _ _ _ _ (read_only_list_remove (A:=A) _ _)) in Hc0 as ->.
  apply update_gadget_single_column_quiet in Hc1 as [Hp1 Hr1].
  apply update_gadget_single_column_quiet in Hc2 as [Hp2 Hr2].
  apply propagate_perm in Hc3. injection Hc4 as <- <-.
  apply (read_only_run _ _ _ _ (read_only_pick_best_pair _ _ _)) in Hc5 as ->.
  apply IH in Hrun as [-> ->]. simpl. split; [congruence|].
  rewrite rz_angles_app, app_nil_r. congruence.
Qed.

Lemma update_pair_qubits_quiet G c qubits columns s c' s' :
  update_pair_qubits G c qubits columns s = (Ok c', s') ->
  perm_gadgets s' = perm_gadgets s /\ rz_angles c' = rz_angles c.
Proof.
  unfold update_pair_qubits. intros Hrun. run_inv Hrun.
  apply (read_only_run _ _ _ _ (read_only_pick_best_pair _ _ _)) in Hc as ->.
  by apply update_pair_loop_quiet in Hrun.
Qed.

Lemma basis_change_forward_quiet qc row rec_type columns s qc' s' :
  basis_change_forward qc row rec_type columns s = (Ok qc', s') ->
  perm_gadgets s' = perm_gadgets s /\ rz_angles qc' = rz_angles qc.
Proof.
  destruct rec_type; simpl; intros Hrun.
  - by apply ret_Ok_inv in Hrun as [-> ->].
  - run_inv Hrun. injection Hc as <- <-. apply propagate_perm in Hc0.
    apply ret_Ok_inv in Hrun as [-> ->]. simpl in Hc0. split; [done|].
    by rewrite rz_angles_app, app_nil_r.
  - run_inv Hrun. injection Hc as <- <-. apply propagate_perm in Hc0.
    apply ret_Ok_inv in Hrun as [-> ->]. simpl in Hc0. split; [done|].
    by rewrite rz_angles_app, app_nil_r.
  - by apply ret_Ok_inv in Hrun as [-> ->].
Qed.

Lemma basis_change_back_quiet qc row rec_type s qc' s' :
  basis_change_back qc row rec_type s = (Ok qc', s') ->
  perm_gadgets s' = perm_gadgets s /\ rz_angles qc' = rz_angles qc.
Proof.
  destruct rec_type; simpl; intros Hrun.
  - by apply ret_Ok_inv in Hrun as [-> ->].
  - injection Hrun as <- <-. simpl. split; [done|]. by rewrite rz_angles_app, app_nil_r.
  - injection Hrun as <- <-. simpl. split; [done|]. by rewrite rz_angles_app, app_nil_r.
  - by apply ret_Ok_inv in Hrun as [-> ->].
Qed.

Lemma rotations_count qc columns row s qc' s' :
  rotations (A:=A) qc columns row s = (Ok qc', s') ->
  perm_gadgets s' = perm_gadgets s ++ columns /\
  length (rz_angles qc') = length (rz_angles qc) + length columns.
Proof.
  revert qc s. induction columns as [|col columns IH]; intros qc s Hrun; simpl in *.
  - apply ret_Ok_inv in Hrun as [-> ->]. by rewrite app_nil_r, Nat.add_0_r.
  - run_inv Hrun. apply angle_at_Ok_inv in Hc as (-> & g & Hg & ->).
    rewrite emit_run in Hc0. injection Hc0 as <- <-.
    unfold perm_append, modify in Hc1. injection Hc1 as _ <-. simpl in Hrun.
    apply IH in Hrun as (Hperm & Hrz). simpl in Hperm. split.
    + by rewrite Hperm, <- app_assoc.
    + rewrite Hrz, rz_angles_app, length_app. simpl. lia.
Qed.

Lemma apply_rotation_rotates columns row rec_type s qc s' :
  apply_rotation (A:=A) columns row rec_type s = (Ok qc, s') ->
  rotates_within columns s qc s'.
Proof.
  unfold apply_rotation. intros Hrun. run_inv Hrun.
  assert (perm_gadgets s0 = perm_gadgets s /\ rz_angles x = []) as (Hperm0 & Hrz0).
  { destruct rec_type; simpl in Hc; injection Hc as <- <-; done. }
  apply rotations_count in Hc0 as (Hperm1 & Hrz1).
  assert (perm_gadgets s' = perm_gadgets s1 /\ rz_angles qc = rz_angles x0)
    as (Hperm2 & Hrz2).
  { destruct rec_type; simpl in Hrun; injection Hrun as <- <-;
      rewrite ?rz_angles_app, ?app_nil_r; done. }
  exists columns. split; [congruence|]. split; [done|].
  rewrite Hrz2, Hrz1, Hrz0. done.
Qed.

Lemma columns_where_disjoint (read : nat -> M (synth_state A) Pauli.t) p1 p2 columns
    s (c1 : list nat) s1 (c2 : list nat) s2 :
  (forall col, read_only (read col)) -> p1 <> p2 ->
  columns_where read p1 columns s = (Ok c1, s1) ->
  columns_where read p2 columns s = (Ok c2, s2) ->
  c1 ++ c2 ⊆+ columns.
Proof.
  intros Hread Hne. revert c1 c2 s1 s2.
  induction columns as [|col columns IH]; intros c1 c2 s1 s2 H1 H2; simpl in *.
  - apply ret_Ok_inv in H1 as [-> _]. by apply ret_Ok_inv in H2 as [-> _].
  - run_inv H1. run_inv H2.
    apply (read_only_run _ _ _ _ (Hread col)) in Hc as Hs0. subst s0.
    apply (read_only_run _ _ _ _ (Hread col)) in Hc1 as Hs4. subst s4.
    assert (x1 = x) as -> by congruence.
    apply ret_Ok_inv in H1 as [-> _]. apply ret_Ok_inv in H2 as [-> _].
    specialize (IH _ _ _ _ Hc0 Hc2).
    destruct (Pauli.eqb x p1) eqn:He1, (Pauli.eqb x p2) eqn:He2.
    + apply Pauli_eqb_eq in He1, He2. congruence.
    + simpl. by apply submseteq_skip.
    + rewrite <- Permutation_middle. by apply submseteq_skip.
    + by apply submseteq_cons.
Qed.

(** Take the steps of a run that append no rotation apart. *)
Ltac quiet_steps :=
  repeat match goal with
         | Hs : emit _ _ _ _ = (Ok _, _) |- _ => rewrite emit_run in Hs; injection Hs as <- <-
         | Hs : propagate _ _ _ = (Ok _, _) |- _ => apply propagate_perm in Hs
         | Hs : basis_change_forward _ _ _ _ _ = (Ok _, _) |- _ =>
             apply basis_change_forward_quiet in Hs as [? ?]
         | Hs : basis_change_back _ _ _ _ = (Ok _, _) |- _ =>
             apply basis_change_back_quiet in Hs as [? ?]
         | Hs : ret _ _ = (Ok _, _) |- _ => apply ret_Ok_inv in Hs as [-> ->]
         end;
  simpl in *.

Ltac count_rotations :=
  rewrite ?rz_angles_app, ?app_nil_r in *; simpl in *;
  repeat match goal with
         | Hq : rz_angles _ = _ |- _ => rewrite Hq; clear Hq; simpl
         end;
  rewrite ?app_nil_r, ?length_app in *; simpl in *; try done; try lia.

Section Helpers.
Variable rec : list nat -> list nat -> nat -> Pauli.t -> M (synth_state A) (list (gate A)).
Hypothesis rec_rotates :
  forall columns qubits row rec_type s qc s',
    rec columns qubits row rec_type s = (Ok qc, s') -> rotates_within columns s qc s'.

Lemma check_identity_rotates columns remaining row row_next rec_type s qc s' :
  check_identity rec columns remaining row row_next rec_type s = (Ok qc, s') ->
  rotates_within columns s qc s'.
Proof using rec_rotates.
  destruct columns as [|col columns]; simpl; intros Hrun.
  { apply ret_Ok_inv in Hrun as [-> ->]. apply rotates_within_nil. }
  run_inv Hrun. apply rec_rotates in Hc4 as (l & Hl & Hsub & Hrz). quiet_steps.
  exists l. split; [congruence|]. split; [done|]. count_rotations.
Qed.

Lemma simplify_one_p_rotates columns remaining row rec_type row_next t s qc s' :
  simplify_one_p rec columns remaining row rec_type row_next t s = (Ok qc, s') ->
  rotates_within columns s qc s'.
Proof using rec_rotates.
  destruct columns as [|col columns]; simpl; intros Hrun.
  { apply ret_Ok_inv in Hrun as [-> ->]. apply rotates_within_nil. }
  run_inv Hrun. apply rec_rotates in Hc3 as (l & Hl & Hsub & Hrz). quiet_steps.
  exists l. split; [congruence|]. split; [done|]. count_rotations.
Qed.

Lemma simplify_twp_p_rotates columns remaining row rec_type row_next t1 t2 s qc s' :
  simplify_twp_p rec columns remaining row rec_type row_next t1 t2 s = (Ok qc, s') ->
  rotates_within columns s qc s'.
Proof using rec_rotates.
  unfold simplify_twp_p. destruct columns as [|col columns].
  { intros [-> ->]%ret_Ok_inv. apply rotates_within_nil. }
  cbv beta iota. generalize (col :: columns). clear col columns. intros columns Hrun.
  run_inv Hrun.
  assert (perm_gadgets s1 = perm_gadgets s0 /\ rz_angles x0 = rz_angles x) as [Hp1 Hr1].
  { destruct t1, t2; try (by apply ret_Ok_inv in Hc0 as [-> ->]);
      run_inv Hc0; quiet_steps; (split; [congruence|count_rotations]). }
  apply (read_only_run _ _ _ _
           (read_only_columns_where _ _ _ (fun col => read_only_pp_item_at col row_next)))
    in Hc3 as Hs4. subst s4.
  apply (read_only_run _ _ _ _
           (read_only_columns_where _ _ _ (fun col => read_only_pp_item_at col row_next)))
    in Hc4 as Hs5. subst s5.
  pose proof (columns_where_disjoint _ Pauli.Z Pauli.Y columns s3 x3 s3 x4 s3
                (fun col => read_only_pp_item_at col row_next) ltac:(done) Hc3 Hc4) as Hdis.
  apply rec_rotates in Hc5, Hc6.
  pose proof (rotates_within_mono _ _ _ _ _ Hdis (rotates_within_app _ _ _ _ _ _ _ Hc5 Hc6))
    as (l & Hl & Hsub & Hrz).
  assert (perm_gadgets s' = perm_gadgets s9 /\ rz_angles qc = rz_angles x8) as [Hp2 Hr2].
  { destruct t1, t2; try (by apply ret_Ok_inv in Hrun as [-> ->]);
      quiet_steps; (split; [congruence|count_rotations]). }
  quiet_steps. exists l. split; [congruence|]. split; [done|].
  rewrite Hr2. count_rotations.
Qed.

End Helpers.

Lemma recurse_rotates fuel G :
  (forall columns qubits s qc s',
     identity_recurse fuel G columns qubits s = (Ok qc, s') ->
     rotates_within columns s qc s') /\
  (forall columns qubits row rec_type s qc s',
     p_recurse fuel G columns qubits row rec_type s = (Ok qc, s') ->
     rotates_within columns s qc s').
Proof.
  induction fuel as [|fuel [IHi IHp]]; [by split|]. split.
  - intros columns qubits s qc s' Hrun. simpl in Hrun.
    destruct columns as [|col columns].
    { apply ret_Ok_inv in Hrun as [-> ->]. apply rotates_within_nil. }
    run_inv Hrun.
    apply update_single_qubits_quiet in Hc as [Hp0 Hr0].
    apply update_pair_qubits_quiet in Hc0 as [Hp1 Hr1].
    apply (read_only_run _ _ _ _ (read_only_pick_row (A:=A) _ _)) in Hc1 as ->.
    destruct x2 as [[[pp_i pp_x] pp_y] pp_z].
    apply partition_run in Hc2 as [-> Hperm]. run_inv Hrun.
    apply ret_Ok_inv in Hrun as [-> ->].
    apply IHp in Hc0, Hc1, Hc2.
    assert (rotates_within pp_i s1 x2 s2) as Hi.
    { destruct (without x1 qubits); [by eapply apply_rotation_rotates|by eapply IHi]. }
    assert (rz_angles x0 = []) as Hdiag by (rewrite Hr1, Hr0; done).
    replace (x2 ++ x3 ++ x4 ++ x5 ++ x0) with ((x2 ++ x3 ++ x4 ++ x5) ++ x0)
      by (by rewrite <- !app_assoc).
    apply (rotates_within_frame _ s s1 s5 s5); [congruence|done| |done|].
    { by apply rz_angles_inverse. }
    apply (rotates_within_mono (pp_i ++ pp_x ++ pp_y ++ pp_z)); [by rewrite Hperm|].
    by repeat (eapply rotates_within_app; [eassumption|]).
  - intros columns qubits row rec_type s qc s' Hrun. simpl in Hrun.
    destruct (Pauli.eqb rec_type Pauli.I); [done|].
    destruct columns as [|col columns].
    { apply ret_Ok_inv in Hrun as [-> ->]. apply rotates_within_nil. }
    destruct qubits as [|q qubits]; [by eapply apply_rotation_rotates|].
    destruct (neighbors G _ row) as [|nb nbs]; [done|].
    run_inv Hrun.
    apply (read_only_run _ _ _ _ (read_only_pick_row (A:=A) _ _)) in Hc as ->.
    destruct x0 as [[[[[pp_i t1] t2] pp2] t_p1] pp1].
    apply partition__run in Hc0 as [-> Hperm]. run_inv Hrun.
    apply ret_Ok_inv in Hrun as [-> ->].
    apply (simplify_one_p_rotates _ IHp) in Hc1.
    apply (simplify_twp_p_rotates _ IHp) in Hc0.
    assert (rotates_within pp_i s x0 s0) as Hi.
    { destruct (negb _); [by eapply IHi|by eapply (check_identity_rotates _ IHp)]. }
    rewrite app_nil_r.
    apply (rotates_within_mono (pp_i ++ pp2 ++ pp1)); [by rewrite Hperm|].
    by repeat (eapply rotates_within_app; [eassumption|]).
Qed.

(** X19 — whatever the polynomial class does in [propagate] and
    [__getitem__]: when [pauli_polynomial_steiner_gray_nc] returns, no
    gadget index occurs twice in [perm_gadgets], every entry is an index
    of the polynomial, and the circuit has exactly one [rz] per entry. *)
Theorem synthesis_rotates_no_gadget_twice fuel n G s circ_out perm permutation s' :
  pauli_polynomial_steiner_gray_nc fuel n G s = (Ok (circ_out, perm, permutation), s') ->
  NoDup perm /\
  (forall col, col ∈ perm -> col < length (pp_gadgets s)) /\
  length (rz_angles circ_out) = length perm.
Proof.
  unfold pauli_polynomial_steiner_gray_nc. intros Hrun. run_inv Hrun.
  unfold modify in Hc. injection Hc as _ <-.
  apply recurse_rotates in Hc0 as (l & Hl & Hsub & Hrz). simpl in Hl.
  apply (read_only_run _ _ _ _ (read_only_dict_values _ _)) in Hc1 as ->.
  apply ret_Ok_inv in Hrun as [Heq ->]. injection Heq as -> -> _.
  rewrite Hl. split; [|split; [|done]].
  - apply submseteq_Permutation in Hsub as [k Hk].
    pose proof (NoDup_seq 0 (length (pp_gadgets s))) as Hnd.
    rewrite Hk in Hnd. by apply NoDup_app in Hnd as [? _].
  - intros col Hcol. eapply elem_of_submseteq in Hcol; [|exact Hsub].
    apply elem_of_seq in Hcol. lia.
Qed.

End RotatesOnce.

Lemma synthesis_rotates_no_gadget_twice_witness :
  NoDup [0; 2; 1] /\
  (forall col, col ∈ [0; 2; 1] -> col < length (pp_gadgets crossing_input)) /\
  length (rz_angles (fst (fst crossing_output))) = length [0; 2; 1].
Proof.
  assert (pauli_polynomial_steiner_gray_nc (H:=columns_collaborators) 10 2
            (mkNxGraph [0; 1] [(0, 1)]) crossing_input
          = (Ok crossing_output, crossing_final)) as Hrun
    by (vm_compute; reflexivity).
  exact (synthesis_rotates_no_gadget_twice (H:=columns_collaborators) 10 2
           (mkNxGraph [0; 1] [(0, 1)]) crossing_input _ _ _ _ Hrun).
Defined.

(** ** Synthesis: choosing a row, splitting the columns *)

Section RowsAndPartitions.
Context {A : Type}.
Implicit Types (s : synth_state A).

Lemma first_max_spec best best_score xs :
  exists score,
    (first_max best best_score xs, score) ∈ (best, best_score) :: xs /\
    forall q' score', (q', score') ∈ (best, best_score) :: xs -> score' <= score.
Proof.
  revert best best_score. induction xs as [|[q sc] xs IH]; intros best best_score; simpl.
  - exists best_score. split; [left|].
    intros q' score' [= -> ->]%list_elem_of_singleton. done.
  - destruct (best_score <? sc) eqn:Hlt.
    + apply Nat.ltb_lt in Hlt. destruct (IH q sc) as (score & Hs & Hmax).
      exists score. split; [by right|].
      intros q' score' [[= -> ->]|Hq]%elem_of_cons; [|by eapply (Hmax q')].
      specialize (Hmax q sc ltac:(left)). lia.
    + apply Nat.ltb_ge in Hlt. destruct (IH best best_score) as (score & Hs & Hmax).
      exists score. split.
      { apply elem_of_cons in Hs as [Hs|Hs]; [rewrite Hs; left|by do 2 right]. }
      intros q' score' [[= -> ->]|[[= -> ->]|Hq]%elem_of_cons]%elem_of_cons.
      * apply (Hmax best). left.
      * specialize (Hmax best best_score ltac:(left)). lia.
      * apply (Hmax q'). by right.
Qed.

Lemma qubit_scores_qubits columns qubits s scores s' :
  qubit_scores (A:=A) columns qubits s = (Ok scores, s') -> scores.*1 = qubits.
Proof.
  revert scores s'. induction qubits as [|q qubits IH]; intros scores s' Hrun; simpl in *.
  - by apply ret_Ok_inv in Hrun as [-> _].
  - run_inv Hrun. apply ret_Ok_inv in Hrun as [-> _]. simpl. f_equal.
    apply (read_only_run _ _ _ _
             (read_only_columns_where _ _ _ (fun col => read_only_pauli_at col q)))
      in Hc as ->.
    apply (read_only_run _ _ _ _
             (read_only_columns_where _ _ _ (fun col => read_only_pauli_at col q)))
      in Hc0 as ->.
    apply (read_only_run _ _ _ _
             (read_only_columns_where _ _ _ (fun col => read_only_pauli_at col q)))
      in Hc1 as ->.
    apply (read_only_run _ _ _ _
             (read_only_columns_where _ _ _ (fun col => read_only_pauli_at col q)))
      in Hc2 as ->.
    by eapply IH.
Qed.

Lemma qubit_scores_no_columns qubits s :
  qubit_scores (A:=A) [] qubits s = (Ok ((fun q => (q, 0)) <$> qubits), s).
Proof.
  induction qubits as [|q qubits IH]; [done|].
  cbn [qubit_scores columns_where]. unfold bind at 1 2 3 4. cbn [ret length].
  rewrite (bind_ok _ _ _ _ _ IH). done.
Qed.

(** X20 — [pick_row] returns one of the qubits it is given, the first one
    of largest score, and only reads the polynomial; with no qubit to
    choose from it raises ValueError ([max] of an empty list), and with no
    column every score is 0 and the first qubit is returned. *)
Theorem pick_row_picks_a_listed_qubit columns qubits s :
  (qubits = [] -> pick_row (A:=A) columns qubits s = (Raise ValueError, s)) /\
  (forall q s', pick_row columns qubits s = (Ok q, s') ->
     s' = s /\ q ∈ qubits /\
     exists scores score,
       qubit_scores columns qubits s = (Ok scores, s) /\ (q, score) ∈ scores /\
       forall q' score', (q', score') ∈ scores -> score' <= score) /\
  (forall q qs, qubits = q :: qs -> columns = [] -> pick_row columns qubits s = (Ok q, s)).
Proof.
  split; [by intros ->|]. split.
  - intros q s' Hrun.
    pose proof (read_only_run _ _ _ _ (read_only_pick_row (A:=A) _ _) Hrun) as ->.
    split; [done|]. unfold pick_row in Hrun. run_inv Hrun.
    pose proof (read_only_run _ _ _ _ (read_only_qubit_scores (A:=A) _ _) Hc) as ->.
    pose proof (qubit_scores_qubits _ _ _ _ _ Hc) as Hq.
    destruct x as [|[q0 sc0] scores]; [done|]. simpl in Hrun.
    apply ret_Ok_inv in Hrun as [-> _].
    destruct (first_max_spec q0 sc0 scores) as (score & Hin & Hmax).
    split.
    + rewrite <- Hq. apply list_elem_of_fmap. by exists (first_max q0 sc0 scores, score).
    + by exists ((q0, sc0) :: scores), score.
  - intros q qs -> ->. unfold pick_row.
    rewrite (bind_ok _ _ _ _ _ (qubit_scores_no_columns (q :: qs) s)). simpl.
    unfold ret. do 2 f_equal. generalize 0 at 1. intros sc.
    induction qs as [|q' qs IH]; [done|]. simpl. apply IH.
Qed.

Lemma partition_classes row columns s cols_i cols_x cols_y cols_z s' :
  partition_pauli_polynomial (A:=A) row columns s
  = (Ok (cols_i, cols_x, cols_y, cols_z), s') ->
  (forall col, col ∈ cols_i -> pauli_at col row s = (Ok Pauli.I, s)) /\
  (forall col, col ∈ cols_x -> pauli_at col row s = (Ok Pauli.X, s)) /\
  (forall col, col ∈ cols_y -> pauli_at col row s = (Ok Pauli.Y, s)) /\
  (forall col, col ∈ cols_z -> pauli_at col row s = (Ok Pauli.Z, s)).
Proof.
  revert cols_i cols_x cols_y cols_z s'.
  induction columns as [|col columns IH]; intros ci cx cy cz s' Hrun; simpl in *.
  - injection Hrun as <- <- <- <- <-. repeat split; intros ? Hin; by apply elem_of_nil in Hin.
  - run_inv Hrun. destruct x0 as [[[ci' cx'] cy'] cz'].
    apply ret_Ok_inv in Hrun as [Heq ->].
    pose proof (read_only_run _ _ _ _ (read_only_pauli_at (A:=A) _ _) Hc) as ->.
    destruct (IH _ _ _ _ _ Hc0) as (Hi & Hx & Hy & Hz).
    destruct x; injection Heq as -> -> -> ->; repeat split; try done;
      intros c [->|Hin]%elem_of_cons; auto.
Qed.

(** X21 — [partition_pauli_polynomial_] only reads the polynomial and
    splits the columns it is given: the identity columns, the columns of
    the two Pauli types it pairs, and the columns of the third type are
    together a rearrangement of the input, every column is filed under the
    Pauli value it has at [row], the three types are X, Y and Z in some
    order, and the two paired types have together at least twice as many
    columns as the type left alone. *)
Theorem partition_singles_out_the_rarest_type row columns s pp_i t1 t2 pp2 t_p1 pp1 s' :
  partition_pauli_polynomial_ (A:=A) row columns s
  = (Ok (pp_i, t1, t2, pp2, t_p1, pp1), s') ->
  s' = s /\
  pp_i ++ pp2 ++ pp1 ≡ₚ columns /\
  2 * length pp1 <= length pp2 /\
  (forall col, col ∈ pp_i -> pauli_at col row s = (Ok Pauli.I, s)) /\
  (forall col, col ∈ pp1 -> pauli_at col row s = (Ok t_p1, s)) /\
  (forall col, col ∈ pp2 ->
     pauli_at col row s = (Ok t1, s) \/ pauli_at col row s = (Ok t2, s)) /\
  [t1; t2; t_p1] ≡ₚ [Pauli.X; Pauli.Y; Pauli.Z].
Proof.
  intros Hrun. pose proof (partition__run _ _ _ _ _ _ _ _ _ _ Hrun) as [-> Hperm].
  split; [done|]. split; [done|].
  unfold partition_pauli_polynomial_ in Hrun. run_inv Hrun.
  destruct x as [[[ci cx] cy] cz].
  pose proof (read_only_run _ _ _ _ (read_only_partition (A:=A) _ _) Hc) as ->.
  destruct (partition_classes _ _ _ _ _ _ _ _ Hc) as (Hi & Hx & Hy & Hz).
  apply ret_Ok_inv in Hrun as [Heq _]. revert Heq Hperm.
  destruct (_ && _) eqn:H1;
    [|destruct (length cy + length cz <=? length cx + length cz) eqn:H2];
    intros Heq Hperm; simplify_eq.
  - apply andb_prop in H1 as [?%Nat.leb_le ?%Nat.leb_le].
    split; [rewrite length_app; lia|]. repeat split; try done.
    intros col [?|?]%elem_of_app; auto.
  - apply andb_false_iff in H1. apply Nat.leb_le in H2.
    split; [rewrite length_app; destruct H1 as [?%Nat.leb_gt|?%Nat.leb_gt]; lia|].
    repeat split; try done.
    + intros col [?|?]%elem_of_app; auto.
    + apply perm_skip, perm_swap.
  - apply andb_false_iff in H1. apply Nat.leb_gt in H2.
    split; [rewrite length_app; destruct H1 as [?%Nat.leb_gt|?%Nat.leb_gt]; lia|].
    repeat split; try done.
    + intros col [?|?]%elem_of_app; auto.
    + symmetry. apply (Permutation_cons_append [Pauli.Y; Pauli.Z] Pauli.X).
Qed.

End RowsAndPartitions.

Lemma partition_singles_out_the_rarest_type_witness :
  crossing_input = crossing_input /\
  [] ++ [0; 2] ++ [1] ≡ₚ [0; 1; 2] /\
  2 * length [1] <= length [0; 2] /\
  (forall col, col ∈ [] ->
     pauli_at col 0 crossing_input = (Ok Pauli.I, crossing_input)) /\
  (forall col, col ∈ [1] ->
     pauli_at col 0 crossing_input = (Ok Pauli.Z, crossing_input)) /\
  (forall col, col ∈ [0; 2] ->
     pauli_at col 0 crossing_input = (Ok Pauli.X, crossing_input) \/
     pauli_at col 0 crossing_input = (Ok Pauli.Y, crossing_input)) /\
  [Pauli.X; Pauli.Y; Pauli.Z] ≡ₚ [Pauli.X; Pauli.Y; Pauli.Z].
Proof.
  exact (partition_singles_out_the_rarest_type 0 [0; 1; 2] crossing_input
           [] Pauli.X Pauli.Y [0; 2] Pauli.Z [1] crossing_input eq_refl).
Defined.

(** ** Synthesis: the empty polynomial, and the polynomial class of the sources *)

Section SynthesisEdges.
Context {A : Type} `{Collaborators A}.
Implicit Types (s : synth_state A).

(** X22 — on a polynomial without gadgets, whatever the topology and the
    polynomial class, [pauli_polynomial_steiner_gray_nc] returns the empty
    circuit, an empty gadget order and the identity permutation, without a
    propagation and without asking anything of the polynomial. *)
Theorem synthesis_of_empty_polynomial fuel n G s :
  pp_gadgets s = [] ->
  pauli_polynomial_steiner_gray_nc (S fuel) n G s
  = (Ok ([], [], seq 0 n), mkSynth [] [] (trace s)).
Proof.
  intros Hpp. unfold pauli_polynomial_steiner_gray_nc, bind, get, modify. simpl.
  rewrite Hpp. simpl. unfold ret.
  rewrite dict_values_identity; [done|].
  apply Forall_forall. intros k Hk%elem_of_seq. lia.
Qed.

End SynthesisEdges.

Lemma synthesis_of_empty_polynomial_witness :
  pauli_polynomial_steiner_gray_nc (H:=source_collaborators) 1 3
    (mkNxGraph [0; 1; 2] [(0, 1); (1, 2)]) (mkSynth [] [7] [])
  = (Ok ([], [], seq 0 3), mkSynth [] [] []).
Proof.
  exact (synthesis_of_empty_polynomial (H:=source_collaborators) 0 3
           (mkNxGraph [0; 1; 2] [(0, 1); (1, 2)]) (mkSynth [] [7] []) eq_refl).
Defined.

Section SourceEdges.
Context {A : Type}.
Variable find_common : nat -> list (PauliGadget A) -> result (option Pauli.t).
Variable cutting : nat -> list nat -> NxGraph -> bool.
Variable neg : A -> A.
Variable propagate_pauli : Clifford.t -> PauliGadget A -> PauliGadget A.
Local Abbreviation src := (source_polynomial_class find_common cutting neg propagate_pauli).
Implicit Types (s : synth_state A).

Lemma source_compatible_on_not_Ok q1 q2 p1 p2 col columns s r s' :
  compatible_on (H:=src) q1 q2 p1 p2 (col :: columns) s = (Ok r, s') -> False.
Proof. simpl. intros Hrun. run_inv Hrun. by apply source_pp_item_at_not_Ok in Hc. Qed.

Lemma source_pick_best_pair_edges edges col columns qubits s r s' :
  pick_best_pair (H:=src) edges (col :: columns) qubits s = (Ok r, s') ->
  forall q_1 q_2, (q_1, q_2) ∈ edges -> ~ (q_1 ∈ qubits /\ q_2 ∈ qubits).
Proof.
  induction edges as [|[a b] edges IH]; intros Hrun q_1 q_2 Hin.
  { by apply elem_of_nil in Hin. }
  cbn [pick_best_pair] in Hrun.
  destruct (bool_decide (a ∈ qubits) && bool_decide (b ∈ qubits)) eqn:Hboth.
  - exfalso. run_inv Hrun. unfold find_compatible_pair in Hc.
    cbn [mbind list_bind mret list_ret app first_compatible] in Hc.
    apply bind_Ok_inv in Hc as (? & ? & Hbad & _).
    by apply source_compatible_on_not_Ok in Hbad.
  - apply elem_of_cons in Hin as [[= -> ->]|Hin]; [|by eapply IH].
    intros [Ha Hb]. apply andb_false_iff in Hboth as [Hf|Hf];
      apply bool_decide_eq_false in Hf; done.
Qed.

(** X23 — with the [PauliPolynomial] class of pauli_polynomial.py, which
    has no [__getitem__] and whose [propagate] takes the gate alone,
    [pauli_polynomial_steiner_gray_nc] returns only if the polynomial has
    no gadget or the graph of the topology has no edge between two of the
    qubits [0 .. num_qubits - 1]: with a gadget and such an edge, the
    search for a compatible pair evaluates [pp[l]] and the call does not
    return a result. *)
Theorem source_synthesis_returns_only_without_edges fuel n G s r s' :
  pauli_polynomial_steiner_gray_nc (H:=src) fuel n G s = (Ok r, s') ->
  pp_gadgets s = [] \/
  forall q_1 q_2, (q_1, q_2) ∈ g_edges G -> ~ (q_1 < n /\ q_2 < n).
Proof.
  unfold pauli_polynomial_steiner_gray_nc. intros Hrun. run_inv Hrun.
  unfold modify in Hc. injection Hc as _ <-.
  destruct (pp_gadgets s) as [|g gs] eqn:Hpp; [by left|]. right.
  destruct fuel as [|fuel]; [done|]. simpl in Hc0. run_inv Hc0.
  apply source_update_single_qubits in Hc as [-> ->].
  unfold update_pair_qubits in Hc2. run_inv Hc2.
  intros q_1 q_2 Hin [H1 H2].
  eapply (source_pick_best_pair_edges _ _ _ _ _ _ _ Hc); [exact Hin|].
  split; apply elem_of_seq; lia.
Qed.

End SourceEdges.

Lemma source_synthesis_returns_only_without_edges_witness :
  pp_gadgets idle_qubit_input = [] \/
  forall q_1 q_2, (q_1, q_2) ∈ g_edges (mkNxGraph [0; 1] []) -> ~ (q_1 < 2 /\ q_2 < 2).
Proof.
  exact (source_synthesis_returns_only_without_edges
           spec_find_common_paulis spec_is_cutting Z.opp no_rule
           10 2 (mkNxGraph [0; 1] []) idle_qubit_input _ _ eq_refl).
Defined.

(** ** Synthesis: what [apply_rotation] emits *)

Section ApplyRotation.
Context {A : Type}.
Implicit Types (s : synth_state A) (qc : list (gate A)).

Lemma rotations_spec qc columns row s qc' s' :
  rotations (A:=A) qc columns row s = (Ok qc', s') ->
  exists gadgets,
    Forall2 (fun col g => pp_gadgets s !! col = Some g) columns gadgets /\
    qc' = qc ++ map (fun g => gate_rz (angle g) row) gadgets /\
    s' = mkSynth (pp_gadgets s) (perm_gadgets s ++ columns)
           (trace s ++ map (fun g => Emitted Rotation (gate_rz (angle g) row)) gadgets).
Proof.
  revert qc s. induction columns as [|col columns IH]; intros qc s Hrun; simpl in *.
  - apply ret_Ok_inv in Hrun as [-> ->]. exists []. rewrite !app_nil_r.
    split; [constructor|]. split; [done|]. by destruct s.
  - run_inv Hrun. apply angle_at_Ok_inv in Hc as (-> & g & Hg & ->).
    rewrite emit_run in Hc0. injection Hc0 as <- <-.
    unfold perm_append, modify in Hc1. injection Hc1 as _ <-. simpl in Hrun.
    apply IH in Hrun as (gadgets & Hall & -> & ->). simpl in *.
    exists (g :: gadgets). split; [by constructor|]. simpl.
    by rewrite <- !app_assoc.
Qed.

(** X24 — [apply_rotation(columns, row, rec_type)] appends, for each
    column in order, one [rz] on [row] by the angle its gadget has then,
    between [h ... h] for type X, [v ... vdg] for type Y and nothing for
    the other types; it appends the columns to [perm_gadgets] in the same
    order, and neither changes nor propagates through the polynomial. *)
Theorem apply_rotation_emits_one_rz_per_column columns row rec_type s qc s' :
  apply_rotation (A:=A) columns row rec_type s = (Ok qc, s') ->
  exists gadgets,
    Forall2 (fun col g => pp_gadgets s !! col = Some g) columns gadgets /\
    qc = match rec_type with
         | Pauli.X => [gate_h row]
         | Pauli.Y => [gate_v row]
         | _ => []
         end
         ++ map (fun g => gate_rz (angle g) row) gadgets
         ++ match rec_type with
            | Pauli.X => [gate_h row]
            | Pauli.Y => [gate_vdg row]
            | _ => []
            end /\
    s' = mkSynth (pp_gadgets s) (perm_gadgets s ++ columns)
           (trace s ++ map (Emitted Rotation) qc).
Proof.
  unfold apply_rotation. intros Hrun. run_inv Hrun.
  destruct rec_type; simpl in Hc; injection Hc as <- <-;
    apply rotations_spec in Hc0 as (gadgets & Hall & -> & ->);
    simpl in Hrun; injection Hrun as <- <-; simpl;
    exists gadgets; (split; [done|]); (split; [by rewrite ?app_nil_r|]);
    rewrite ?map_app, ?map_map, ?app_nil_r, <- ?app_assoc; simpl;
    by rewrite ?map_app, ?map_map, <- ?app_assoc.
Qed.

End ApplyRotation.

Lemma apply_rotation_emits_one_rz_per_column_witness :
  exists gadgets,
    Forall2 (fun col g => pp_gadgets crossing_input !! col = Some g) [2; 0] gadgets /\
    [gate_v 1; gate_rz 5%Z 1; gate_rz 1%Z 1; gate_vdg 1]
    = [gate_v 1] ++ map (fun g => gate_rz (angle g) 1) gadgets ++ [gate_vdg 1] /\
    mkSynth (pp_gadgets crossing_input) [2; 0]
      [Emitted Rotation (gate_v 1); Emitted Rotation (gate_rz 5%Z 1);
       Emitted Rotation (gate_rz 1%Z 1); Emitted Rotation (gate_vdg 1)]
    = mkSynth (pp_gadgets crossing_input) (perm_gadgets crossing_input ++ [2; 0])
        (trace crossing_input
         ++ map (Emitted Rotation)
              [gate_v 1; gate_rz 5%Z 1; gate_rz 1%Z 1; gate_vdg 1]).
Proof.
  exact (apply_rotation_emits_one_rz_per_column [2; 0] 1 Pauli.Y crossing_input
           [gate_v 1; gate_rz 5%Z 1; gate_rz 1%Z 1; gate_vdg 1]
           (mkSynth (pp_gadgets crossing_input) [2; 0]
              [Emitted Rotation (gate_v 1); Emitted Rotation (gate_rz 5%Z 1);
               Emitted Rotation (gate_rz 1%Z 1); Emitted Rotation (gate_vdg 1)])
           eq_refl).
Defined.

(** ** Simplification: what one pass of merging reports *)

Section PassReports.
Context {A : Type} `{AngleOps A}.
Implicit Types (s : store A) (vs : list (PauliGadget A)).

(** X25 — one pass of [propagate_phase_gadegts] over gadgets of equal
    length reports what it did: it returns True only if it left every
    object as it was, and False only if it has set the angle of one of the
    gadgets of the list to [0.0]. *)
Theorem propagate_phase_reports_the_merges n s refs vs converged s' :
  denotes s refs vs ->
  all_of_size n vs = true ->
  propagate_phase_gadegts refs s = (Ok converged, s') ->
  if converged then s' = s
  else exists r g, r ∈ refs /\ gadget_heap s' !! r = Some g /\ angle g = angle_zero.
Proof.
  intros Hden Hsize Hrun. unfold propagate_phase_gadegts in Hrun.
  destruct (propagate_loop_sim s refs vs (seq 0 (length refs)) true Hden) as [Hch Hag].
  rewrite Hrun in Hch, Hag. simpl in Hch.
  rewrite (denotes_length _ _ _ Hden) in Hag.
  destruct (propagate_loop_v_total n (length vs) 0 vs true Hsize)
    as (conv & vs' & Hv & _ & _ & Hz); [lia|].
  rewrite Hv in Hag. destruct Hag as [[= <-] Hden']. simpl in Hden'.
  destruct converged.
  - apply propagate_loop_v_converged in Hv as (-> & _). by eapply denotes_same_store.
  - destruct (Hz eq_refl) as [?|(i & g & Hg & Ha)]; [done|].
    destruct Hden' as [Hd' _].
    destruct (Forall2_lookup_r _ _ _ _ _ Hd' Hg) as (r & Hr & Hheap).
    exists r, g. split; [by eapply list_elem_of_lookup_2|done].
Qed.

End PassReports.

Lemma propagate_phase_reports_the_merges_witness :
  exists r g, r ∈ [0; 1; 2] /\
    gadget_heap (snd (propagate_phase_gadegts [0; 1; 2] merge_store)) !! r = Some g /\
    angle g = angle_zero.
Proof.
  assert (denotes merge_store [0; 1; 2] (gadget_heap merge_store)) as Hden
    by (split; [repeat constructor|apply (NoDup_seq 0 3)]).
  exact (propagate_phase_reports_the_merges 2 merge_store [0; 1; 2]
           (gadget_heap merge_store) false
           (snd (propagate_phase_gadegts [0; 1; 2] merge_store)) Hden eq_refl eq_refl).
Defined.

(** ** Minimal CX assignment: the root, and where the CX gates act *)

Lemma fill_incident_entries (P : nat * nat -> Prop) mst incident incident' :
  fill_incident mst incident = Ok incident' ->
  (forall q at_q e, incident !! q = Some at_q -> e ∈ at_q -> P e) ->
  (forall a b, (a, b) ∈ mst -> P (a, b) /\ P (b, a)) ->
  forall q at_q e, incident' !! q = Some at_q -> e ∈ at_q -> P e.
Proof.
  revert incident.
  induction mst as [|[a b] mst IH]; intros incident Hrun Hold Hnew q0 at0 e0 Hq0 He0;
    simpl in *.
  - injection Hrun as <-. by eapply Hold.
  - destruct (incident !! a) as [at_a|] eqn:Ha; [|done].
    destruct (<[a := at_a ∪ {[(a, b)]}]> incident !! b) as [at_b|] eqn:Hb; [|done].
    eapply (IH _ Hrun); [| |exact Hq0|exact He0].
    + intros q at_q e Hq He.
      destruct (decide (q = b)) as [->|Hqb].
      * rewrite lookup_insert_eq in Hq. injection Hq as <-.
        apply elem_of_union in He as [He|He%elem_of_singleton].
        -- destruct (decide (b = a)) as [->|Hba].
           ++ rewrite lookup_insert_eq in Hb. injection Hb as <-.
              apply elem_of_union in He as [He|He%elem_of_singleton].
              ** by eapply Hold.
              ** subst e. apply (Hnew a a). left.
           ++ rewrite lookup_insert_ne in Hb by done. by eapply Hold.
        -- subst e. apply (Hnew a b). left.
      * rewrite lookup_insert_ne in Hq by done.
        destruct (decide (q = a)) as [->|Hqa].
        -- rewrite lookup_insert_eq in Hq. injection Hq as <-.
           apply elem_of_union in He as [He|He%elem_of_singleton].
           ++ by eapply Hold.
           ++ subst e. apply (Hnew a b). left.
        -- rewrite lookup_insert_ne in Hq by done. by eapply Hold.
    + intros a' b' Hin. apply Hnew. by right.
Qed.

Lemma visit_incident_entries (Q : nat * nat -> Prop) arch es visited queue ladder
    queue' ladder' :
  visit_incident arch es visited queue ladder = Ok (queue', ladder') ->
  (forall e, e ∈ ladder -> Q e) ->
  (forall t h seg, (t, h) ∈ es -> decompose_cnot_ladder_z h t arch = Ok seg ->
     forall e, e ∈ seg -> Q e) ->
  forall e, e ∈ ladder' -> Q e.
Proof.
  revert queue ladder. induction es as [|[t h] es IH]; intros queue ladder Hrun Hold Hseg;
    simpl in *.
  - by injection Hrun as _ <-.
  - destruct (decide (h ∈ visited)).
    + eapply IH; [exact Hrun|done|]. intros t' h' seg Hin. apply Hseg. by right.
    + destruct (decompose_cnot_ladder_z h t arch) as [seg| |] eqn:Hd; simpl in *; [|done..].
      eapply IH; [exact Hrun| |].
      * intros e [He|He]%elem_of_app; [by apply Hold|].
        eapply (Hseg t h seg); [left|done..].
      * intros t' h' seg' Hin. apply Hseg. by right.
Qed.

Lemma bfs_entries (Q : nat * nat -> Prop) fuel arch incident visited queue ladder ladder' :
  bfs fuel arch incident visited queue ladder = Ok ladder' ->
  (forall e, e ∈ ladder -> Q e) ->
  (forall q at_q t h seg, incident !! q = Some at_q -> (t, h) ∈ at_q ->
     decompose_cnot_ladder_z h t arch = Ok seg -> forall e, e ∈ seg -> Q e) ->
  forall e, e ∈ ladder' -> Q e.
Proof.
  revert visited queue ladder.
  induction fuel as [|fuel IH]; intros visited queue ladder Hrun Hold Hseg; [done|].
  simpl in Hrun. destruct queue as [|q queue]; [by injection Hrun as <-|].
  destruct (incident !! q) as [at_q|] eqn:Hq; [|done].
  destruct (visit_incident _ _ _ _ _) as [[queue' ladder1]| |] eqn:Hv; simpl in Hrun;
    [|done..].
  eapply IH; [exact Hrun| |done].
  eapply visit_incident_entries; [exact Hv|done|].
  intros t h seg Hin. eapply Hseg; [exact Hq|]. by apply elem_of_elements.
Qed.

Section CxLadderOnPaths.
Context `{NetworkX}.

(** X26 — on a topology whose [shortest_path(u, v)] runs from [u] to [v],
    every pair of the ladder that [find_minimal_cx_assignment] returns
    joins two consecutive qubits of the shortest path between the two ends
    of a branch of the spanning tree: the ladder never asks for a [cx]
    between qubits that are not neighbours on such a path. *)
Theorem cx_ladder_joins_path_neighbours fuel column arch q0 ladder root :
  (forall u v, shortest_path arch u v !! 0 = Some u /\
               last (shortest_path arch u v) = Some v) ->
  find_minimal_cx_assignment fuel column arch q0 = Ok (ladder, root) ->
  forall a b, (a, b) ∈ ladder ->
    exists tail head i,
      ((tail, head) ∈ minimum_spanning_edges (build_graph column arch) \/
       (head, tail) ∈ minimum_spanning_edges (build_graph column arch)) /\
      ((shortest_path arch head tail !! i = Some a /\
        shortest_path arch head tail !! S i = Some b) \/
       (shortest_path arch head tail !! i = Some b /\
        shortest_path arch head tail !! S i = Some a)).
Proof.
  intros Hpaths Hrun a b Hin. unfold find_minimal_cx_assignment in Hrun.
  destruct (negb _); [done|].
  set (mst := minimum_spanning_edges (build_graph column arch)) in *.
  destruct (fill_incident mst _) as [incident| |] eqn:Hfill; simpl in Hrun; [|done..].
  destruct (chosen_root column q0) as [r| |]; simpl in Hrun; [|done..].
  destruct (bfs _ _ _ _ _ _) as [l| |] eqn:Hbfs; simpl in Hrun; [|done..].
  injection Hrun as -> ->.
  apply (bfs_entries
           (fun e => exists tail head i,
              ((tail, head) ∈ mst \/ (head, tail) ∈ mst) /\
              ((shortest_path arch head tail !! i = Some e.1 /\
                shortest_path arch head tail !! S i = Some e.2) \/
               (shortest_path arch head tail !! i = Some e.2 /\
                shortest_path arch head tail !! S i = Some e.1)))
           _ _ _ _ _ _ _ Hbfs) with (e := (a, b)); [|  |done].
  - intros e He. by apply elem_of_nil in He.
  - intros q at_q t h seg Hq Hth Hseg [a' b'] He.
    assert ((t, h) ∈ mst \/ (h, t) ∈ mst) as Hbranch.
    { apply (fill_incident_entries (fun e => (e.1, e.2) ∈ mst \/ (e.2, e.1) ∈ mst)
               mst _ _ Hfill) with (q := q) (at_q := at_q) (e := (t, h)); [| |done..].
      - intros q' at' e' Hq' He'. rewrite empty_incident_lookup in Hq'.
        destruct (decide _); [|done]. injection Hq' as <-. set_solver.
      - intros a0 b0 Hab. simpl. auto. }
    destruct (Hpaths h t) as [Hfirst Hlast].
    destruct (decide (2 <= length (shortest_path arch h t))) as [Hlen|Hshort].
    2:{ rewrite decompose_cnot_ladder_z_short in Hseg by lia. done. }
    destruct (decompose_cnot_ladder_z_on_path h t arch Hlen Hfirst Hlast)
      as (before & segment & Hrun & _ & Hadj).
    rewrite Hrun in Hseg. injection Hseg as <-.
    destruct (Hadj a' b' He) as [i Hi]. by exists t, h, i.
Qed.

(** X27 — the root [find_minimal_cx_assignment] returns is the [q0] it was
    given; without one it is the first active qubit of the column, and
    qubit 0 when no qubit is active. *)
Theorem cx_assignment_root fuel column arch q0 ladder root :
  find_minimal_cx_assignment fuel column arch q0 = Ok (ladder, root) ->
  match q0 with
  | Some q => root = q
  | None =>
      ((exists v, v ∈ column /\ v <> 0%Z) ->
       column !! root = Some 1%Z /\ forall j, j < root -> column !! j = Some 0%Z) /\
      ((forall v, v ∈ column -> v = 0%Z) -> root = 0)
  end.
Proof.
  unfold find_minimal_cx_assignment.
  destruct (negb (is_binary column)) eqn:Hbin; [done|].
  apply negb_false_iff in Hbin.
  destruct (fill_incident _ _); simpl; [|done..].
  destruct q0 as [q|]; simpl.
  - destruct (bfs _ _ _ _ _ _); simpl; [|done..]. by intros [= _ <-].
  - destruct (argmax column) as [r| |] eqn:Hroot; simpl; [|done..].
    destruct (bfs _ _ _ _ _ _); simpl; [|done..]. intros [= _ <-]. split.
    + intros Hactive. by apply argmax_first_active.
    + intros Hzero. destruct column as [|v column]; [done|].
      simpl in Hroot. injection Hroot as <-.
      rewrite (Hzero v) by left.
      apply andb_prop in Hbin as [_ Hbin].
      destruct (argmax_from_first 0 1 column Hbin) as [[-> _]|(k & _ & Hk & _)]; [done|].
      apply list_elem_of_lookup_2 in Hk. specialize (Hzero 1%Z ltac:(by right)). done.
Qed.

End CxLadderOnPaths.

Lemma cx_ladder_joins_path_neighbours_witness :
  exists tail head i,
    ((tail, head) ∈ minimum_spanning_edges (NetworkX:=prim_networkx)
                      (build_graph [1; 0; 1; 1]%Z complete_topology) \/
     (head, tail) ∈ minimum_spanning_edges (NetworkX:=prim_networkx)
                      (build_graph [1; 0; 1; 1]%Z complete_topology)) /\
    ((shortest_path complete_topology head tail !! i = Some 3 /\
      shortest_path complete_topology head tail !! S i = Some 0) \/
     (shortest_path complete_topology head tail !! i = Some 0 /\
      shortest_path complete_topology head tail !! S i = Some 3)).
Proof.
  apply (cx_ladder_joins_path_neighbours (H:=prim_networkx) 10 [1; 0; 1; 1]%Z
           complete_topology None [(2, 0); (3, 0)] 0).
  - intros u v. simpl. destruct (u =? v) eqn:Huv; [|done].
    apply Nat.eqb_eq in Huv. by subst.
  - vm_compute. reflexivity.
  - right. left.
Defined.

Lemma cx_assignment_root_witness :
  ((exists v, v ∈ [0; 0; 1; 1]%Z /\ v <> 0%Z) ->
   [0; 0; 1; 1]%Z !! 2 = Some 1%Z /\ forall j, j < 2 -> [0; 0; 1; 1]%Z !! j = Some 0%Z) /\
  ((forall v, v ∈ [0; 0; 1; 1]%Z -> v = 0%Z) -> 2 = 0).
Proof.
  exact (cx_assignment_root (H:=prim_networkx) 10 [0; 0; 1; 1]%Z complete_topology None
           [(3, 2)] 2 ltac:(vm_compute; reflexivity)).
Defined.

(** ** Simplification: the total angle of every Pauli string *)

Section TotalAngles.
Context {A : Type} `{AngleOps A}.
Variable same : relation A.
Context `{!Equivalence same} `{!Proper (same ==> same ==> same) angle_add}.
Hypothesis add_assoc :
  forall a b c, same (angle_add a (angle_add b c)) (angle_add (angle_add a b) c).
Hypothesis add_comm : forall a b, same (angle_add a b) (angle_add b a).
Hypothesis add_zero : forall a, same (angle_add angle_zero a) a.
Hypothesis collapsed_zero : forall a, not_collapsed a = false -> same a angle_zero.
Implicit Types (vs : list (PauliGadget A)).

Lemma add_swap a b c :
  same (angle_add a (angle_add b c)) (angle_add b (angle_add a c)).
Proof using Equivalence0 Proper0 add_assoc add_comm.
  rewrite add_assoc, (add_comm a b). symmetry. apply add_assoc.
Qed.

Lemma total_angle_add_into ps vs j g x :
  vs !! j = Some g ->
  same (total_angle ps (<[j := mkGadget (angle_add (angle g) x) (paulis g)]> vs))
       (angle_add (if decide (paulis g = ps) then x else angle_zero) (total_angle ps vs)).
Proof using Equivalence0 Proper0 add_assoc add_comm add_zero.
  revert j. induction vs as [|g' vs IH]; intros [|j] Hg; simpl in *; try done.
  - injection Hg as ->. destruct (decide _).
    + rewrite (add_comm (angle g) x). symmetry. apply add_assoc.
    + symmetry. apply add_zero.
  - rewrite (IH j Hg). apply add_swap.
Qed.

Lemma total_angle_merge ps vs idx idx_right g_left g_right :
  idx < idx_right -> vs !! idx = Some g_left -> vs !! idx_right = Some g_right ->
  paulis g_left = paulis g_right ->
  same (total_angle ps (merge_v idx idx_right vs)) (total_angle ps vs).
Proof using Equivalence0 Proper0 add_assoc add_comm add_zero.
  intros Hlt Hl Hr Heq. unfold merge_v. rewrite Hl, Hr.
  rewrite list_lookup_insert_ne by lia. rewrite Hl.
  revert idx idx_right Hlt Hl Hr.
  induction vs as [|g0 vs IH]; intros idx idx_right Hlt Hl Hr; [done|].
  destruct idx_right as [|j]; [lia|]. destruct idx as [|i]; simpl in *.
  - injection Hl as ->. rewrite (total_angle_add_into ps vs j g_right _ Hr).
    rewrite Heq. destruct (decide _); [apply add_zero|].
    by rewrite add_zero.
  - rewrite (IH i j); [done|lia|done..].
Qed.

Lemma total_angle_step n ps vs idx merged vs' :
  all_of_size n vs = true ->
  propagate_step_v idx vs = Ok (merged, vs') ->
  same (total_angle ps vs') (total_angle ps vs).
Proof using Equivalence0 Proper0 add_assoc add_comm add_zero.
  intros Hsize. unfold propagate_step_v, find_machting_parity_right_v.
  destruct (vs !! idx) as [g|] eqn:Hg; [|done].
  pose proof (find_right_v_spec g idx 0 (drop (S idx) vs)) as Hspec.
  destruct (find_right_v g idx 0 (drop (S idx) vs)) as [j|]; [|by intros [= _ <-]].
  destruct Hspec as (i & gj & -> & Hi & Hz & _). rewrite lookup_drop in Hi.
  replace (S idx + i) with (idx + 0 + i + 1) in Hi by lia.
  destruct (is_commuting_region_v _ _ _) as [c| |]; [|done..].
  destruct c; simpl; [|by intros [= _ <-]].
  rewrite Hi. intros [= _ <-].
  apply (total_angle_merge ps vs idx (idx + 0 + i + 1) g gj); [lia|done..|].
  apply zip_all_eq_eq; [|done].
  by rewrite (all_of_size_lookup _ _ _ _ Hsize Hg), (all_of_size_lookup _ _ _ _ Hsize Hi).
Qed.

Lemma total_angle_loop n ps m k vs converged converged' vs' :
  all_of_size n vs = true -> k + m <= length vs ->
  propagate_loop_v (seq k m) vs converged = Ok (converged', vs') ->
  same (total_angle ps vs') (total_angle ps vs) /\ map paulis vs' = map paulis vs.
Proof using Equivalence0 Proper0 add_assoc add_comm add_zero.
  revert k vs converged. induction m as [|m IH]; intros k vs converged Hsize Hlen; simpl.
  - by intros [= _ <-].
  - destruct (propagate_step_v_total n k vs Hsize) as (merged & vs1 & Hstep & Hp1 & _);
      [lia|].
    rewrite Hstep. intros Hrest.
    pose proof (total_angle_step n ps vs k merged vs1 Hsize Hstep) as Ht.
    apply IH in Hrest as [Ht' Hp'].
    + split; [by rewrite Ht'|congruence].
    + by rewrite <- (all_of_size_paulis n vs vs1).
    + apply (f_equal length) in Hp1. rewrite !length_map in Hp1. lia.
Qed.

Lemma total_angle_remove ps vs :
  same (total_angle ps (remove_collapsed_v vs)) (total_angle ps vs).
Proof using Equivalence0 Proper0 add_zero collapsed_zero.
  unfold remove_collapsed_v. induction vs as [|g vs IH]; simpl; [done|].
  destruct (not_collapsed (angle g)) eqn:Hnc; simpl.
  - by rewrite IH.
  - rewrite IH. destruct (decide _); [|by rewrite add_zero].
    by rewrite (collapsed_zero _ Hnc), add_zero.
Qed.

Lemma total_angle_simplify_loop n ps fuel vs vs' :
  all_of_size n vs = true ->
  simplify_loop_v fuel vs = Ok vs' ->
  same (total_angle ps vs') (total_angle ps vs).
Proof using All.
  revert vs. induction fuel as [|fuel IH]; intros vs Hsize; [done|]. simpl.
  pose proof (remove_collapsed_v_size n vs Hsize) as Hsize0.
  unfold propagate_phase_gadegts_v.
  destruct (propagate_loop_v _ _ _) as [[conv vs1]| |] eqn:Hloop; [|done..].
  apply (total_angle_loop n ps) in Hloop as [Ht Hp]; [|done|lia].
  destruct conv.
  - intros [= <-]. rewrite Ht. apply total_angle_remove.
  - intros Hrec. apply IH in Hrec.
    + rewrite Hrec, Ht. apply total_angle_remove.
    + by rewrite <- (all_of_size_paulis n (remove_collapsed_v vs) vs1).
Qed.

(** X28 — for an angle type with exact arithmetic, simplification keeps
    the rotation of every Pauli string.  Let [same] be an equivalence of
    angles that [+] respects, for which [+] is associative and commutative
    with [0.0] neutral, and under which every angle that
    [remove_collapsed_pauli_gadegts] drops is the same as [0.0] (for Python
    [int] angles: equality).  Then, for a polynomial whose gadgets all have
    [num_qubits] entries, the angles of the gadgets with a given Pauli list
    add up to the same total before and after [simplify_pauli_polynomial].
    Float angles, whose sums round, do not satisfy these laws. *)
Theorem simplify_keeps_total_angles fuel (s : store A) pp n vs pp1 s1 :
  poly_value s pp = Some (n, vs) ->
  all_of_size n vs = true ->
  simplify_pauli_polynomial fuel pp s = (Ok pp1, s1) ->
  exists vs',
    poly_value s1 pp1 = Some (n, vs') /\
    forall ps, same (total_angle ps vs') (total_angle ps vs).
Proof using All.
  intros Hval Hsize Hrun.
  destruct (simplify_ok_inv fuel s pp n vs pp1 s1 Hval Hrun)
    as (vs' & refs' & Hv & _ & Hval' & _).
  exists vs'. split; [done|]. intros ps. unfold simplify_v in Hv.
  destruct (simplify_loop_v fuel vs) as [vs2| |] eqn:Hloop; [|done..].
  destruct (all_of_size n vs2); [|done]. injection Hv as ->.
  by eapply total_angle_simplify_loop.
Qed.

End TotalAngles.

(** With Python [int] angles, on [merge_store]: [Z Z] by 1 and by 5 become
    [Z Z] by 6, and [Z I] by 3 stays. *)
Lemma simplify_keeps_total_angles_witness :
  exists vs',
    poly_value (snd (simplify_pauli_polynomial (H:=PyInt_AngleOps) 4 0 merge_store))
      (length (poly_heap merge_store)) = Some (2, vs') /\
    forall ps,
      total_angle (H:=PyInt_AngleOps) ps vs'
      = total_angle (H:=PyInt_AngleOps) ps
          [mkGadget 1%Z [Pauli.Z; Pauli.Z]; mkGadget 3%Z [Pauli.Z; Pauli.I];
           mkGadget 5%Z [Pauli.Z; Pauli.Z]].
Proof.
  assert (forall a, not_collapsed (H:=PyInt_AngleOps) a = false -> a = 0%Z) as Hzero.
  { intros a. unfold not_collapsed. simpl. intros Ha.
    by apply negb_false_iff, Z.eqb_eq in Ha. }
  exact (simplify_keeps_total_angles (H:=PyInt_AngleOps) eq
           Z.add_assoc Z.add_comm Z.add_0_l Hzero
           4 merge_store 0 2
           [mkGadget 1%Z [Pauli.Z; Pauli.Z]; mkGadget 3%Z [Pauli.Z; Pauli.I];
            mkGadget 5%Z [Pauli.Z; Pauli.Z]]
           (length (poly_heap merge_store))
           (snd (simplify_pauli_polynomial (H:=PyInt_AngleOps) 4 0 merge_store))
           eq_refl eq_refl eq_refl).
Defined.

(** ** Synthesis: [check_identity] conjugates *)

Section CheckIdentity.
Context {A : Type} `{Collaborators A}.
Implicit Types (s : synth_state A) (qc : list (gate A)).

(** X29 — on a non-empty list of columns, the circuit of [check_identity]
    is a conjugation: the basis change of [row] ([h] for type X, [vdg] for
    type Y), [cx(row_next, row)], [cx(row, row_next)], then the circuit of
    [p_recurse] on the same columns with [row_next] as a Z row, then the
    inverses of the gates before it in reverse order; the gate appended
    for type Y is [vdg] although the gate propagated is [V]. *)
Theorem check_identity_is_a_sandwich
    (rec : list nat -> list nat -> nat -> Pauli.t -> M (synth_state A) (list (gate A)))
    col columns remaining row row_next rec_type s qc s' :
  check_identity rec (col :: columns) remaining row row_next rec_type s = (Ok qc, s') ->
  exists s1 qc_i s2,
    rec (col :: columns) remaining row_next Pauli.Z s1 = (Ok qc_i, s2) /\
    qc = (match rec_type with
          | Pauli.X => [gate_h row]
          | Pauli.Y => [gate_vdg row]
          | _ => []
          end ++ [gate_cx row_next row; gate_cx row row_next])
         ++ qc_i
         ++ inverse (match rec_type with
                     | Pauli.X => [gate_h row]
                     | Pauli.Y => [gate_vdg row]
                     | _ => []
                     end ++ [gate_cx row_next row; gate_cx row row_next]) /\
    propagated_cliffords (drop (length (trace s)) (trace s1))
    = match rec_type with
      | Pauli.X => [Clifford.H row]
      | Pauli.Y => [Clifford.V row]
      | _ => []
      end ++ [Clifford.CX row_next row; Clifford.CX row row_next].
Proof.
  cbn [check_identity]. intros Hrun. run_inv Hrun.
  exists s4, x4, s5. split; [done|].
  rewrite emit_run in Hc0. injection Hc0 as <- <-.
  rewrite emit_run in Hc1. injection Hc1 as <- <-.
  apply propagate_Ok_inv in Hc2 as Ht2. apply propagate_Ok_inv in Hc3 as Ht3.
  simpl in Ht2.
  rewrite emit_run in Hc5. injection Hc5 as <- <-.
  rewrite emit_run in Hc6. injection Hc6 as <- <-.
  destruct rec_type; simpl in Hc, Hrun.
  - apply ret_Ok_inv in Hc as [-> ->]. apply ret_Ok_inv in Hrun as [-> _].
    split; [by rewrite <- !app_assoc|].
    rewrite Ht3, Ht2. rewrite <- !app_assoc, drop_app_length. done.
  - run_inv Hc. rewrite emit_run in Hc0. injection Hc0 as <- <-.
    apply propagate_Ok_inv in Hc1 as Ht1. apply ret_Ok_inv in Hc as [-> ->].
    injection Hrun as <- _. simpl in Ht1.
    split; [by rewrite <- !app_assoc|].
    rewrite Ht3, Ht2, Ht1. rewrite <- !app_assoc, drop_app_length. done.
  - run_inv Hc. rewrite emit_run in Hc0. injection Hc0 as <- <-.
    apply propagate_Ok_inv in Hc1 as Ht1. apply ret_Ok_inv in Hc as [-> ->].
    injection Hrun as <- _. simpl in Ht1.
    split; [by rewrite <- !app_assoc|].
    rewrite Ht3, Ht2, Ht1. rewrite <- !app_assoc, drop_app_length. done.
  - apply ret_Ok_inv in Hc as [-> ->]. apply ret_Ok_inv in Hrun as [-> _].
    split; [by rewrite <- !app_assoc|].
    rewrite Ht3, Ht2. rewrite <- !app_assoc, drop_app_length. done.
Qed.

End CheckIdentity.

Lemma check_identity_is_a_sandwich_witness :
  exists s1 qc_i s2,
    p_recurse (H:=columns_collaborators) 3 (mkNxGraph [0; 1] [(0, 1)]) [0] [] 1 Pauli.Z s1
    = (Ok qc_i, s2) /\
    [gate_h 0; gate_cx 1 0; gate_cx 0 1; gate_rz 7%Z 1; gate_cx 0 1; gate_cx 1 0; gate_h 0]
    = ([gate_h 0] ++ [gate_cx 1 0; gate_cx 0 1])
      ++ qc_i
      ++ inverse (H:=columns_collaborators) ([gate_h 0] ++ [gate_cx 1 0; gate_cx 0 1]) /\
    propagated_cliffords (drop (length (trace swap_input)) (trace s1))
    = [Clifford.H 0] ++ [Clifford.CX 1 0; Clifford.CX 0 1].
Proof.
  assert (check_identity (H:=columns_collaborators)
            (p_recurse (H:=columns_collaborators) 3 (mkNxGraph [0; 1] [(0, 1)]))
            [0] [] 0 1 Pauli.X swap_input
          = (Ok [gate_h 0; gate_cx 1 0; gate_cx 0 1; gate_rz 7%Z 1;
                 gate_cx 0 1; gate_cx 1 0; gate_h 0],
             mkSynth [mkGadget 7%Z [Pauli.I; Pauli.Z]] [0]
               [Emitted Forward (gate_h 0); Propagated (Clifford.H 0) [0];
                Emitted Forward (gate_cx 1 0); Emitted Forward (gate_cx 0 1);
                Propagated (Clifford.CX 1 0) [0]; Propagated (Clifford.CX 0 1) [0];
                Emitted Rotation (gate_rz 7%Z 1); Emitted Undo (gate_cx 0 1);
                Emitted Undo (gate_cx 1 0); Emitted Undo (gate_h 0)])) as Hrun
    by (vm_compute; reflexivity).
  exact (check_identity_is_a_sandwich (H:=columns_collaborators)
           (p_recurse (H:=columns_collaborators) 3 (mkNxGraph [0; 1] [(0, 1)]))
           0 [] [] 0 1 Pauli.X swap_input _ _ Hrun).
Defined.

(** ** Synthesis: the log is faithful *)

Lemma emitted_rz_app {A} (e1 e2 : list (event A)) :
  emitted_rz (e1 ++ e2) = emitted_rz e1 ++ emitted_rz e2.
Proof. apply omap_app. Qed.

Section LoggedRuns.
Context {A : Type} `{Collaborators A}.
Implicit Types (s : synth_state A) (qc c : list (gate A)) (evs : list (event A)).

Lemma replay_app evs1 evs2 gadgets gadgets1 :
  replay evs1 gadgets = Ok gadgets1 ->
  replay (evs1 ++ evs2) gadgets = replay evs2 gadgets1.
Proof.
  revert gadgets. induction evs1 as [|[r g|g cols] evs1 IH]; intros gadgets; simpl.
  - by intros [= ->].
  - apply IH.
  - destruct (call_propagate g cols gadgets); [apply IH|done..].
Qed.

Lemma emitted_rotations_app evs1 evs2 gadgets gadgets1 l1 l2 :
  emitted_rotations evs1 gadgets l1 -> replay evs1 gadgets = Ok gadgets1 ->
  emitted_rotations evs2 gadgets1 l2 ->
  emitted_rotations (evs1 ++ evs2) gadgets (l1 ++ l2).
Proof.
  revert gadgets l1. induction evs1 as [|[r g|g cols] evs1 IH]; intros gadgets l1; simpl.
  - by intros -> [= ->].
  - destruct g; try apply IH.
    destruct l1 as [|col l1]; [done|]. intros [Ha Hrest] Hrep H2. simpl.
    split; [done|]. by apply IH.
  - destruct (call_propagate g cols gadgets); [apply IH|done..].
Qed.

Lemma logs_refl columns s : logs columns s [] s.
Proof. exists [], []. rewrite !app_nil_r. repeat split; constructor. Qed.

Lemma logs_trans columns s s1 s2 rz1 rz2 :
  logs columns s rz1 s1 -> logs columns s1 rz2 s2 -> logs columns s (rz1 ++ rz2) s2.
Proof.
  intros (e1 & l1 & Ht1 & Hp1 & Hr1 & He1 & Hz1 & Hw1)
         (e2 & l2 & Ht2 & Hp2 & Hr2 & He2 & Hz2 & Hw2).
  exists (e1 ++ e2), (l1 ++ l2). repeat split.
  - by rewrite Ht2, Ht1, <- app_assoc.
  - by rewrite Hp2, Hp1, <- app_assoc.
  - by rewrite (replay_app _ _ _ _ Hr1).
  - by eapply emitted_rotations_app.
  - by rewrite emitted_rz_app, Hz1, Hz2.
  - by apply Forall_app.
Qed.

Lemma logs_mono columns columns' s rz s' :
  columns ⊆+ columns' -> logs columns s rz s' -> logs columns' s rz s'.
Proof.
  intros Hsub (evs & l & Ht & Hp & Hr & He & Hz & Hw).
  exists evs, l. repeat split; try done.
  eapply Forall_impl; [exact Hw|]. intros [r g|g cols]; [done|].
  intros Hc. by etrans.
Qed.

Lemma logs_same s s' columns : s' = s -> logs columns s [] s'.
Proof. intros ->. apply logs_refl. Qed.

Lemma emit_logs columns r g qc s qc' s' :
  emit r g qc s = (Ok qc', s') -> clifford_of g <> None -> logs columns s [] s'.
Proof.
  intros [= _ <-] Hg. exists [Emitted r g], []. simpl. rewrite app_nil_r.
  destruct g; try done; repeat split; by repeat constructor.
Qed.

Lemma propagate_logs columns g cols s u s' :
  propagate g cols s = (Ok u, s') -> cols ⊆+ columns -> logs columns s [] s'.
Proof.
  unfold propagate. destruct (call_propagate g cols (pp_gadgets s)) eqn:Hcall; [|done..].
  intros [= _ <-] Hsub. exists [Propagated g cols], []. simpl. rewrite app_nil_r, Hcall.
  repeat split; by repeat constructor.
Qed.

Lemma logs_rz columns s rz rz' s' : logs columns s rz s' -> rz = rz' -> logs columns s rz' s'.
Proof. by intros ? <-. Qed.

(** One step of a run, from the hypothesis that it returned. *)
Ltac step_logs :=
  match goal with
  | Hs : logs _ ?s _ _ |- logs _ ?s _ _ => exact Hs
  | Hs : emit _ _ _ ?s = (Ok _, _) |- logs _ ?s _ _ => eapply emit_logs; [exact Hs|done]
  | Hs : propagate _ _ ?s = (Ok _, _) |- logs _ ?s _ _ =>
      eapply propagate_logs; [exact Hs|done]
  | Hs : ret _ ?s = (Ok _, _) |- logs _ ?s _ _ =>
      apply logs_same; by apply ret_Ok_inv in Hs as [_ ->]
  end.

Ltac chain_logs :=
  repeat first [step_logs | eapply logs_trans; [step_logs|]].

Lemma update_gadget_single_column_logs qc q p columns s qc' s' :
  update_gadget_single_column qc q p columns s = (Ok qc', s') -> logs columns s [] s'.
Proof.
  destruct p; simpl; intros Hrun; [done| | |by step_logs];
    run_inv Hrun; (eapply logs_rz; [chain_logs|done]).
Qed.

Lemma update_single_qubits_logs c qubits columns s c' s' :
  update_single_qubits c qubits columns s = (Ok c', s') -> logs columns s [] s'.
Proof.
  revert c s. induction qubits as [|q qubits IH]; intros c s Hrun; simpl in Hrun.
  - by step_logs.
  - run_inv Hrun. apply lift_Ok_inv in Hc as [_ ->]. apply IH in Hrun.
    assert (logs columns s [] s1) as Hstep.
    { destruct x as [p|]; [by eapply update_gadget_single_column_logs|by step_logs]. }
    eapply logs_rz; [chain_logs|done].
Qed.

Lemma update_pair_loop_logs fuel G c qubit_pairs non_visited columns s c' s' :
  update_pair_loop fuel G c qubit_pairs non_visited columns s = (Ok c', s') ->
  logs columns s [] s'.
Proof.
  revert c qubit_pairs non_visited s.
  induction fuel as [|fuel IH]; intros c qubit_pairs non_visited s; simpl; [done|].
  destruct qubit_pairs as [[[p1 p2] [q_1 q_2]]|]; [|intros; by step_logs].
  destruct non_visited as [|q non_visited]; [intros; by step_logs|].
  intros Hrun. run_inv Hrun.
  apply (read_only_run _ _ _ _ (read_only_list_remove (A:=A) _ _)) in Hc as ->.
  apply (read_only_run _ _ _ _ (read_only_list_remove (A:=A) _ _)) in Hc0 as ->.
  apply update_gadget_single_column_logs in Hc1, Hc2.
  apply (read_only_run _ _ _ _ (read_only_pick_best_pair _ _ _)) in Hc5 as ->.
  apply IH in Hrun. eapply logs_rz; [chain_logs|done].
Qed.

Lemma update_pair_qubits_logs G c qubits columns s c' s' :
  update_pair_qubits G c qubits columns s = (Ok c', s') -> logs columns s [] s'.
Proof.
  unfold update_pair_qubits. intros Hrun. run_inv Hrun.
  apply (read_only_run _ _ _ _ (read_only_pick_best_pair _ _ _)) in Hc as ->.
  by eapply update_pair_loop_logs.
Qed.

Lemma basis_change_forward_logs qc row rec_type columns s qc' s' :
  basis_change_forward qc row rec_type columns s = (Ok qc', s') -> logs columns s [] s'.
Proof.
  destruct rec_type; simpl; intros Hrun; try (by step_logs);
    run_inv Hrun; (eapply logs_rz; [chain_logs|done]).
Qed.

Lemma basis_change_back_logs columns qc row rec_type s qc' s' :
  basis_change_back qc row rec_type s = (Ok qc', s') -> logs columns s [] s'.
Proof. destruct rec_type; simpl; intros Hrun; by step_logs. Qed.

Lemma rotations_logs columns qc cols row s qc' s' :
  rotations qc cols row s = (Ok qc', s') ->
  exists rz, rz_angles qc' = rz_angles qc ++ rz /\ logs columns s rz s'.
Proof.
  revert qc s. induction cols as [|col cols IH]; intros qc s Hrun; simpl in *.
  - apply ret_Ok_inv in Hrun as [-> ->]. exists []. rewrite app_nil_r.
    split; [done|apply logs_refl].
  - run_inv Hrun. apply angle_at_Ok_inv in Hc as (-> & g & Hg & ->).
    rewrite emit_run in Hc0. injection Hc0 as <- <-.
    unfold perm_append, modify in Hc1. injection Hc1 as _ <-. simpl in Hrun.
    apply IH in Hrun as (rz & Hrz & Hlog). exists (angle g :: rz). split.
    + rewrite Hrz, rz_angles_app. simpl. by rewrite <- app_assoc.
    + change (angle g :: rz) with ([angle g] ++ rz).
      eapply logs_trans; [|exact Hlog].
      exists [Emitted Rotation (gate_rz (angle g) row)], [col]. simpl.
      rewrite Hg. repeat split; by repeat constructor.
Qed.

Lemma apply_rotation_logs columns cols row rec_type s qc s' :
  apply_rotation cols row rec_type s = (Ok qc, s') -> logs columns s (rz_angles qc) s'.
Proof.
  unfold apply_rotation. intros Hrun. run_inv Hrun.
  assert (logs columns s [] s0 /\ rz_angles x = []) as [L0 Hrz0].
  { destruct rec_type; (split; [by step_logs|]);
      try (by apply ret_Ok_inv in Hc as [<- _]); by injection Hc as <- _. }
  apply (rotations_logs columns) in Hc0 as (rz & Hrz & L1).
  assert (logs columns s1 [] s' /\ rz_angles qc = rz_angles x0) as [L2 Hrz2].
  { destruct rec_type; (split; [by step_logs|]);
      try (by apply ret_Ok_inv in Hrun as [<- _]);
      injection Hrun as <- _; by rewrite rz_angles_app, app_nil_r. }
  eapply logs_rz; [chain_logs|]. simpl. by rewrite app_nil_r, Hrz2, Hrz, Hrz0.
Qed.

Ltac emits :=
  repeat match goal with
         | Hs : emit _ _ _ _ = (Ok _, _) |- _ => rewrite emit_run in Hs; injection Hs as <- <-
         | Hs : ret _ _ = (Ok _, _) |- _ => apply ret_Ok_inv in Hs as [-> _]
         end.

Ltac rz_done :=
  simpl; rewrite ?rz_angles_app, ?app_nil_r; simpl;
  repeat match goal with
         | Hq : rz_angles _ = _ |- _ =>
             rewrite Hq; clear Hq; simpl; rewrite ?rz_angles_app, ?app_nil_r; simpl
         end;
  rewrite ?app_nil_r; try done.

Section Helpers.
Variable rec : list nat -> list nat -> nat -> Pauli.t -> M (synth_state A) (list (gate A)).
Hypothesis rec_logs :
  forall columns qubits row rec_type s qc s',
    rec columns qubits row rec_type s = (Ok qc, s') -> logs columns s (rz_angles qc) s'.

Lemma check_identity_logs columns remaining row row_next rec_type s qc s' :
  check_identity rec columns remaining row row_next rec_type s = (Ok qc, s') ->
  logs columns s (rz_angles qc) s'.
Proof using rec_logs.
  destruct columns as [|col columns]; simpl; intros Hrun.
  { apply ret_Ok_inv in Hrun as [-> ->]. apply logs_refl. }
  run_inv Hrun.
  pose proof (basis_change_forward_quiet _ _ _ _ _ _ _ Hc) as [_ Hq0].
  pose proof (basis_change_back_quiet _ _ _ _ _ _ Hrun) as [_ Hq1].
  apply basis_change_forward_logs in Hc.
  apply (basis_change_back_logs (col :: columns)) in Hrun.
  apply rec_logs in Hc4.
  eapply logs_rz; [chain_logs|]. emits. rz_done.
Qed.

Lemma simplify_one_p_logs columns remaining row rec_type row_next t s qc s' :
  simplify_one_p rec columns remaining row rec_type row_next t s = (Ok qc, s') ->
  logs columns s (rz_angles qc) s'.
Proof using rec_logs.
  destruct columns as [|col columns]; simpl; intros Hrun.
  { apply ret_Ok_inv in Hrun as [-> ->]. apply logs_refl. }
  run_inv Hrun.
  pose proof (basis_change_forward_quiet _ _ _ _ _ _ _ Hc) as [_ Hq0].
  pose proof (basis_change_forward_quiet _ _ _ _ _ _ _ Hc0) as [_ Hq1].
  pose proof (basis_change_back_quiet _ _ _ _ _ _ Hc5) as [_ Hq2].
  pose proof (basis_change_back_quiet _ _ _ _ _ _ Hrun) as [_ Hq3].
  apply basis_change_forward_logs in Hc, Hc0.
  apply (basis_change_back_logs (col :: columns)) in Hc5, Hrun.
  apply rec_logs in Hc3.
  eapply logs_rz; [chain_logs|]. emits. rz_done.
Qed.

Lemma simplify_twp_p_logs columns remaining row rec_type row_next t1 t2 s qc s' :
  simplify_twp_p rec columns remaining row rec_type row_next t1 t2 s = (Ok qc, s') ->
  logs columns s (rz_angles qc) s'.
Proof using rec_logs.
  unfold simplify_twp_p. destruct columns as [|col columns].
  { intros [-> ->]%ret_Ok_inv. apply logs_refl. }
  cbv beta iota. generalize (col :: columns). clear col columns. intros columns Hrun.
  run_inv Hrun.
  pose proof (basis_change_forward_quiet _ _ _ _ _ _ _ Hc) as [_ Hq0].
  pose proof (basis_change_back_quiet _ _ _ _ _ _ Hc8) as [_ Hq1].
  apply basis_change_forward_logs in Hc. apply (basis_change_back_logs columns) in Hc8.
  assert (logs columns s0 [] s1 /\ rz_angles x0 = rz_angles x) as [L1 Hr1].
  { destruct t1, t2; try (split; [by step_logs|by apply ret_Ok_inv in Hc0 as [<- _]]);
      run_inv Hc0; (split; [eapply logs_rz; [chain_logs|done]|emits; rz_done]). }
  clear Hc0.
  apply (read_only_run _ _ _ _
           (read_only_columns_where _ _ _ (fun col => read_only_pp_item_at col row_next)))
    in Hc3 as Hs4. subst s4.
  apply (read_only_run _ _ _ _
           (read_only_columns_where _ _ _ (fun col => read_only_pp_item_at col row_next)))
    in Hc4 as Hs5. subst s5.
  pose proof (columns_where_disjoint _ Pauli.Z Pauli.Y columns s3 x3 s3 x4 s3
                (fun col => read_only_pp_item_at col row_next) ltac:(done) Hc3 Hc4) as Hdis.
  clear Hc3 Hc4.
  apply rec_logs in Hc5, Hc6.
  apply (logs_mono _ columns) in Hc5;
    [|by etrans; [apply submseteq_inserts_r; reflexivity|exact Hdis]].
  apply (logs_mono _ columns) in Hc6;
    [|by etrans; [apply submseteq_inserts_l; reflexivity|exact Hdis]].
  assert (logs columns s9 [] s' /\ rz_angles qc = rz_angles x8) as [L2 Hr2].
  { destruct t1, t2; try (split; [by step_logs|by apply ret_Ok_inv in Hrun as [<- _]]);
      (split; [by step_logs|emits; rz_done]). }
  clear Hrun.
  eapply logs_rz; [chain_logs|]. emits. rz_done.
Qed.

End Helpers.

Lemma recurse_logs fuel G :
  (forall columns qubits s qc s',
     identity_recurse fuel G columns qubits s = (Ok qc, s') ->
     logs columns s (rz_angles qc) s') /\
  (forall columns qubits row rec_type s qc s',
     p_recurse fuel G columns qubits row rec_type s = (Ok qc, s') ->
     logs columns s (rz_angles qc) s').
Proof.
  induction fuel as [|fuel [IHi IHp]]; [by split|]. split.
  - intros columns qubits s qc s' Hrun. simpl in Hrun.
    destruct columns as [|col columns].
    { apply ret_Ok_inv in Hrun as [-> ->]. apply logs_refl. }
    run_inv Hrun.
    pose proof (update_single_qubits_quiet _ _ _ _ _ _ Hc) as [_ Hq0].
    pose proof (update_pair_qubits_quiet _ _ _ _ _ _ _ Hc0) as [_ Hq1].
    apply update_single_qubits_logs in Hc. apply update_pair_qubits_logs in Hc0.
    apply (read_only_run _ _ _ _ (read_only_pick_row (A:=A) _ _)) in Hc1 as ->.
    destruct x2 as [[[pp_i pp_x] pp_y] pp_z].
    apply partition_run in Hc2 as [-> Hperm]. run_inv Hrun.
    apply ret_Ok_inv in Hrun as [-> ->].
    apply IHp in Hc2, Hc3, Hc4.
    assert (logs pp_i s1 (rz_angles x2) s2) as Hi.
    { destruct (without x1 qubits); [by eapply apply_rotation_logs|by eapply IHi]. }
    clear Hc1.
    apply (logs_mono _ (col :: columns)) in Hi;
      [|rewrite <- Hperm; apply submseteq_inserts_r; reflexivity].
    apply (logs_mono _ (col :: columns)) in Hc2;
      [|rewrite <- Hperm; apply submseteq_inserts_l, submseteq_inserts_r; reflexivity].
    apply (logs_mono _ (col :: columns)) in Hc3;
      [|rewrite <- Hperm; do 2 apply submseteq_inserts_l;
        apply submseteq_inserts_r; reflexivity].
    apply (logs_mono _ (col :: columns)) in Hc4;
      [|rewrite <- Hperm; do 3 apply submseteq_inserts_l; reflexivity].
    assert (rz_angles x0 = []) as Hdiag by (rewrite Hq1, Hq0; done).
    pose proof (rz_angles_inverse _ Hdiag) as Hinv.
    eapply logs_rz; [chain_logs|]. clear Hq0 Hq1. rz_done.
  - intros columns qubits row rec_type s qc s' Hrun. simpl in Hrun.
    destruct (Pauli.eqb rec_type Pauli.I); [done|].
    destruct columns as [|col columns].
    { apply ret_Ok_inv in Hrun as [-> ->]. apply logs_refl. }
    destruct qubits as [|q qubits]; [by eapply apply_rotation_logs|].
    destruct (neighbors G _ row) as [|nb nbs]; [done|].
    run_inv Hrun.
    apply (read_only_run _ _ _ _ (read_only_pick_row (A:=A) _ _)) in Hc as ->.
    destruct x0 as [[[[[pp_i t1] t2] pp2] t_p1] pp1].
    apply partition__run in Hc0 as [-> Hperm]. run_inv Hrun.
    apply ret_Ok_inv in Hrun as [-> ->].
    apply (simplify_one_p_logs _ IHp) in Hc1.
    apply (simplify_twp_p_logs _ IHp) in Hc0.
    assert (logs pp_i s (rz_angles x0) s0) as Hi.
    { destruct (negb _); [by eapply IHi|by eapply (check_identity_logs _ IHp)]. }
    clear Hc.
    apply (logs_mono _ (col :: columns)) in Hi;
      [|rewrite <- Hperm; apply submseteq_inserts_r; reflexivity].
    apply (logs_mono _ (col :: columns)) in Hc0;
      [|rewrite <- Hperm; apply submseteq_inserts_l, submseteq_inserts_r; reflexivity].
    apply (logs_mono _ (col :: columns)) in Hc1;
      [|rewrite <- Hperm; do 2 apply submseteq_inserts_l; reflexivity].
    eapply logs_rz; [chain_logs|]. rz_done.
Qed.

Lemma synthesis_logs fuel n G s circ_out perm permutation s' :
  pauli_polynomial_steiner_gray_nc fuel n G s = (Ok (circ_out, perm, permutation), s') ->
  perm = perm_gadgets s' /\
  exists evs,
    trace s' = trace s ++ evs /\
    replay evs (pp_gadgets s) = Ok (pp_gadgets s') /\
    emitted_rotations evs (pp_gadgets s) perm /\
    emitted_rz evs = rz_angles circ_out /\
    propagated_within (seq 0 (length (pp_gadgets s))) evs.
Proof.
  unfold pauli_polynomial_steiner_gray_nc. intros Hrun. run_inv Hrun.
  unfold modify in Hc. injection Hc as _ <-.
  apply recurse_logs in Hc0 as (evs & l & Ht & Hp & Hr & He & Hz & Hw).
  simpl in Ht, Hp, Hr, He, Hw.
  apply (read_only_run _ _ _ _ (read_only_dict_values _ _)) in Hc1 as ->.
  apply ret_Ok_inv in Hrun as [Heq ->]. injection Heq as -> -> _.
  split; [done|]. exists evs. by rewrite Hp.
Qed.

Lemma in_step_intro columns s rz s' :
  (exists evs, trace s' = trace s ++ evs /\
               forward_cliffords evs = propagated_cliffords evs) ->
  logs columns s rz s' -> in_step columns s s'.
Proof.
  intros (evs & Ht & Hb) (evs' & l & Ht' & _ & Hr & _ & _ & Hw).
  assert (evs' = evs) as -> by (rewrite Ht in Ht'; by apply app_inv_head in Ht').
  by exists evs.
Qed.



End LoggedRuns.



